(** * Feishu channel plugin: outbound delivery core

    A shallow embedding of the reply dispatcher ([reply-dispatcher.ts], in
    its two revisions), of the streaming card controller [FeishuStream], of
    the message queries of [send.ts] and of the dispatch tail of
    [handleFeishuMessage] ([bot.ts]), followed by the properties of the
    delivery core.

    JavaScript strings are sequences of UTF-16 code units; asynchronous
    code is modelled by the explicit continuations an [await] leaves behind
    (the streaming controller) or by a trace monad whose network outcomes
    come from an oracle (the dispatcher and the queries). *)

From stdpp Require Import base option list numbers strings gmap.
From Stdlib Require Import ZArith NArith Lia Bool List.
From Stdlib Require Strings.String Strings.Ascii.
Import ListNotations.

Set Default Proof Using "Type".

(** ** JavaScript values the code manipulates *)

Module JS.

(** One UTF-16 code unit. *)
Definition char := N.

(** A JavaScript string. *)
Definition str := list char.

(** Code units of an ASCII literal. *)
Definition lit (s : String.string) : str :=
  map Ascii.N_of_ascii (String.list_ascii_of_string s).
Arguments lit s%_string.

(** [s === t] on strings. *)
Definition str_eqb (s t : str) : bool := bool_decide (s = t).

(** Truthiness of a string: only the empty string is falsy. *)
Definition truthy (s : str) : bool :=
  match s with [] => false | _ :: _ => true end.

(** Truthiness of a [string | null | undefined] value. *)
Definition truthy_opt (o : option str) : bool :=
  match o with Some s => truthy s | None => false end.

(** [a ?? b]. *)
Definition nullish {A} (o : option A) (d : A) : A :=
  match o with Some a => a | None => d end.

(** [a || b] on strings. *)
Definition or_else (s d : str) : str := if truthy s then s else d.

(** ECMAScript LineTerminator: LF, CR, LS, PS. *)
Definition isLineTerminator (c : char) : bool :=
  ((c =? 10) || (c =? 13) || (c =? 8232) || (c =? 8233))%N.

(** ECMAScript WhiteSpace or LineTerminator, the set [String.prototype.trim]
    strips: TAB, LF, VT, FF, CR, SP, NBSP, U+1680, U+2000..U+200A, LS, PS,
    U+202F, U+205F, U+3000, BOM. *)
Definition isTrimmable (c : char) : bool :=
  (((9 <=? c) && (c <=? 13)) || (c =? 32) || (c =? 160) || (c =? 5760)
   || ((8192 <=? c) && (c <=? 8202)) || (c =? 8232) || (c =? 8233)
   || (c =? 8239) || (c =? 8287) || (c =? 12288) || (c =? 65279))%N.

Fixpoint trimStart (s : str) : str :=
  match s with
  | c :: s' => if isTrimmable c then trimStart s' else s
  | [] => []
  end.

Definition trimEnd (s : str) : str := rev (trimStart (rev s)).

(** [s.trim()]. *)
Definition trim (s : str) : str := trimEnd (trimStart s).

(** The result of a call that may throw. *)
Inductive completion (A : Type) : Type :=
| Normal (a : A)
| Throw (msg : str).
Arguments Normal {A} a.
Arguments Throw {A} msg.

(** Sequencing of calls that may throw. *)
Definition andThen {A B} (c : completion A) (k : A -> completion B)
  : completion B :=
  match c with
  | Normal a => k a
  | Throw msg => Throw msg
  end.

(** [try { body } catch { }] around a computation of a value that keeps
    [fallback] when [body] throws. *)
Definition orKeep {A} (body : completion A) (fallback : A) : A :=
  match body with
  | Normal a => a
  | Throw _ => fallback
  end.

(** [try { body } catch { handler }] *)
Definition tryCatch {A} (body : completion A) (handler : str -> completion A)
  : completion A :=
  match body with
  | Normal a => Normal a
  | Throw msg => handler msg
  end.

End JS.

(** ** Regular expression literals

    The two literals of [shouldUseCard] use no anchors, groups or
    back-references, so [RegExp.prototype.test] holds exactly when some
    substring of the text belongs to the language of the pattern; lazy and
    greedy quantifiers denote the same language. *)

Module Regex.

Inductive re : Type :=
| Void
| Eps
| Cls (p : JS.char -> bool)
| Cat (r1 r2 : re)
| Alt (r1 r2 : re)
| Star (r : re).

Fixpoint nullable (r : re) : bool :=
  match r with
  | Void => false
  | Eps => true
  | Cls _ => false
  | Cat r1 r2 => nullable r1 && nullable r2
  | Alt r1 r2 => nullable r1 || nullable r2
  | Star _ => true
  end.

(** Brzozowski derivative. *)
Fixpoint deriv (c : JS.char) (r : re) : re :=
  match r with
  | Void => Void
  | Eps => Void
  | Cls p => if p c then Eps else Void
  | Cat r1 r2 =>
      if nullable r1 then Alt (Cat (deriv c r1) r2) (deriv c r2)
      else Cat (deriv c r1) r2
  | Alt r1 r2 => Alt (deriv c r1) (deriv c r2)
  | Star r1 => Cat (deriv c r1) (Star r1)
  end.

(** Whole-string match. *)
Fixpoint matches (r : re) (s : JS.str) : bool :=
  match s with
  | [] => nullable r
  | c :: s' => matches (deriv c r) s'
  end.

(** Does some prefix of [s] match [r]? *)
Fixpoint matches_prefix (r : re) (s : JS.str) : bool :=
  nullable r ||
  match s with
  | [] => false
  | c :: s' => matches_prefix (deriv c r) s'
  end.

(** [r.test(s)] for an unanchored pattern without flags: a match is tried
    at every start index. *)
Fixpoint test (r : re) (s : JS.str) : bool :=
  matches_prefix r s ||
  match s with
  | [] => false
  | _ :: s' => test r s'
  end.

(** The language a pattern denotes. *)
Inductive lang : re -> JS.str -> Prop :=
| lang_eps : lang Eps []
| lang_cls p c : p c = true -> lang (Cls p) [c]
| lang_cat r1 r2 s1 s2 :
    lang r1 s1 -> lang r2 s2 -> lang (Cat r1 r2) (s1 ++ s2)
| lang_alt_l r1 r2 s : lang r1 s -> lang (Alt r1 r2) s
| lang_alt_r r1 r2 s : lang r2 s -> lang (Alt r1 r2) s
| lang_star_nil r : lang (Star r) []
| lang_star_app r s1 s2 :
    lang r s1 -> lang (Star r) s2 -> lang (Star r) (s1 ++ s2).

(** Pattern syntax used by the literals. *)
Definition chr (c : JS.char) : re := Cls (N.eqb c).
Definition plus (r : re) : re := Cat r (Star r).
Fixpoint word (w : JS.str) : re :=
  match w with
  | [] => Eps
  | c :: w' => Cat (chr c) (word w')
  end.

(** [.] without the [s] flag. *)
Definition dot_class (c : JS.char) : bool := negb (JS.isLineTerminator c).
(** [[\s\S]]. *)
Definition any_class (c : JS.char) : bool := true.
(** [[\r\n]]. *)
Definition crlf_class (c : JS.char) : bool := ((c =? 13) || (c =? 10))%N.
(** [[-:| ]]. *)
Definition sep_class (c : JS.char) : bool :=
  ((c =? 45) || (c =? 58) || (c =? 124) || (c =? 32))%N.

End Regex.

(** ** Render mode selection ([shouldUseCard] and the decision in [deliver]) *)

Module Render.
Import Regex.

Definition backticks : JS.str := [96; 96; 96]%N.
Definition pipe : JS.char := 124%N.

(** [/```[\s\S]*?```/] *)
Definition fence_re : re :=
  Cat (word backticks) (Cat (Star (Cls any_class)) (word backticks)).

(** [/\|.+\|[\r\n]+\|[-:| ]+\|/] *)
Definition table_re : re :=
  Cat (chr pipe) (Cat (plus (Cls dot_class)) (Cat (chr pipe)
    (Cat (plus (Cls crlf_class)) (Cat (chr pipe)
      (Cat (plus (Cls sep_class)) (chr pipe)))))).

Definition shouldUseCard (text : JS.str) : bool :=
  if test fence_re text then true
  else if test table_re text then true
  else false.

(** Modelled from the spec: the [renderMode] option of [FeishuConfig]
    ([types.ts] is not part of the sources); the spec lists the render
    modes plain, rich and auto, which the code spells [raw], [card] and
    [auto]. *)
Inductive RenderMode : Type := auto | raw | card.

Definition RenderMode_eqb (a b : RenderMode) : bool :=
  match a, b with
  | auto, auto | raw, raw | card, card => true
  | _, _ => false
  end.

Inductive Rendering : Type := Plain | Rich.

(** [feishuCfg?.renderMode ?? "auto"] *)
Definition resolveRenderMode (configured : option RenderMode) : RenderMode :=
  JS.nullish configured auto.

(** [renderMode === "card" || (renderMode === "auto" && shouldUseCard(text))] *)
Definition useCard (renderMode : RenderMode) (text : JS.str) : bool :=
  RenderMode_eqb renderMode card
  || (RenderMode_eqb renderMode auto && shouldUseCard text).

Definition selectRender (configured : option RenderMode) (text : JS.str)
  : Rendering :=
  if useCard (resolveRenderMode configured) text then Rich else Plain.

(** What the spec calls a fenced code block: an opening and a closing
    run of three backticks. *)
Definition contains_fenced_block (text : JS.str) : Prop :=
  exists pre body post,
    text = pre ++ backticks ++ body ++ backticks ++ post.

(** What the spec calls a markdown table: a row [|cells|] on one line,
    line breaks, and a separator row [|sep|] whose inside is made of
    dashes, colons, pipes and blanks. *)
Definition contains_table (text : JS.str) : Prop :=
  exists pre cells breaks sep post,
    text = pre ++ [pipe] ++ cells ++ [pipe] ++ breaks
               ++ [pipe] ++ sep ++ [pipe] ++ post
    /\ cells <> [] /\ Forall (fun c => JS.isLineTerminator c = false) cells
    /\ breaks <> [] /\ Forall (fun c => c = 13%N \/ c = 10%N) breaks
    /\ sep <> []
    /\ Forall (fun c => c = 45%N \/ c = 58%N \/ c = 124%N \/ c = 32%N) sep.

End Render.

(** ** The streaming card controller ([class FeishuStream])

    JavaScript runs one task at a time; an [async] method runs
    synchronously up to its first [await], where the rest of the method is
    parked until the awaited promise settles. A controller is therefore the
    object's fields together with the continuations parked on it, and it
    moves by events: a method call (its synchronous part), a timer firing,
    or a network call settling (which resumes the parked continuation). *)

Module Stream.

Definition STREAM_UPDATE_INTERVAL_MS : Z := 400.

(** The card [createSimpleTextCard(content, streaming)] of [send.ts]: its
    [config.streaming_mode] and the content of its markdown element. *)
Record Card : Type := {
  streaming_mode : bool;
  markdown : JS.str;
}.

Definition createSimpleTextCard (content : JS.str) (streaming : bool) : Card :=
  {| streaming_mode := streaming;
     markdown := JS.or_else content (JS.lit "...") |}.

(** Calls to the transport of [send.ts]. *)
Inductive NetCall : Type :=
| SendCard (card : Card)
| UpdateCard (messageId : JS.str) (card : Card).

(** An [update(content, isFinal)] call parked at
    [await this.initializationPromise]. *)
Record Waiter : Type := {
  w_content : JS.str;
  w_isFinal : bool;
}.

(** A [setTimeout] whose callback closes over [content]; it fires no
    earlier than [t_due]. *)
Record Timer : Type := {
  t_content : JS.str;
  t_due : Z;
}.

Record FeishuStream : Type := {
  messageId : option JS.str;
  lastContent : JS.str;
  lastUpdateTime : Z;
  pendingUpdate : option Timer;
  isFinalized : bool;
  (** The pending creation promise, with the content its closure holds. *)
  initializationPromise : option JS.str;
  (** Calls parked on [initializationPromise], oldest first. *)
  waiters : list Waiter;
  (** [performUpdate(content)] calls parked at [await updateCardFeishu]. *)
  updatesInFlight : list JS.str;
  (** [finalize] calls parked at [await updateCardFeishu]. *)
  finalizesInFlight : nat;
}.

(** [new FeishuStream(ctx)] *)
Definition new : FeishuStream :=
  {| messageId := None; lastContent := []; lastUpdateTime := 0;
     pendingUpdate := None; isFinalized := false;
     initializationPromise := None; waiters := [];
     updatesInFlight := []; finalizesInFlight := 0 |}.

Definition set_pendingUpdate (p : option Timer) (m : FeishuStream) :=
  {| messageId := messageId m; lastContent := lastContent m;
     lastUpdateTime := lastUpdateTime m; pendingUpdate := p;
     isFinalized := isFinalized m;
     initializationPromise := initializationPromise m;
     waiters := waiters m; updatesInFlight := updatesInFlight m;
     finalizesInFlight := finalizesInFlight m |}.

Definition set_isFinalized (b : bool) (m : FeishuStream) :=
  {| messageId := messageId m; lastContent := lastContent m;
     lastUpdateTime := lastUpdateTime m; pendingUpdate := pendingUpdate m;
     isFinalized := b;
     initializationPromise := initializationPromise m;
     waiters := waiters m; updatesInFlight := updatesInFlight m;
     finalizesInFlight := finalizesInFlight m |}.

Definition set_initialization (p : option JS.str) (ws : list Waiter)
    (m : FeishuStream) :=
  {| messageId := messageId m; lastContent := lastContent m;
     lastUpdateTime := lastUpdateTime m; pendingUpdate := pendingUpdate m;
     isFinalized := isFinalized m;
     initializationPromise := p;
     waiters := ws; updatesInFlight := updatesInFlight m;
     finalizesInFlight := finalizesInFlight m |}.

Definition set_updatesInFlight (l : list JS.str) (m : FeishuStream) :=
  {| messageId := messageId m; lastContent := lastContent m;
     lastUpdateTime := lastUpdateTime m; pendingUpdate := pendingUpdate m;
     isFinalized := isFinalized m;
     initializationPromise := initializationPromise m;
     waiters := waiters m; updatesInFlight := l;
     finalizesInFlight := finalizesInFlight m |}.

Definition set_finalizesInFlight (n : nat) (m : FeishuStream) :=
  {| messageId := messageId m; lastContent := lastContent m;
     lastUpdateTime := lastUpdateTime m; pendingUpdate := pendingUpdate m;
     isFinalized := isFinalized m;
     initializationPromise := initializationPromise m;
     waiters := waiters m; updatesInFlight := updatesInFlight m;
     finalizesInFlight := n |}.

(** [this.lastContent = content; this.lastUpdateTime = Date.now()] *)
Definition set_sent (content : JS.str) (now : Z) (m : FeishuStream) :=
  {| messageId := messageId m; lastContent := content;
     lastUpdateTime := now; pendingUpdate := pendingUpdate m;
     isFinalized := isFinalized m;
     initializationPromise := initializationPromise m;
     waiters := waiters m; updatesInFlight := updatesInFlight m;
     finalizesInFlight := finalizesInFlight m |}.

Definition set_messageId (mid : JS.str) (m : FeishuStream) :=
  {| messageId := Some mid; lastContent := lastContent m;
     lastUpdateTime := lastUpdateTime m; pendingUpdate := pendingUpdate m;
     isFinalized := isFinalized m;
     initializationPromise := initializationPromise m;
     waiters := waiters m; updatesInFlight := updatesInFlight m;
     finalizesInFlight := finalizesInFlight m |}.

(** [if (this.messageId)]: the id when it is a non-empty string. *)
Definition liveId (m : FeishuStream) : option JS.str :=
  match messageId m with
  | Some mid => if JS.truthy mid then Some mid else None
  | None => None
  end.

(** [performUpdate(content)] up to [await updateCardFeishu(...)]. *)
Definition performUpdate (content : JS.str) (m : FeishuStream)
  : FeishuStream * list NetCall :=
  match liveId m with
  | Some mid =>
      if isFinalized m then (m, [])
      else (set_updatesInFlight (updatesInFlight m ++ [content]) m,
            [UpdateCard mid (createSimpleTextCard content true)])
  | None => (m, [])
  end.

(** The tail of [update] after the creation guard: "Schedule or execute
    update". *)
Definition scheduleOrExecute (content : JS.str) (isFinal : bool) (now : Z)
    (m : FeishuStream) : FeishuStream * list NetCall :=
  let timeSinceLast := (now - lastUpdateTime m)%Z in
  if isFinal || (STREAM_UPDATE_INTERVAL_MS <=? timeSinceLast)%Z then
    performUpdate content m
  else
    match pendingUpdate m with
    | None =>
        (set_pendingUpdate
           (Some {| t_content := content;
                    t_due := (now + (STREAM_UPDATE_INTERVAL_MS - timeSinceLast))%Z |})
           m, [])
    | Some _ => (m, [])
    end.

(** [update(content, isFinal)] called at time [now], up to its first
    [await]. *)
Definition update (content : JS.str) (isFinal : bool) (now : Z)
    (m : FeishuStream) : FeishuStream * list NetCall :=
  if isFinalized m then (m, [])
  else if JS.str_eqb content (lastContent m) then (m, [])
  else
    match liveId m with
    | None =>
        match initializationPromise m with
        | Some _ =>
            (set_initialization (initializationPromise m)
               (waiters m ++ [{| w_content := content; w_isFinal := isFinal |}])
               m, [])
        | None =>
            (set_initialization (Some content) [] m,
             [SendCard (createSimpleTextCard content true)])
        end
    | Some _ => scheduleOrExecute content isFinal now m
    end.

(** A call resumed after [await this.initializationPromise]. *)
Definition resume (now : Z) (w : Waiter) (m : FeishuStream)
  : FeishuStream * list NetCall :=
  match liveId m with
  | None => (m, [])
  | Some _ => scheduleOrExecute (w_content w) (w_isFinal w) now m
  end.

Fixpoint resumeAll (now : Z) (ws : list Waiter) (m : FeishuStream)
  : FeishuStream * list NetCall :=
  match ws with
  | [] => (m, [])
  | w :: ws' =>
      let '(m1, c1) := resume now w m in
      let '(m2, c2) := resumeAll now ws' m1 in
      (m2, c1 ++ c2)
  end.

(** [sendCardFeishu] settles: the rest of the creation closure runs (its
    [try], [catch] and [finally]), then the parked callers resume in the
    order they were parked. *)
Definition createSettles (result : JS.completion JS.str) (now : Z)
    (m : FeishuStream) : FeishuStream * list NetCall :=
  match initializationPromise m with
  | None => (m, [])
  | Some content =>
      let m1 :=
        match result with
        | JS.Normal mid => set_sent content now (set_messageId mid m)
        | JS.Throw _ => m
        end in
      resumeAll now (waiters m) (set_initialization None [] m1)
  end.

(** The pending timer fires. *)
Definition timerFires (now : Z) (m : FeishuStream)
  : FeishuStream * list NetCall :=
  match pendingUpdate m with
  | Some t =>
      if (t_due t <=? now)%Z then
        performUpdate (t_content t) (set_pendingUpdate None m)
      else (m, [])
  | None => (m, [])
  end.

(** The [k]-th parked [performUpdate] resumes after [updateCardFeishu]. *)
Definition updateSettles (k : nat) (ok : bool) (now : Z) (m : FeishuStream)
  : FeishuStream :=
  match updatesInFlight m !! k with
  | Some content =>
      let m1 := set_updatesInFlight (delete k (updatesInFlight m)) m in
      if ok then set_sent content now m1 else m1
  | None => m
  end.

(** [finalize(content)] up to [await updateCardFeishu(...)]. *)
Definition finalize (content : JS.str) (m : FeishuStream)
  : FeishuStream * list NetCall :=
  if isFinalized m then (m, [])
  else
    let m1 := set_pendingUpdate None m in
    match liveId m1 with
    | Some mid =>
        (set_finalizesInFlight (S (finalizesInFlight m1)) m1,
         [UpdateCard mid (createSimpleTextCard content false)])
    | None => (m1, [])
    end.

(** A parked [finalize] resumes after [updateCardFeishu]. *)
Definition finalizeSettles (ok : bool) (m : FeishuStream) : FeishuStream :=
  match finalizesInFlight m with
  | O => m
  | S n =>
      let m1 := set_finalizesInFlight n m in
      if ok then set_isFinalized true m1 else m1
  end.

Inductive Event : Type :=
| CallUpdate (content : JS.str) (isFinal : bool) (now : Z)
| CallFinalize (content : JS.str)
| TimerFires (now : Z)
| CreateSettles (result : JS.completion JS.str) (now : Z)
| UpdateSettles (k : nat) (ok : bool) (now : Z)
| FinalizeSettles (ok : bool).

Definition step (m : FeishuStream) (e : Event) : FeishuStream * list NetCall :=
  match e with
  | CallUpdate content isFinal now => update content isFinal now m
  | CallFinalize content => finalize content m
  | TimerFires now => timerFires now m
  | CreateSettles result now => createSettles result now m
  | UpdateSettles k ok now => (updateSettles k ok now m, [])
  | FinalizeSettles ok => (finalizeSettles ok m, [])
  end.

(** The controller after a sequence of events, and the network calls
    issued, oldest first. *)
Fixpoint run (m : FeishuStream) (es : list Event)
  : FeishuStream * list NetCall :=
  match es with
  | [] => (m, [])
  | e :: es' =>
      let '(m1, c1) := step m e in
      let '(m2, c2) := run m1 es' in
      (m2, c1 ++ c2)
  end.

(** The states of the spec. *)
Inductive Phase : Type := Empty | Initializing | Live | Finalized.

Definition phase (m : FeishuStream) : Phase :=
  if isFinalized m then Finalized
  else match liveId m with
       | Some _ => Live
       | None =>
           match initializationPromise m with
           | Some _ => Initializing
           | None => Empty
           end
       end.

Definition isSendCard (c : NetCall) : bool :=
  match c with SendCard _ => true | UpdateCard _ _ => false end.

(** A settled creation that left no live message behind. *)
Definition isFailedCreation (e : Event) : bool :=
  match e with
  | CreateSettles (JS.Normal mid) _ => negb (JS.truthy mid)
  | CreateSettles (JS.Throw _) _ => true
  | _ => false
  end.

End Stream.

(** ** Readings of the controller's properties *)

Module StreamSpec.
Import Stream.

Definition countSendCard (calls : list NetCall) : nat :=
  length (List.filter isSendCard calls).

(** The number of creations that settle, along a run, without leaving a
    live message behind. *)
Fixpoint failedCreations (m : FeishuStream) (es : list Event) : nat :=
  match es with
  | [] => 0
  | e :: es' =>
      (if isFailedCreation e
       then match initializationPromise m with Some _ => 1 | None => 0 end
       else 0)
      + failedCreations (fst (step m e)) es'
  end.

(** May an [update] start a creation? *)
Definition canCreate (m : FeishuStream) : nat :=
  match liveId m, initializationPromise m with
  | None, None => 1
  | _, _ => 0
  end.

(** A transition that neither touches the creation guard nor creates. *)
Definition keeps_creation (m : FeishuStream) (r : FeishuStream * list NetCall)
  : Prop :=
  messageId (fst r) = messageId m
  /\ initializationPromise (fst r) = initializationPromise m
  /\ countSendCard (snd r) = 0%nat.

(** Finalization as the spec words it: from any phase but [Empty],
    [finalize(content)] drops the pending timer, issues one update marked
    done, and the controller is [Finalized] once that call has settled,
    whether it succeeded or not; from [Empty] it changes nothing. *)
Definition finalize_always_finalizes
    (m : FeishuStream) (content : JS.str) (ok : bool) : Prop :=
  let '(m1, calls) := finalize content m in
  pendingUpdate m1 = None
  /\ match phase m with
     | Empty => calls = [] /\ m1 = m
     | _ =>
         (exists mid,
            calls = [UpdateCard mid (createSimpleTextCard content false)])
         /\ phase (finalizeSettles ok m1) = Finalized
     end.

(** Coalescing as the spec words it: of two updates arriving within the
    debounce interval of the last sent one, at most one network update
    results, and it carries the content of the later call: the newer
    update replaces the content of the pending one, which fires at [t3]. *)
Definition later_content_wins
    (m : FeishuStream) (c1 c2 : JS.str) (t1 t2 t3 : Z) : Prop :=
  let calls :=
    snd (run m [CallUpdate c1 false t1; CallUpdate c2 false t2;
                TimerFires t3]) in
  (length calls <= 1)%nat
  /\ forall call, In call calls ->
       exists mid, call = UpdateCard mid (createSimpleTextCard c2 true).

(** Creation as the spec words it: a turn issues at most one creation. *)
Definition at_most_one_creation (es : list Event) : Prop :=
  (countSendCard (snd (run new es)) <= 1)%nat.

(** A controller with a live card, last updated at time 1000. *)
Definition live_example : FeishuStream :=
  {| messageId := Some (JS.lit "om_1"); lastContent := JS.lit "Hel";
     lastUpdateTime := 1000; pendingUpdate := None; isFinalized := false;
     initializationPromise := None; waiters := [];
     updatesInFlight := []; finalizesInFlight := 0 |}.

End StreamSpec.

(** ** The reply dispatcher ([createFeishuReplyDispatcher])

    The callbacks of the dispatcher are sequential [async] functions over
    the closure variables [typingState] and [currentStream]. They are
    written in a monad that threads those variables and the trace of the
    transport operations awaited; whether an awaited operation succeeds is
    answered by an oracle, asked with the number of operations started
    before it. *)

Module Dispatcher.

(** Modelled from the spec: the handle of [typing.ts] (not part of the
    sources), "an opaque handle identifying an active ephemeral indicator
    (a reaction/marker id) plus the target it was applied to". *)
Record TypingIndicatorState : Type := {
  ti_target : JS.str;
  ti_marker : JS.str;
}.

(** The transport operations a callback awaits. *)
Inductive Op : Type :=
| SendMessage (to text : JS.str) (replyToMessageId : option JS.str)
| SendMarkdownCard (to text : JS.str) (replyToMessageId : option JS.str)
| UpdateCard (messageId : JS.str) (card : Stream.Card)
| RemoveIndicator (state : TypingIndicatorState).

Inductive TraceEvent : Type :=
| Started (op : Op)
| Settled (op : Op) (ok : bool).

Definition Oracle : Type := nat -> Op -> bool.

Record World : Type := {
  typingState : option TypingIndicatorState;
  currentStream : option Stream.FeishuStream;
  trace : list TraceEvent;
}.

Definition isStarted (e : TraceEvent) : bool :=
  match e with Started _ => true | Settled _ _ => false end.

Definition startedCount (t : list TraceEvent) : nat :=
  length (List.filter isStarted t).

(** The operations started in a trace, oldest first. *)
Fixpoint startedOps (t : list TraceEvent) : list Op :=
  match t with
  | [] => []
  | Started op :: t' => op :: startedOps t'
  | Settled _ _ :: t' => startedOps t'
  end.

(** Did an operation of the trace fail? *)
Definition failedIn (t : list TraceEvent) : bool :=
  existsb (fun e => match e with Settled _ ok => negb ok | Started _ => false end) t.

Definition M (A : Type) : Type := World -> World * JS.completion A.

Definition ret {A} (a : A) : M A := fun w => (w, JS.Normal a).

Definition throw {A} (msg : JS.str) : M A := fun w => (w, JS.Throw msg).

Definition bind {A B} (c : M A) (k : A -> M B) : M B :=
  fun w =>
    match c w with
    | (w1, JS.Normal a) => k a w1
    | (w1, JS.Throw msg) => (w1, JS.Throw msg)
    end.

Notation "x <- c ;; k" := (bind c (fun x => k))
  (at level 62, c at next level, right associativity).
Notation "c ;;; k" := (bind c (fun _ => k))
  (at level 62, right associativity).

Definition set_typingState (s : option TypingIndicatorState) : M unit :=
  fun w => ({| typingState := s; currentStream := currentStream w;
               trace := trace w |}, JS.Normal tt).

Definition set_currentStream (s : option Stream.FeishuStream) : M unit :=
  fun w => ({| typingState := typingState w; currentStream := s;
               trace := trace w |}, JS.Normal tt).

(** [for (const x of l) { await body(x) }] *)
Fixpoint forEach {A} (l : list A) (body : A -> M unit) : M unit :=
  match l with
  | [] => ret tt
  | x :: l' => body x ;;; forEach l' body
  end.

(** Modelled from the spec: the text helpers of the plugin runtime
    ([core.channel.text], resolved from the host SDK), "splits text into
    an ordered sequence of segments under a size limit and a chunking
    mode". *)
Class TextRuntime : Type := {
  ChunkMode : Type;
  TableMode : Type;
  chunkTextWithMode : JS.str -> Z -> ChunkMode -> list JS.str;
  convertMarkdownTables : JS.str -> TableMode -> JS.str;
}.

(** What [createFeishuReplyDispatcher] resolves once from its parameters
    and the configuration. *)
Record Params `{TextRuntime} : Type := {
  chatId : JS.str;
  replyToMessageId : option JS.str;
  renderMode : option Render.RenderMode;
  textChunkLimit : Z;
  chunkMode : ChunkMode;
  tableMode : TableMode;
}.

Section Callbacks.
Context `{TextRuntime}.
Variable oracle : Oracle.
Variable params : Params.

(** [try { await op; true } catch { false }]: the operation is started,
    and nothing else of the callback runs until it has settled. *)
Definition settle (op : Op) : M bool :=
  fun w =>
    let ok := oracle (startedCount (trace w)) op in
    ({| typingState := typingState w; currentStream := currentStream w;
        trace := trace w ++ [Started op; Settled op ok] |},
     JS.Normal ok).

(** [await op], where a failed operation throws. *)
Definition await (op : Op) : M unit :=
  ok <- settle op ;;
  if ok then ret tt else throw (JS.lit "Feishu request failed").

(** [stop] of the typing callbacks, over the [removeTypingIndicator] it
    imports. *)
Definition stopWith (removeTypingIndicator : TypingIndicatorState -> M unit)
  : M unit :=
  fun w =>
    match typingState w with
    | None => ret tt w
    | Some st => (removeTypingIndicator st ;;; set_typingState None) w
    end.

(** Modelled from the spec: [removeTypingIndicator] of [typing.ts] (not
    part of the sources). It asks the transport to remove the
    indicator; "removal errors are logged, not retried", and "no error
    from the typing-indicator path is allowed to propagate". *)
Definition removeTypingIndicator (st : TypingIndicatorState) : M unit :=
  _ <- settle (RemoveIndicator st) ;; ret tt.

Definition stop : M unit := stopWith removeTypingIndicator.

(** [await currentStream.finalize(text)], run to completion: the
    synchronous part of [finalize], then each update it issued settles
    and resumes it. *)
Fixpoint settleFinalize (calls : list Stream.NetCall)
    (s : Stream.FeishuStream) : M Stream.FeishuStream :=
  match calls with
  | [] => ret s
  | Stream.UpdateCard mid card :: calls' =>
      ok <- settle (UpdateCard mid card) ;;
      settleFinalize calls' (Stream.finalizeSettles ok s)
  | Stream.SendCard _ :: calls' => settleFinalize calls' s
  end.

Definition finalizeStream (s : Stream.FeishuStream) (text : JS.str)
  : M Stream.FeishuStream :=
  let '(s1, calls) := Stream.finalize text s in settleFinalize calls s1.

Definition sendChunksAsCards (chunks : list JS.str) : M unit :=
  forEach chunks (fun chunk =>
    await (SendMarkdownCard (chatId params) chunk (replyToMessageId params))).

Definition sendChunksAsText (chunks : list JS.str) : M unit :=
  forEach chunks (fun chunk =>
    await (SendMessage (chatId params) chunk (replyToMessageId params))).

(** [deliver] of the streaming revision of the dispatcher. *)
Definition deliver (payload_text : option JS.str) : M unit :=
  let text := JS.nullish payload_text [] in
  if negb (JS.truthy (JS.trim text)) then ret tt
  else fun w =>
    match currentStream w with
    | Some s =>
        (_ <- finalizeStream s text ;; set_currentStream None) w
    | None =>
        let mode := Render.resolveRenderMode (renderMode params) in
        if Render.useCard mode text then
          sendChunksAsCards
            (chunkTextWithMode text (textChunkLimit params)
               (chunkMode params)) w
        else
          let converted := convertMarkdownTables text (tableMode params) in
          sendChunksAsText
            (chunkTextWithMode converted (textChunkLimit params)
               (chunkMode params)) w
    end.

(** [deliver] of the plain revision ([src/reply-dispatcher.ts]). *)
Definition deliver_plain (payload_text : option JS.str) : M unit :=
  let text := JS.nullish payload_text [] in
  if negb (JS.truthy (JS.trim text)) then ret tt
  else
    let converted := convertMarkdownTables text (tableMode params) in
    sendChunksAsText
      (chunkTextWithMode converted (textChunkLimit params)
         (chunkMode params)).

(** The operation that sends a chunk under a rendering. *)
Definition sendOp (r : Render.Rendering) (chunk : JS.str) : Op :=
  match r with
  | Render.Rich =>
      SendMarkdownCard (chatId params) chunk (replyToMessageId params)
  | Render.Plain =>
      SendMessage (chatId params) chunk (replyToMessageId params)
  end.

(** The segments [deliver] sends for a text, under the rendering it
    selects. *)
Definition segments (text : JS.str) : list JS.str :=
  match Render.selectRender (renderMode params) text with
  | Render.Rich =>
      chunkTextWithMode text (textChunkLimit params) (chunkMode params)
  | Render.Plain =>
      chunkTextWithMode (convertMarkdownTables text (tableMode params))
        (textChunkLimit params) (chunkMode params)
  end.

(** The trace of [chunks] sent one after the other, the first awaited
    operation being number [n]; it ends with the first send that
    fails. *)
Fixpoint sequentialTrace (r : Render.Rendering) (n : nat)
    (chunks : list JS.str) : list TraceEvent :=
  match chunks with
  | [] => []
  | chunk :: rest =>
      let op := sendOp r chunk in
      Started op :: Settled op (oracle n op)
      :: (if oracle n op then sequentialTrace r (S n) rest else [])
  end.

(** The trace of all of [chunks], each send successful. *)
Definition completeTrace (r : Render.Rendering) (chunks : list JS.str)
  : list TraceEvent :=
  flat_map (fun chunk => [Started (sendOp r chunk);
                          Settled (sendOp r chunk) true]) chunks.

(** Delivery as the spec words it: every segment of the text is sent,
    in the original order. *)
Definition sends_every_segment (text : JS.str) (w : World) : Prop :=
  startedOps (trace (fst (deliver (Some text) w)))
  = startedOps (trace w)
    ++ map (sendOp (Render.selectRender (renderMode params) text))
         (segments text).

End Callbacks.

(** The world after a loop of sends that left the trace [t] behind, and
    its completion. *)
Definition afterSends (w : World) (t : list TraceEvent)
  : World * JS.completion unit :=
  ({| typingState := typingState w; currentStream := currentStream w;
      trace := trace w ++ t |},
   if failedIn t then JS.Throw (JS.lit "Feishu request failed")
   else JS.Normal tt).

(** A naive fixed-width runtime, for examples. *)
Fixpoint chunkFixed (fuel : nat) (width : nat) (s : JS.str) : list JS.str :=
  match fuel, s with
  | S fuel', _ :: _ => take width s :: chunkFixed fuel' width (drop width s)
  | _, _ => []
  end.

Definition naiveRuntime : TextRuntime :=
  {| ChunkMode := unit; TableMode := unit;
     chunkTextWithMode := fun text limit _ =>
       chunkFixed (length text) (Z.to_nat limit) text;
     convertMarkdownTables := fun text _ => text |}.

Definition exampleParams : @Params naiveRuntime :=
  {| chatId := JS.lit "oc_1"; replyToMessageId := Some (JS.lit "om_0");
     renderMode := None; textChunkLimit := 5;
     chunkMode := (tt : @ChunkMode naiveRuntime);
     tableMode := (tt : @TableMode naiveRuntime) |}.

Definition idle : World :=
  {| typingState := None; currentStream := None; trace := [] |}.

(** Every operation fails. *)
Definition failing : Oracle := fun _ _ => false.
(** Every operation succeeds. *)
Definition succeeding : Oracle := fun _ _ => true.

End Dispatcher.

(** ** Message queries ([getMessageFeishu] and [listMessagesFeishu] of [send.ts]) *)

Module Send.

Local Unset Elimination Schemes.

(** A value [JSON.parse] returns, over the host's numbers. *)
Inductive JValue (Num : Type) : Type :=
| JNull
| JBool (b : bool)
| JNumber (n : Num)
| JString (s : JS.str)
| JArray (l : list (JValue Num))
| JObject (fields : list (JS.str * JValue Num)).
Arguments JNull {Num}.
Arguments JBool {Num} b.
Arguments JNumber {Num} n.
Arguments JString {Num} s.
Arguments JArray {Num} l.
Arguments JObject {Num} fields.

Local Set Elimination Schemes.

(** An item of [response.data.items], each optional chain flattened:
    [body_content] is [item.body?.content], [sender_id] is
    [item.sender?.id], and so on. *)
Record MessageItem : Type := {
  message_id : option JS.str;
  chat_id : option JS.str;
  msg_type : option JS.str;
  body_content : option JS.str;
  sender_id : option JS.str;
  sender_id_type : option JS.str;
  sender_type : option JS.str;
  create_time : option JS.str;
  deleted : option bool;
}.

(** The answer of [client.im.message.get]. *)
Record GetResponse : Type := {
  get_code : option Z;
  get_msg : option JS.str;
  (** [response.data?.items] *)
  get_items : option (list MessageItem);
}.

(** The request of [client.im.message.list]. *)
Record ListRequest : Type := {
  container_id : JS.str;
  page_size : Z;
  page_token : option JS.str;
  start_time : option JS.str;
  end_time : option JS.str;
  sort_type : JS.str;
}.

(** The answer of [client.im.message.list]. *)
Record ListResponse : Type := {
  list_code : option Z;
  list_msg : option JS.str;
  list_items : option (list MessageItem);
  list_has_more : option bool;
  list_page_token : option JS.str;
}.

(** The part of the SDK client the queries use. A [list] request is
    answered according to the number of [list] requests made before it,
    so that a transport may answer the same request differently over
    time. *)
Record Client : Type := {
  im_message_get : JS.str -> JS.completion GetResponse;
  im_message_list : nat -> ListRequest -> JS.completion ListResponse;
}.

(** Modelled from the spec: what the queries take from outside the
    sources, "transport/client construction and authentication" being an
    external collaborator ([createFeishuClient] of [client.ts]), next to
    the built-ins [JSON.parse] and [parseInt(_, 10)] and the numbers of
    the host. *)
Class Host : Type := {
  Number : Type;
  number_zero : Number;
  number_truthy : Number -> bool;
  JSON_parse : JS.str -> JS.completion (JValue Number);
  parseInt10 : JS.str -> Number;
  FeishuConfig : Type;
  createFeishuClient : FeishuConfig -> Client;
}.

(** [cfg.channels?.feishu] *)
Record ClawdbotConfig `{Host} : Type := {
  channels_feishu : option FeishuConfig;
}.

Record FeishuMessageInfo `{Host} : Type := {
  messageId : JS.str;
  chatId : JS.str;
  senderId : option JS.str;
  senderOpenId : option JS.str;
  content : JValue Number;
  contentType : JS.str;
  createTime : option Number;
}.

Record FeishuHistoryMessage `{Host} : Type := {
  h_messageId : JS.str;
  h_senderId : JS.str;
  h_senderType : JS.str;
  h_content : JValue Number;
  h_contentType : JS.str;
  h_createTime : Number;
  h_deleted : option bool;
}.

Record ListMessagesResult `{Host} : Type := {
  messages : list FeishuHistoryMessage;
  hasMore : bool;
  pageToken : option JS.str;
  total : Z;
}.

(** The outcome of a call whose loop is run with fuel. *)
Inductive Outcome (A : Type) : Type :=
| Returned (a : A)
| Threw (msg : JS.str)
| OutOfFuel.
Arguments Returned {A} a.
Arguments Threw {A} msg.
Arguments OutOfFuel {A}.

Section Queries.
Context `{Host}.

(** Truthiness of a parsed value. *)
Definition truthy (v : JValue Number) : bool :=
  match v with
  | JNull => false
  | JBool b => b
  | JNumber n => number_truthy n
  | JString s => JS.truthy s
  | JArray _ | JObject _ => true
  end.

Fixpoint lookupField (key : JS.str) (fields : list (JS.str * JValue Number))
  : option (JValue Number) :=
  match fields with
  | [] => None
  | (k, v) :: rest => if JS.str_eqb k key then Some v else lookupField key rest
  end.

(** [parsed.text]: a [TypeError] on [null], [undefined] on a value
    without that property. *)
Definition getText (parsed : JValue Number)
  : JS.completion (option (JValue Number)) :=
  match parsed with
  | JNull => JS.Throw (JS.lit "TypeError")
  | JObject fields => JS.Normal (lookupField (JS.lit "text") fields)
  | _ => JS.Normal None
  end.

Definition isType (item : MessageItem) (t : JS.str) : bool :=
  match msg_type item with
  | Some s => JS.str_eqb s t
  | None => false
  end.

(** [item.msg_type === "text" && parsed.text], as the text to use. *)
Definition textOf (item : MessageItem) (parsed : JValue Number)
  : JS.completion (option (JValue Number)) :=
  if isType item (JS.lit "text") then
    JS.andThen (getText parsed) (fun t =>
      JS.Normal (match t with
                 | Some v => if truthy v then Some v else None
                 | None => None
                 end))
  else JS.Normal None.

(** "Parse content based on message type", in [getMessageFeishu]. *)
Definition parseContent (item : MessageItem) : JValue Number :=
  let raw := JS.nullish (body_content item) [] in
  JS.orKeep
    (JS.andThen (JSON_parse raw) (fun parsed =>
     JS.andThen (textOf item parsed) (fun t =>
     JS.Normal (match t with Some v => v | None => JString raw end))))
    (JString raw).

(** [item.create_time ? parseInt(item.create_time, 10) : undefined] *)
Definition parseCreateTime (item : MessageItem) : option Number :=
  match create_time item with
  | Some s => if JS.truthy s then Some (parseInt10 s) else None
  | None => None
  end.

Definition toMessageInfo (messageId0 : JS.str) (item : MessageItem)
  : FeishuMessageInfo :=
  {| messageId := JS.nullish (message_id item) messageId0;
     chatId := JS.nullish (chat_id item) [];
     senderId := sender_id item;
     senderOpenId :=
       match sender_id_type item with
       | Some t => if JS.str_eqb t (JS.lit "open_id") then sender_id item
                   else None
       | None => None
       end;
     content := parseContent item;
     contentType := JS.nullish (msg_type item) (JS.lit "text");
     createTime := parseCreateTime item |}.

(** [response.code !== 0] *)
Definition codeIsZero (code : option Z) : bool :=
  match code with Some c => (c =? 0)%Z | None => false end.

Definition getMessageFeishu (cfg : ClawdbotConfig) (messageId0 : JS.str)
  : JS.completion (option FeishuMessageInfo) :=
  match channels_feishu cfg with
  | None => JS.Throw (JS.lit "Feishu channel not configured")
  | Some feishuCfg =>
      let client := createFeishuClient feishuCfg in
      JS.tryCatch
        (JS.andThen (im_message_get client messageId0) (fun response =>
           if negb (codeIsZero (get_code response)) then JS.Normal None
           else
             match head (JS.nullish (get_items response) []) with
             | None => JS.Normal None
             | Some item => JS.Normal (Some (toMessageInfo messageId0 item))
             end))
        (fun _ => JS.Normal None)
  end.

Definition label (t : JS.str) : option JS.str :=
  if JS.str_eqb t (JS.lit "image") then Some [91; 22270; 29255; 93]%N
  else if JS.str_eqb t (JS.lit "file") then Some [91; 25991; 20214; 93]%N
  else if JS.str_eqb t (JS.lit "audio") then Some [91; 35821; 38899; 93]%N
  else if JS.str_eqb t (JS.lit "video") then Some [91; 35270; 39057; 93]%N
  else if JS.str_eqb t (JS.lit "sticker") then Some [91; 34920; 24773; 93]%N
  else if JS.str_eqb t (JS.lit "interactive")
    then Some [91; 21345; 29255; 28040; 24687; 93]%N
  else if JS.str_eqb t (JS.lit "share_chat")
    then Some [91; 20998; 20139; 32676; 32842; 93]%N
  else if JS.str_eqb t (JS.lit "share_user")
    then Some [91; 20998; 20139; 29992; 25143; 93]%N
  else None.

(** "Parse content based on message type", in [listMessagesFeishu]. *)
Definition parseListContent (item : MessageItem) : JValue Number :=
  let raw := JS.nullish (body_content item) [] in
  JS.orKeep
    (JS.andThen (JSON_parse raw) (fun parsed =>
     JS.andThen (textOf item parsed) (fun t =>
     JS.Normal
       (match t with
        | Some v => v
        | None =>
            match msg_type item with
            | Some ty =>
                match label ty with
                | Some l => JString l
                | None => JString raw
                end
            | None => JString raw
            end
        end))))
    (JString raw).

Definition toHistoryMessage (item : MessageItem) : FeishuHistoryMessage :=
  {| h_messageId := JS.nullish (message_id item) [];
     h_senderId := JS.nullish (sender_id item) [];
     h_senderType := JS.nullish (sender_type item) [];
     h_content := parseListContent item;
     h_contentType := JS.nullish (msg_type item) (JS.lit "text");
     h_createTime := JS.nullish (parseCreateTime item) number_zero;
     h_deleted := deleted item |}.

(** [for (const item of items) { if (messages.length >= count) break;
    ...; messages.push(...) }] *)
Fixpoint pushItems (count : Z) (acc : list FeishuHistoryMessage)
    (items : list MessageItem) : list FeishuHistoryMessage :=
  match items with
  | [] => acc
  | item :: rest =>
      if (count <=? Z.of_nat (length acc))%Z then acc
      else pushItems count (acc ++ [toHistoryMessage item]) rest
  end.

Section Listing.
Variable client : Client.
Variable chatId0 : JS.str.
Variable count : Z.
Variables startTime endTime : option JS.str.
Variable sortType : JS.str.

(** [while (hasMore && messages.length < count) { ... }], one unit
    of fuel for each request; [k] requests were made before. *)
Fixpoint listLoop (fuel : nat) (k : nat)
    (acc : list FeishuHistoryMessage)
    (currentPageToken : option JS.str) (more : bool)
  : Outcome ListMessagesResult :=
  if more && (Z.of_nat (length acc) <? count)%Z then
    match fuel with
    | O => OutOfFuel
    | S fuel' =>
        match
          im_message_list client k
            {| container_id := chatId0;
               page_size := Z.min 50 count;
               page_token := currentPageToken;
               start_time := startTime;
               end_time := endTime;
               sort_type := sortType |}
        with
        | JS.Throw msg => Threw msg
        | JS.Normal response =>
            if negb (codeIsZero (list_code response)) then
              Threw (JS.lit "Feishu list messages failed")
            else
              let acc' :=
                pushItems count acc
                  (JS.nullish (list_items response) []) in
              let token' := list_page_token response in
              let more' :=
                if JS.truthy_opt token'
                then JS.nullish (list_has_more response) false
                else false in
              listLoop fuel' (S k) acc' token' more'
        end
    end
  else
    Returned {| messages := acc; hasMore := more;
                pageToken := currentPageToken;
                total := Z.of_nat (length acc) |}.

End Listing.

Definition listMessagesFeishu (fuel : nat) (cfg : ClawdbotConfig)
    (chatId0 : JS.str) (count : option Z)
    (startTime endTime pageToken0 : option JS.str)
    (sortType : option JS.str) : Outcome ListMessagesResult :=
  match channels_feishu cfg with
  | None => Threw (JS.lit "Feishu channel not configured")
  | Some feishuCfg =>
      listLoop (createFeishuClient feishuCfg) chatId0
        (JS.nullish count 200%Z) startTime endTime
        (JS.nullish sortType (JS.lit "ByCreateTimeDesc"))
        fuel 0 [] pageToken0 true
  end.

(** A transport that answers every [list] request, and never with an
    empty page that announces more. *)
Definition productive (client : Client) : Prop :=
  forall k req,
    exists response,
      im_message_list client k req = JS.Normal response
      /\ list_code response = Some 0%Z
      /\ (JS.nullish (list_items response) [] <> []
          \/ JS.truthy_opt (list_page_token response) = false
          \/ JS.nullish (list_has_more response) false = false).

End Queries.

(** A minimal host for examples: integers as numbers, a [JSON.parse] that
    knows the literal [null] only, and a configuration that is the
    client itself. *)
Definition exampleHost : Host :=
  {| Number := Z; number_zero := 0%Z;
     number_truthy := fun n => negb (n =? 0)%Z;
     JSON_parse := fun s =>
       if JS.str_eqb s (JS.lit "null") then JS.Normal JNull
       else JS.Throw (JS.lit "SyntaxError");
     parseInt10 := fun _ => 0%Z;
     FeishuConfig := Client;
     createFeishuClient := fun c => c |}.

Definition exampleItem : MessageItem :=
  {| message_id := Some (JS.lit "om_7"); chat_id := Some (JS.lit "oc_1");
     msg_type := Some (JS.lit "image"); body_content := Some (JS.lit "null");
     sender_id := Some (JS.lit "ou_3");
     sender_id_type := Some (JS.lit "open_id");
     sender_type := Some (JS.lit "user");
     create_time := Some (JS.lit "1700000000000"); deleted := None |}.

(** A transport whose pages hold two items each and always announce
    more, and whose [get] throws. *)
Definition pagingClient : Client :=
  {| im_message_get := fun _ => JS.Throw (JS.lit "ECONNRESET");
     im_message_list := fun _ _ =>
       JS.Normal {| list_code := Some 0%Z; list_msg := None;
                    list_items := Some [exampleItem; exampleItem];
                    list_has_more := Some true;
                    list_page_token := Some (JS.lit "next") |} |}.

(** A transport whose [get] finds [exampleItem]. *)
Definition answeringClient : Client :=
  {| im_message_get := fun _ =>
       JS.Normal {| get_code := Some 0%Z; get_msg := None;
                    get_items := Some [exampleItem] |};
     im_message_list := fun _ _ => JS.Throw (JS.lit "ECONNRESET") |}.

Definition exampleConfig : @ClawdbotConfig exampleHost :=
  {| channels_feishu := Some (pagingClient : @FeishuConfig exampleHost) |}.

End Send.

(** ** The dispatch of an inbound message ([handleFeishuMessage] of [bot.ts]) *)

Module Bot.

Record HistoryEntry : Type := {
  sender : JS.str;
  body : JS.str;
  timestamp : Z;
  messageId : option JS.str;
}.

(** [Map<string, HistoryEntry[]>] *)
Abbreviation HistoryMap := (gmap JS.str (list HistoryEntry)).

Definition entriesOf (historyMap : HistoryMap) (key : JS.str)
  : list HistoryEntry :=
  JS.nullish (historyMap !! key) [].

(** Modelled from the spec: [recordPendingHistoryEntryIfEnabled] of the
    host SDK, "appends [entry]; if resulting size > [limit], evicts oldest
    entries until size == [limit]. No-op if [limit <= 0]". *)
Definition recordPendingHistoryEntryIfEnabled (historyMap : HistoryMap)
    (historyKey : JS.str) (limit : Z) (entry : HistoryEntry) : HistoryMap :=
  if (limit <=? 0)%Z then historyMap
  else
    let entries := entriesOf historyMap historyKey ++ [entry] in
    <[historyKey := drop (length entries - Z.to_nat limit) entries]> historyMap.

(** Modelled from the spec: [buildPendingHistoryContextFromMap] of the
    host SDK, "renders all buffered entries for [key] (oldest first)
    through [formatEntry], concatenates them ahead of [currentMessage],
    and returns the combined text; does not mutate the buffer". *)
Definition buildPendingHistoryContextFromMap (historyMap : HistoryMap)
    (historyKey : JS.str) (limit : Z) (currentMessage : JS.str)
    (formatEntry : HistoryEntry -> JS.str) : JS.str :=
  concat (map formatEntry (entriesOf historyMap historyKey)) ++ currentMessage.

(** Modelled from the spec: [clearHistoryEntriesIfEnabled] of the host
    SDK, "empties the buffer for [key] if [limit > 0]". *)
Definition clearHistoryEntriesIfEnabled (historyMap : HistoryMap)
    (historyKey : JS.str) (limit : Z) : HistoryMap :=
  if (0 <? limit)%Z then <[historyKey := []]> historyMap else historyMap.

(** The [FeishuMessageContext] that [parseFeishuMessageEvent] builds;
    [isGroup] is [ctx.chatType === "group"]. *)
Record FeishuMessageContext : Type := {
  chatId : JS.str;
  ctx_messageId : JS.str;
  senderOpenId : JS.str;
  isGroup : bool;
  mentionedBot : bool;
  parentId : option JS.str;
  content : JS.str;
  contentType : JS.str;
}.

(** The verdicts of the policy module for this message: the group is
    allowed, the sender passes the group's own allow-list, the group
    requires a mention, the sender passes the direct-message policy. *)
Record PolicyVerdict : Type := {
  groupAllowed : bool;
  senderAllowed : bool;
  requireMention : bool;
  dmAllowed : bool;
}.

(** What the turn obtains from its collaborators (route resolution, the
    queries of [send.ts], the media module, the agent runtime), each
    with the outcome it has in this turn. *)
Record Collaborators : Type := {
  (** [core.channel.routing.resolveAgentRoute] *)
  resolveAgentRoute : JS.completion unit;
  (** [getMessageFeishu], as the content of the quoted message *)
  getMessageFeishu : JS.str -> JS.completion (option JS.str);
  (** [JSON.parse(ctx.content).file_key] *)
  audioFileKey : JS.completion (option JS.str);
  (** [downloadAndTranscribeVoice] *)
  downloadAndTranscribeVoice : JS.str -> JS.completion JS.str;
  (** [isHistoryRequest(ctx.content)] *)
  isHistoryRequest : bool;
  (** [fetchChatHistoryForAgent], as the total (rendered) and the
      formatted history *)
  fetchChatHistoryForAgent : JS.completion (JS.str * JS.str);
  (** [core.channel.reply.formatAgentEnvelope], of [from], [timestamp]
      and [body] *)
  formatAgentEnvelope : JS.str -> Z -> JS.str -> JS.str;
  (** [core.channel.reply.dispatchReplyFromConfig], of the body of the
      context payload *)
  dispatchReplyFromConfig : JS.str -> JS.completion unit;
}.

(** What a turn does, in order. *)
Inductive TurnEvent : Type :=
| RecordHistory (key : JS.str)
| FetchQuoted (parent : JS.str)
| TranscribeVoice (fileKey : JS.str)
| FetchHistory
| ComposeReplay (key : JS.str)
| Dispatch (body : JS.str)
| ClearHistory (key : JS.str).

(** The fetches made on behalf of the inbound message. *)
Definition isInboundFetch (e : TurnEvent) : bool :=
  match e with
  | FetchQuoted _ | TranscribeVoice _ | FetchHistory => true
  | _ => false
  end.

(** The events that call the network. *)
Definition isNetworkCall (e : TurnEvent) : bool :=
  match e with
  | FetchQuoted _ | TranscribeVoice _ | FetchHistory | Dispatch _ => true
  | RecordHistory _ | ComposeReplay _ | ClearHistory _ => false
  end.

(** [Math.max(0, feishuCfg?.historyLimit ??
    cfg.messages?.groupChat?.historyLimit ?? DEFAULT_GROUP_HISTORY_LIMIT)] *)
Definition historyLimitOf (DEFAULT_GROUP_HISTORY_LIMIT : Z)
    (feishuLimit groupChatLimit : option Z) : Z :=
  Z.max 0 (JS.nullish feishuLimit
             (JS.nullish groupChatLimit DEFAULT_GROUP_HISTORY_LIMIT)).

Section Turn.
Variable env : Collaborators.
Variable verdict : PolicyVerdict.
Variable historyLimit : Z.
(** [Date.now()] *)
Variable now : Z.
Variable ctx : FeishuMessageContext.

(** "Fetch quoted/replied message content if parentId exists" *)
Definition fetchQuoted : JS.str * list TurnEvent :=
  match parentId ctx with
  | Some parent =>
      if JS.truthy parent then
        (match getMessageFeishu env parent with
         | JS.Normal (Some quoted) => quoted
         | _ => []
         end, [FetchQuoted parent])
      else ([], [])
  | None => ([], [])
  end.

(** "Handle voice messages - download and transcribe" *)
Definition transcribe : JS.str * list TurnEvent :=
  if JS.str_eqb (contentType ctx) (JS.lit "audio") then
    match audioFileKey env with
    | JS.Normal (Some fileKey) =>
        if JS.truthy fileKey then
          (JS.orKeep (downloadAndTranscribeVoice env fileKey) [],
           [TranscribeVoice fileKey])
        else ([], [])
    | _ => ([], [])
    end
  else ([], []).

(** "Check if user is requesting chat history" *)
Definition fetchHistoryContext : JS.str * list TurnEvent :=
  if isGroup ctx && isHistoryRequest env then
    (match fetchChatHistoryForAgent env with
     | JS.Normal (shown, formatted) =>
         if JS.truthy formatted then
           [10; 10; 45; 45; 45; 32; 32676; 32842; 21382; 21490; 35760;
            24405; 32; 40; 26368; 36817; 32]%N
           ++ shown
           ++ [32; 26465; 28040; 24687; 41; 32; 45; 45; 45; 10]%N
           ++ formatted
           ++ [10; 45; 45; 45; 32; 21382; 21490; 35760; 24405; 32467;
               26463; 32; 45; 45; 45; 10; 10]%N
         else []
     | JS.Throw _ => []
     end, [FetchHistory])
  else ([], []).

(** "Build message body with quoted content if available" *)
Definition messageBodyOf (voiceTranscription quotedContent : JS.str)
  : JS.str :=
  let b0 := content ctx in
  let b1 :=
    if JS.truthy voiceTranscription then
      [91; 35821; 38899; 36716; 20889; 93; 58; 32]%N
      ++ voiceTranscription ++ [10; 10]%N ++ content ctx
    else b0 in
  if JS.truthy quotedContent then
    [91; 82; 101; 112; 108; 121; 105; 110; 103; 32; 116; 111; 58; 32; 34]%N
    ++ quotedContent ++ [34; 93; 10; 10]%N ++ b1
  else b1.

(** The [formatEntry] closure of the replay. *)
Definition formatEntry (entry : HistoryEntry) : JS.str :=
  formatAgentEnvelope env (chatId ctx) (timestamp entry)
    (sender entry ++ [58; 32]%N ++ body entry).

(** [isGroup && historyKey && chatHistories], as the map to use. *)
Definition replayMap (chatHistories : option HistoryMap)
  : option HistoryMap :=
  if isGroup ctx && JS.truthy (chatId ctx) then chatHistories else None.

(** The body of the [try] block: the turn once the message is admitted.
    An exception anywhere in it is caught and logged by the enclosing
    [catch]; [markDispatchIdle()], between the dispatch and the clearing,
    only flags the dispatcher idle. *)
Definition dispatchTurn (chatHistories : option HistoryMap)
  : option HistoryMap * list TurnEvent :=
  match resolveAgentRoute env with
  | JS.Throw _ => (chatHistories, [])
  | JS.Normal _ =>
      let '(quotedContent, t1) := fetchQuoted in
      let '(voiceTranscription, t2) := transcribe in
      let messageBody0 := messageBodyOf voiceTranscription quotedContent in
      let '(historyContext, t3) := fetchHistoryContext in
      let messageBody := historyContext ++ messageBody0 in
      let body :=
        formatAgentEnvelope env
          (if isGroup ctx then chatId ctx else senderOpenId ctx)
          now messageBody in
      let '(combinedBody, t4) :=
        match replayMap chatHistories with
        | Some historyMap =>
            (buildPendingHistoryContextFromMap historyMap (chatId ctx)
               historyLimit body formatEntry,
             [ComposeReplay (chatId ctx)])
        | None => (body, [])
        end in
      let t := t1 ++ t2 ++ t3 ++ t4 ++ [Dispatch combinedBody] in
      match dispatchReplyFromConfig env combinedBody with
      | JS.Throw _ => (chatHistories, t)
      | JS.Normal _ =>
          match replayMap chatHistories with
          | Some historyMap =>
              (Some (clearHistoryEntriesIfEnabled historyMap (chatId ctx)
                       historyLimit),
               t ++ [ClearHistory (chatId ctx)])
          | None => (chatHistories, t)
          end
      end
  end.

(** The message recorded while the bot is not mentioned. *)
Definition suppressedEntry : HistoryEntry :=
  {| sender := senderOpenId ctx; body := content ctx; timestamp := now;
     messageId := Some (ctx_messageId ctx) |}.

Definition handleFeishuMessage (chatHistories : option HistoryMap)
  : option HistoryMap * list TurnEvent :=
  if isGroup ctx then
    if negb (groupAllowed verdict) then (chatHistories, [])
    else if negb (senderAllowed verdict) then (chatHistories, [])
    else if requireMention verdict && negb (mentionedBot ctx) then
      match chatHistories with
      | Some historyMap =>
          (Some (recordPendingHistoryEntryIfEnabled historyMap (chatId ctx)
                   historyLimit suppressedEntry),
           [RecordHistory (chatId ctx)])
      | None => (None, [])
      end
    else dispatchTurn chatHistories
  else
    if negb (dmAllowed verdict) then (chatHistories, [])
    else dispatchTurn chatHistories.

(** The replay as the spec words it: the prefix is composed into the
    body before the first network call of the turn. *)
Definition replay_precedes_network (chatHistories : option HistoryMap)
  : Prop :=
  forall before after,
    snd (handleFeishuMessage chatHistories)
    = before ++ [ComposeReplay (chatId ctx)] ++ after ->
    Forall (fun e => isNetworkCall e = false) before.

End Turn.

(** A turn in which every collaborator succeeds and nothing is fetched. *)
Definition quietEnv : Collaborators :=
  {| resolveAgentRoute := JS.Normal tt;
     getMessageFeishu := fun _ => JS.Normal (Some (JS.lit "earlier"));
     audioFileKey := JS.Normal None;
     downloadAndTranscribeVoice := fun _ => JS.Normal [];
     isHistoryRequest := false;
     fetchChatHistoryForAgent := JS.Normal ([], []);
     formatAgentEnvelope := fun from _ b => JS.lit "[" ++ from ++ JS.lit "] " ++ b;
     dispatchReplyFromConfig := fun _ => JS.Normal tt |}.

(** The same turn with a dispatch that fails. *)
Definition failingEnv : Collaborators :=
  {| resolveAgentRoute := JS.Normal tt;
     getMessageFeishu := fun _ => JS.Normal (Some (JS.lit "earlier"));
     audioFileKey := JS.Normal None;
     downloadAndTranscribeVoice := fun _ => JS.Normal [];
     isHistoryRequest := false;
     fetchChatHistoryForAgent := JS.Normal ([], []);
     formatAgentEnvelope := fun from _ b => JS.lit "[" ++ from ++ JS.lit "] " ++ b;
     dispatchReplyFromConfig := fun _ => JS.Throw (JS.lit "agent failed") |}.

Definition openVerdict : PolicyVerdict :=
  {| groupAllowed := true; senderAllowed := true; requireMention := true;
     dmAllowed := true |}.

(** A group message that mentions the bot. *)
Definition mention : FeishuMessageContext :=
  {| chatId := JS.lit "g1"; ctx_messageId := JS.lit "om_9";
     senderOpenId := JS.lit "ou_3"; isGroup := true; mentionedBot := true;
     parentId := None; content := JS.lit "hi"; contentType := JS.lit "text" |}.

(** The same message, sent as a reply to an earlier one. *)
Definition mentionInReply : FeishuMessageContext :=
  {| chatId := JS.lit "g1"; ctx_messageId := JS.lit "om_9";
     senderOpenId := JS.lit "ou_3"; isGroup := true; mentionedBot := true;
     parentId := Some (JS.lit "om_5"); content := JS.lit "hi";
     contentType := JS.lit "text" |}.

Definition oneSuppressed : HistoryMap :=
  {[ JS.lit "g1" := [{| sender := JS.lit "ou_2"; body := JS.lit "psst";
                        timestamp := 5; messageId := Some (JS.lit "om_8") |}] ]}.

End Bot.

(** ** Invariants of the streaming card controller *)

Module StreamInvariants.
Import Stream.

(** A transition that keeps the finalized flag set and calls nothing. *)
Definition stays_silent (r : FeishuStream * list NetCall) : Prop :=
  isFinalized (fst r) = true /\ snd r = [].

(** The calls of a transition are in-progress updates of the live message
    of [m]. *)
Definition updates_live (m : FeishuStream) (calls : list NetCall) : Prop :=
  forall call, In call calls ->
    exists mid c,
      liveId m = Some mid
      /\ call = UpdateCard mid (createSimpleTextCard c true).

(** The message id a settled creation records. *)
Definition createdId (e : Event) : option JS.str :=
  match e with
  | CreateSettles (JS.Normal mid) _ => if JS.truthy mid then Some mid else None
  | _ => None
  end.

End StreamInvariants.

(** ** The typing callbacks: [start], in both revisions *)

Module Typing.
Import Dispatcher.

Section Start.
Context `{TextRuntime}.
Variable params : Params.
(** [addTypingIndicator] of [typing.ts], whatever it does: it is given
    the message to mark and returns the indicator state, or throws. *)
Variable addTypingIndicator : JS.str -> M TypingIndicatorState.

(** [currentStream?.getMessageId()], as a condition. *)
Definition streamHasMessage (w : World) : bool :=
  match currentStream w with
  | Some s => JS.truthy_opt (Stream.messageId s)
  | None => false
  end.

(** The tail of [start] shared by the two revisions. *)
Definition startTail : M unit :=
  fun w =>
    match replyToMessageId params with
    | Some target =>
        if JS.truthy target then
          match typingState w with
          | Some _ => ret tt w
          | None =>
              bind (addTypingIndicator target)
                (fun st => set_typingState (Some st)) w
          end
        else ret tt w
    | None => ret tt w
    end.

(** [start] of the streaming revision. *)
Definition start : M unit :=
  fun w => if streamHasMessage w then ret tt w else startTail w.

(** [start] of the plain revision ([src/reply-dispatcher.ts]). *)
Definition start_plain : M unit := startTail.

End Start.

(** An [addTypingIndicator] that records a fixed marker. *)
Definition markingIndicator (target : JS.str) : M TypingIndicatorState :=
  ret {| ti_target := target; ti_marker := JS.lit "r_1" |}.

End Typing.

(** ** Readings of the turn's properties *)

Module BotSpec.
Import Bot.

(** The message passes the policy gate of [handleFeishuMessage]: in a group,
    the group and the sender are allowed and the bot is mentioned where a
    mention is required; in a direct message, the sender is allowed. *)
Definition admitted (verdict : PolicyVerdict) (ctx : FeishuMessageContext)
  : bool :=
  if isGroup ctx then
    groupAllowed verdict && senderAllowed verdict
    && negb (requireMention verdict && negb (mentionedBot ctx))
  else dmAllowed verdict.

Definition isDispatch (e : TurnEvent) : bool :=
  match e with Dispatch _ => true | _ => false end.

(** The events that read or write the pending history of a group. *)
Definition touchesHistory (e : TurnEvent) : bool :=
  match e with
  | RecordHistory _ | ComposeReplay _ | ClearHistory _ | FetchHistory => true
  | _ => false
  end.

(** A direct message that is a reply to an earlier message. *)
Definition directReply : FeishuMessageContext :=
  {| chatId := JS.lit "oc_dm"; ctx_messageId := JS.lit "om_9";
     senderOpenId := JS.lit "ou_3"; isGroup := false; mentionedBot := false;
     parentId := Some (JS.lit "om_5"); content := JS.lit "hi";
     contentType := JS.lit "text" |}.

End BotSpec.

(** ** Outbound messages ([sendMessageFeishu], [sendCardFeishu],
    [updateCardFeishu], [sendMarkdownCardFeishu] and [editMessageFeishu] of
    [send.ts])

    Each function returns the requests it made to the transport, oldest
    first, next to its completion. *)

Module Outbound.

(** The requests of [client.im.message]. *)
Inductive Request : Type :=
| Reply (message_id content msg_type : JS.str)
| Create (receive_id_type receive_id content msg_type : JS.str)
| Patch (message_id content : JS.str)
| Update (message_id msg_type content : JS.str).

(** The answer to a request; [data_message_id] is
    [response.data?.message_id]. *)
Record Response : Type := {
  code : option Z;
  msg : option JS.str;
  data_message_id : option JS.str;
}.

Record FeishuSendResult : Type := {
  messageId : JS.str;
  chatId : JS.str;
}.

(** The cards the plugin builds: [buildMarkdownCard(text)], with its
    [config.wide_screen_mode] and the content of its markdown element, and
    [createSimpleTextCard]. *)
Inductive CardJson : Type :=
| MarkdownCard (wide_screen_mode : bool) (content : JS.str)
| SimpleTextCard (card : Stream.Card).

(** Modelled from the spec: what the outbound functions take from outside
    the sources, "transport/client construction and authentication" being
    an external collaborator: the client of a configuration
    ([createFeishuClient] of [client.ts]) as the answer it gives to each
    request, the target helpers of [targets.ts], the table conversion of
    the plugin runtime under the resolved table mode, and [JSON.stringify]
    on the two shapes it is applied to. *)
Class Env : Type := {
  FeishuConfig : Type;
  transport : FeishuConfig -> Request -> JS.completion Response;
  normalizeFeishuTarget : JS.str -> option JS.str;
  resolveReceiveIdType : JS.str -> JS.str;
  convertMarkdownTables : JS.str -> JS.str;
  stringifyText : JS.str -> JS.str;
  stringifyCard : CardJson -> JS.str;
  (** [`${response.code}`] *)
  showCode : option Z -> JS.str;
}.

Section Functions.
Context `{Env}.

(** [cfg.channels?.feishu] *)
Variable feishuCfg : option FeishuConfig.

Definition notConfigured {A} : list Request * JS.completion A :=
  ([], JS.Throw (JS.lit "Feishu channel not configured")).

(** [response.code !== 0] *)
Definition failed (response : Response) : bool :=
  match code response with Some c => negb (c =? 0)%Z | None => true end.

(** [`<label>: ${response.msg || `code ${response.code}`}`] *)
Definition failure (label : JS.str) (response : Response) : JS.str :=
  label ++ JS.lit ": "
  ++ (if JS.truthy_opt (msg response) then JS.nullish (msg response) []
      else JS.lit "code " ++ showCode (code response)).

(** One awaited request, and what follows its answer. *)
Definition request {A} (client : Request -> JS.completion Response)
    (req : Request) (label : JS.str) (k : Response -> A)
  : list Request * JS.completion A :=
  ([req],
   match client req with
   | JS.Throw m => JS.Throw m
   | JS.Normal response =>
       if failed response then JS.Throw (failure label response)
       else JS.Normal (k response)
   end).

Definition sent (receiveId : JS.str) (response : Response) : FeishuSendResult :=
  {| messageId := JS.nullish (data_message_id response) (JS.lit "unknown");
     chatId := receiveId |}.

Definition sendMessageFeishu (to text : JS.str)
    (replyToMessageId : option JS.str)
  : list Request * JS.completion FeishuSendResult :=
  match feishuCfg with
  | None => notConfigured
  | Some cfg =>
      let receiveId := JS.nullish (normalizeFeishuTarget to) [] in
      if negb (JS.truthy receiveId) then
        ([], JS.Throw (JS.lit "Invalid Feishu target: " ++ to))
      else
        let receiveIdType := resolveReceiveIdType receiveId in
        let content := stringifyText (convertMarkdownTables text) in
        if JS.truthy_opt replyToMessageId then
          request (transport cfg)
            (Reply (JS.nullish replyToMessageId []) content (JS.lit "text"))
            (JS.lit "Feishu reply failed") (sent receiveId)
        else
          request (transport cfg)
            (Create receiveIdType receiveId content (JS.lit "text"))
            (JS.lit "Feishu send failed") (sent receiveId)
  end.

Definition sendCardFeishu (to : JS.str) (card : CardJson)
    (replyToMessageId : option JS.str)
  : list Request * JS.completion FeishuSendResult :=
  match feishuCfg with
  | None => notConfigured
  | Some cfg =>
      let receiveId := JS.nullish (normalizeFeishuTarget to) [] in
      if negb (JS.truthy receiveId) then
        ([], JS.Throw (JS.lit "Invalid Feishu target: " ++ to))
      else
        let receiveIdType := resolveReceiveIdType receiveId in
        let content := stringifyCard card in
        if JS.truthy_opt replyToMessageId then
          request (transport cfg)
            (Reply (JS.nullish replyToMessageId []) content
               (JS.lit "interactive"))
            (JS.lit "Feishu card reply failed") (sent receiveId)
        else
          request (transport cfg)
            (Create receiveIdType receiveId content (JS.lit "interactive"))
            (JS.lit "Feishu card send failed") (sent receiveId)
  end.

Definition updateCardFeishu (messageId0 : JS.str) (card : CardJson)
  : list Request * JS.completion unit :=
  match feishuCfg with
  | None => notConfigured
  | Some cfg =>
      request (transport cfg) (Patch messageId0 (stringifyCard card))
        (JS.lit "Feishu card update failed") (fun _ => tt)
  end.

Definition buildMarkdownCard (text : JS.str) : CardJson :=
  MarkdownCard true text.

Definition sendMarkdownCardFeishu (to text : JS.str)
    (replyToMessageId : option JS.str)
  : list Request * JS.completion FeishuSendResult :=
  sendCardFeishu to (buildMarkdownCard text) replyToMessageId.

Definition editMessageFeishu (messageId0 text : JS.str)
  : list Request * JS.completion unit :=
  match feishuCfg with
  | None => notConfigured
  | Some cfg =>
      request (transport cfg)
        (Update messageId0 (JS.lit "text")
           (stringifyText (convertMarkdownTables text)))
        (JS.lit "Feishu message edit failed") (fun _ => tt)
  end.

(** A call that made at most one request, none without a configuration,
    and that returns normally only when that request was answered with
    code 0. *)
Definition disciplined {A} (r : list Request * JS.completion A) : Prop :=
  (length (fst r) <= 1)%nat
  /\ (feishuCfg = None ->
      r = ([], JS.Throw (JS.lit "Feishu channel not configured")))
  /\ (forall a, snd r = JS.Normal a ->
        exists cfg req response,
          feishuCfg = Some cfg /\ fst r = [req]
          /\ transport cfg req = JS.Normal response
          /\ code response = Some 0%Z).

End Functions.

(** An environment whose transport echoes the target of a request as the
    id of the new message, for examples. *)
Definition echoEnv : Env :=
  {| FeishuConfig := unit;
     transport := fun _ req =>
       JS.Normal {| code := Some 0%Z; msg := None;
                    data_message_id :=
                      match req with
                      | Reply m _ _ => Some m
                      | Create _ r _ _ => Some r
                      | Patch m _ | Update m _ _ => Some m
                      end |};
     normalizeFeishuTarget := fun to =>
       if JS.truthy to then Some to else None;
     resolveReceiveIdType := fun _ => JS.lit "chat_id";
     convertMarkdownTables := fun text => text;
     stringifyText := fun text => text;
     stringifyCard := fun card =>
       match card with
       | MarkdownCard _ c => c
       | SimpleTextCard c => Stream.markdown c
       end;
     showCode := fun _ => JS.lit "?" |}.

End Outbound.

(** ** Patterns with a capturing group ([String.prototype.match])

    The matcher follows the continuation semantics of ECMAScript: a
    pattern is run on the rest of the input with the current capture and a
    continuation for what follows it; a greedy quantifier tries one more
    iteration before it tries the continuation, and an iteration that
    consumes nothing is rejected. The patterns of [extractHistoryCount] have
    one group and no quantifier inside a quantifier. *)

Module Capture.

Inductive pat : Type :=
| PEps
| PChr (p : JS.char -> bool)
| PCat (a b : pat)
| PStar (a : pat)
| PGroup (a : pat).

Section Run.
Context {R : Type}.

Definition Cont : Type := JS.str -> option JS.str -> option R.

(** A greedy quantifier never needs more iterations than the input has
    code units, so it is given the length of its input as fuel. *)
Fixpoint run (r : pat) : JS.str -> option JS.str -> Cont -> option R :=
  match r with
  | PEps => fun s c k => k s c
  | PChr p => fun s c k =>
      match s with
      | x :: s' => if p x then k s' c else None
      | [] => None
      end
  | PCat a b => fun s c k => run a s c (fun s' c' => run b s' c' k)
  | PGroup a => fun s c k =>
      run a s c (fun s' _ => k s' (Some (take (length s - length s') s)))
  | PStar a => fun s c k =>
      (fix star (n : nat) (s : JS.str) (c : option JS.str) : option R :=
         match n with
         | O => k s c
         | S n' =>
             match
               run a s c (fun s' c' =>
                 if (length s' <? length s)%nat then star n' s' c' else None)
             with
             | Some res => Some res
             | None => k s c
             end
         end) (length s) s c
  end.

End Run.

(** [s.match(r)?.[1]] for a pattern without the global flag: the capture
    of the first match, trying the start indices in order. The outer
    [option] tells whether there is a match. *)
Fixpoint exec (r : pat) (s : JS.str) : option (option JS.str) :=
  match run r s None (fun _ c => Some c) with
  | Some c => Some c
  | None =>
      match s with
      | [] => None
      | _ :: s' => exec r s'
      end
  end.

(** What it means for a pattern to match [m], turning the capture [c]
    into [c']. *)
Inductive Match : pat -> JS.str -> option JS.str -> option JS.str -> Prop :=
| match_eps c : Match PEps [] c c
| match_chr p x c : p x = true -> Match (PChr p) [x] c c
| match_cat a b m1 m2 c c1 c2 :
    Match a m1 c c1 -> Match b m2 c1 c2 -> Match (PCat a b) (m1 ++ m2) c c2
| match_group a m c c1 : Match a m c c1 -> Match (PGroup a) m c (Some m)
| match_star_nil a c : Match (PStar a) [] c c
| match_star_app a m1 m2 c c1 c2 :
    Match a m1 c c1 -> Match (PStar a) m2 c1 c2 ->
    Match (PStar a) (m1 ++ m2) c c2.

(** Pattern syntax. *)
Definition plus (a : pat) : pat := PCat a (PStar a).
Fixpoint word (w : JS.str) : pat :=
  match w with
  | [] => PEps
  | x :: w' => PCat (PChr (N.eqb x)) (word w')
  end.

(** [\d] *)
Definition isDigit (x : JS.char) : bool := ((48 <=? x) && (x <=? 57))%N.

(** A lower-case ASCII letter under the [i] flag: the letter or its
    upper-case form. *)
Definition letterI (l : JS.char) : pat :=
  PChr (fun x => (x =? l) || (x =? l - 32))%N.

Fixpoint wordI (w : JS.str) : pat :=
  match w with
  | [] => PEps
  | l :: w' => PCat (letterI l) (wordI w')
  end.

(** [\s*] *)
Definition spaces : pat := PStar (PChr JS.isTrimmable).
(** [(\d+)] *)
Definition number : pat := PGroup (plus (PChr isDigit)).

End Capture.

(** ** History requests ([extractHistoryCount] and
    [fetchChatHistoryForAgent] of [bot.ts]) *)

Module History.
Import Capture.

(** The patterns of [extractHistoryCount], in order. *)
Definition patterns : list pat :=
  [ (* /最近\s*(\d+)\s*条/ *)
    PCat (word [26368; 36817]%N)
      (PCat spaces (PCat number (PCat spaces (word [26465]%N))));
    (* /(\d+)\s*条消息/ *)
    PCat number (PCat spaces (word [26465; 28040; 24687]%N));
    (* /(\d+)\s*条记录/ *)
    PCat number (PCat spaces (word [26465; 35760; 24405]%N));
    (* /last\s*(\d+)/i *)
    PCat (wordI (JS.lit "last")) (PCat spaces number);
    (* /(\d+)\s*messages/i *)
    PCat number (PCat spaces (wordI (JS.lit "messages")));
    (* /获取\s*(\d+)/ *)
    PCat (word [33719; 21462]%N) (PCat spaces number);
    (* /读取\s*(\d+)/ *)
    PCat (word [35835; 21462]%N) (PCat spaces number) ].

(** [parseInt(digits, 10)] on a string of decimal digits. The result is
    only compared with 0 and 1000 and returned when it is at most 1000,
    where the number of JavaScript is the integer itself. *)
Definition parseDigits (digits : JS.str) : Z :=
  fold_left (fun acc x => (10 * acc + (Z.of_N x - 48))%Z) digits 0%Z.

(** [for (const pattern of patterns) { ... }] *)
Fixpoint firstCount (ps : list pat) (content : JS.str) : option Z :=
  match ps with
  | [] => None
  | p :: ps' =>
      match exec p content with
      | Some (Some digits) =>
          if JS.truthy digits then
            let num := parseDigits digits in
            if (0 <? num)%Z && (num <=? 1000)%Z then Some num
            else firstCount ps' content
          else firstCount ps' content
      | _ => firstCount ps' content
      end
  end.

Definition extractHistoryCount (content : JS.str) : Z :=
  JS.nullish (firstCount patterns content) 200%Z.

Import Send.

Record ChatHistoryResult `{Host} : Type := {
  h_messages : list FeishuHistoryMessage;
  h_total : Z;
  formatted : JS.str;
}.

Section Fetch.
Context `{Host}.
(** [new Date(createTime).toLocaleString("zh-CN", ...)] *)
Variable formatTime : Number -> JS.str.

(** [!msg.deleted && msg.content.trim()], a [TypeError] when the content
    is not a string and so has no [trim]. *)
Definition kept (message : FeishuHistoryMessage) : JS.completion bool :=
  if JS.nullish (h_deleted message) false then JS.Normal false
  else
    match h_content message with
    | JString s => JS.Normal (JS.truthy (JS.trim s))
    | _ => JS.Throw (JS.lit "TypeError: msg.content.trim is not a function")
    end.

(** [list.filter(kept)] *)
Fixpoint keep (l : list FeishuHistoryMessage)
  : JS.completion (list FeishuHistoryMessage) :=
  match l with
  | [] => JS.Normal []
  | message :: rest =>
      JS.andThen (kept message) (fun b =>
      JS.andThen (keep rest) (fun rest' =>
      JS.Normal (if b then message :: rest' else rest')))
  end.

(** The text of a kept message, a string. *)
Definition contentText (message : FeishuHistoryMessage) : JS.str :=
  match h_content message with
  | JString s => s
  | _ => []
  end.

(** [`[${time}] ${sender}: ${msg.content}`] *)
Definition line (message : FeishuHistoryMessage) : JS.str :=
  let sender :=
    if JS.str_eqb (h_senderType message) (JS.lit "app") then JS.lit "[Bot]"
    else h_senderId message in
  JS.lit "[" ++ formatTime (h_createTime message) ++ JS.lit "] "
  ++ sender ++ JS.lit ": " ++ contentText message.

(** [lines.join("\n")] *)
Fixpoint join (lines : list JS.str) : JS.str :=
  match lines with
  | [] => []
  | [l] => l
  | l :: rest => l ++ [10%N] ++ join rest
  end.

Definition fetchChatHistoryForAgent (fuel : nat) (cfg : ClawdbotConfig)
    (chatId0 requestContent : JS.str) : Outcome ChatHistoryResult :=
  let count := extractHistoryCount requestContent in
  match
    listMessagesFeishu fuel cfg chatId0 (Some count) None None None
      (Some (JS.lit "ByCreateTimeDesc"))
  with
  | Returned result =>
      let chronologicalMessages := rev (messages result) in
      match keep chronologicalMessages with
      | JS.Normal keptMessages =>
          Returned {| h_messages := messages result;
                      h_total := total result;
                      formatted := join (map line keptMessages) |}
      | JS.Throw msg => Threw msg
      end
  | Threw msg => Threw msg
  | OutOfFuel => OutOfFuel
  end.

End Fetch.

End History.

(** ** What is stated about history requests *)

Module HistorySpec.
Import Capture Send History.

(** Every group of the pattern is [(\d+)]. *)
Fixpoint digitGroups (r : pat) : Prop :=
  match r with
  | PGroup a => a = plus (PChr isDigit)
  | PCat a b => digitGroups a /\ digitGroups b
  | PStar a => digitGroups a
  | PEps | PChr _ => True
  end.

(** A non-empty run of decimal digits inside [m]. *)
Definition digitsIn (g m : JS.str) : Prop :=
  g <> [] /\ Forall (fun x => isDigit x = true) g
  /\ exists pre post, m = pre ++ g ++ post.

Section Messages.
Context `{Host}.

(** A message the formatter can look at: it is deleted, or its content
    is a string. *)
Definition readable (message : FeishuHistoryMessage) : Prop :=
  JS.nullish (h_deleted message) false = true
  \/ exists s, h_content message = JString s.

(** A message that gets a line: not deleted, with a content that is not
    blank. *)
Definition visible (message : FeishuHistoryMessage) : Prop :=
  JS.nullish (h_deleted message) false = false
  /\ exists s, h_content message = JString s /\ JS.trim s <> [].

End Messages.

End HistorySpec.

(** ** Reading an incoming event ([parseMessageContent] and
    [checkBotMentioned] of [bot.ts]) *)

Module Event.
Import Send.

(** An entry of [event.message.mentions]. *)
Record Mention : Type := {
  key : JS.str;
  id_open_id : option JS.str;
  name : JS.str;
}.

Section Content.
Context `{Host}.

(** [parsed.text || ""] *)
Definition textOrEmpty (t : option (JValue Number)) : JValue Number :=
  match t with
  | Some v => if truthy v then v else JString []
  | None => JString []
  end.

Definition parseMessageContent (content messageType : JS.str)
  : JValue Number :=
  JS.orKeep
    (JS.andThen (JSON_parse content) (fun parsed =>
       if JS.str_eqb messageType (JS.lit "text") then
         JS.andThen (getText parsed) (fun t => JS.Normal (textOrEmpty t))
       else JS.Normal (JString content)))
    (JString content).

End Content.

(** [m.id.open_id === botOpenId] *)
Definition mentions_id (botOpenId : JS.str) (m : Mention) : bool :=
  match id_open_id m with
  | Some s => JS.str_eqb s botOpenId
  | None => false
  end.

Definition checkBotMentioned (event_mentions : option (list Mention))
    (botOpenId : option JS.str) : bool :=
  let mentions := JS.nullish event_mentions [] in
  if (length mentions =? 0)%nat then false
  else if negb (JS.truthy_opt botOpenId) then (0 <? length mentions)%nat
  else existsb (mentions_id (JS.nullish botOpenId [])) mentions.

End Event.

(** ** Readings of the queries' properties *)

Module SendSpec.
Import Send.

Section Pages.
Context `{Host}.
Variable client : Client.
Variable chatId0 : JS.str.
Variable count : Z.
Variables startTime endTime : option JS.str.
Variable sortType : JS.str.

(** The items of the pages that [n] successive requests obtain, the first
    being request number [k] with page token [token], each following the
    page token of the previous answer. *)
Fixpoint pagesFrom (n k : nat) (token : option JS.str) : list MessageItem :=
  match n with
  | O => []
  | S n' =>
      match
        im_message_list client k
          {| container_id := chatId0; page_size := Z.min 50 count;
             page_token := token; start_time := startTime;
             end_time := endTime; sort_type := sortType |}
      with
      | JS.Normal response =>
          JS.nullish (list_items response) []
          ++ pagesFrom n' (S k) (list_page_token response)
      | JS.Throw _ => []
      end
  end.

End Pages.

(** A transport with a single page of three items and nothing more. *)
Definition singlePageClient : Client :=
  {| im_message_get := fun _ => JS.Throw (JS.lit "ECONNRESET");
     im_message_list := fun _ _ =>
       JS.Normal {| list_code := Some 0%Z; list_msg := None;
                    list_items := Some [exampleItem; exampleItem; exampleItem];
                    list_has_more := Some false;
                    list_page_token := None |} |}.

End SendSpec.

(** * Properties *)

(** ** The derivative matcher decides the language of a pattern *)

Section RegexFacts.
Import Regex.

Lemma lang_inv_void s : lang Void s -> False.
Proof. inversion 1. Qed.

Lemma lang_inv_eps s : lang Eps s -> s = [].
Proof. now inversion 1. Qed.

Lemma lang_inv_cls p s : lang (Cls p) s -> exists c, s = [c] /\ p c = true.
Proof. inversion 1; subst; eauto. Qed.

Lemma lang_inv_cat r1 r2 s :
  lang (Cat r1 r2) s -> exists s1 s2, s = s1 ++ s2 /\ lang r1 s1 /\ lang r2 s2.
Proof. inversion 1; subst; eauto. Qed.

Lemma lang_inv_alt r1 r2 s : lang (Alt r1 r2) s -> lang r1 s \/ lang r2 s.
Proof. inversion 1; subst; auto. Qed.

Lemma nullable_lang r : nullable r = true <-> lang r [].
Proof.
  induction r as [| |p|r1 IH1 r2 IH2|r1 IH1 r2 IH2|r IH]; simpl.
  - split; [discriminate | intros H; destruct (lang_inv_void _ H)].
  - split; [constructor | reflexivity].
  - split; [discriminate |].
    intros H. apply lang_inv_cls in H as (c & Hc & _). discriminate.
  - rewrite andb_true_iff, IH1, IH2. split.
    + intros [H1 H2]. exact (lang_cat _ _ [] [] H1 H2).
    + intros H. apply lang_inv_cat in H as (s1 & s2 & Hs & H1 & H2).
      symmetry in Hs. apply app_eq_nil in Hs as [-> ->]. auto.
  - rewrite orb_true_iff, IH1, IH2. split.
    + intros [H|H]; [apply lang_alt_l | apply lang_alt_r]; exact H.
    + apply lang_inv_alt.
  - split; [constructor | reflexivity].
Qed.

(** A non-empty word of [Star r] starts with a non-empty word of [r]. *)
Lemma lang_star_cons_inv r c s :
  lang (Star r) (c :: s) ->
  exists s1 s2, s = s1 ++ s2 /\ lang r (c :: s1) /\ lang (Star r) s2.
Proof.
  intros H. remember (Star r) as r' eqn:Er. remember (c :: s) as w eqn:Ew.
  revert c s Ew.
  induction H as [| | | | | |r0 s1 s2 H1 _ H2 IH2]; try discriminate.
  injection Er as ->. intros c s Ew.
  destruct s1 as [|c1 s1]; simpl in Ew.
  - apply IH2; auto.
  - injection Ew as <- <-. eauto.
Qed.

Lemma deriv_lang c r s : lang (deriv c r) s <-> lang r (c :: s).
Proof.
  revert s.
  induction r as [| |p|r1 IH1 r2 IH2|r1 IH1 r2 IH2|r IH]; intros s; simpl.
  - split; intros H; inversion H.
  - split; intros H; inversion H.
  - destruct (p c) eqn:Hp; split; intros H.
    + apply lang_inv_eps in H as ->. now constructor.
    + apply lang_inv_cls in H as (c' & Hc & _). injection Hc as _ ->.
      constructor.
    + inversion H.
    + apply lang_inv_cls in H as (c' & Hc & Hp'). injection Hc as -> _.
      congruence.
  - assert (Hcat : lang (Cat (deriv c r1) r2) s ->
                   lang (Cat r1 r2) (c :: s)).
    { intros H. apply lang_inv_cat in H as (s1 & s2 & -> & H1 & H2).
      apply IH1 in H1. exact (lang_cat _ _ (c :: s1) s2 H1 H2). }
    assert (Hsplit : lang (Cat r1 r2) (c :: s) ->
              lang (Cat (deriv c r1) r2) s \/
              (lang r1 [] /\ lang r2 (c :: s))).
    { intros H. apply lang_inv_cat in H as (s1 & s2 & Hs & H1 & H2).
      destruct s1 as [|c1 s1]; simpl in Hs.
      - right. subst s2. auto.
      - injection Hs as -> ->. left. constructor; [now apply IH1 | exact H2]. }
    destruct (nullable r1) eqn:Hn.
    + split.
      * intros H. apply lang_inv_alt in H as [H|H]; [auto |].
        apply IH2 in H. apply nullable_lang in Hn.
        exact (lang_cat _ _ [] (c :: s) Hn H).
      * intros H. apply Hsplit in H as [H|[_ H]].
        -- now apply lang_alt_l.
        -- apply lang_alt_r. now apply IH2.
    + split; [exact Hcat |].
      intros H. apply Hsplit in H as [H|[H _]]; [exact H |].
      apply nullable_lang in H. congruence.
  - split.
    + intros H. apply lang_inv_alt in H as [H|H];
        [apply lang_alt_l, IH1 | apply lang_alt_r, IH2]; exact H.
    + intros H. apply lang_inv_alt in H as [H|H];
        [apply lang_alt_l, IH1 | apply lang_alt_r, IH2]; exact H.
  - split.
    + intros H. apply lang_inv_cat in H as (s1 & s2 & -> & H1 & H2).
      apply IH in H1. exact (lang_star_app _ (c :: s1) s2 H1 H2).
    + intros H. apply lang_star_cons_inv in H as (s1 & s2 & -> & H1 & H2).
      constructor; [now apply IH | exact H2].
Qed.

Lemma matches_lang r s : matches r s = true <-> lang r s.
Proof.
  revert r. induction s as [|c s IH]; intros r; simpl.
  - apply nullable_lang.
  - rewrite IH. apply deriv_lang.
Qed.

Lemma matches_prefix_lang r s :
  matches_prefix r s = true <-> exists m post, s = m ++ post /\ lang r m.
Proof.
  revert r. induction s as [|c s IH]; intros r; simpl.
  - rewrite orb_false_r, nullable_lang. split.
    + intros H. exists [], []. auto.
    + intros (m & post & Hs & H). symmetry in Hs.
      apply app_eq_nil in Hs as [-> _]. exact H.
  - rewrite orb_true_iff, nullable_lang, IH. split.
    + intros [H|(m & post & -> & H)].
      * exists [], (c :: s). auto.
      * exists (c :: m), post. split; [reflexivity | now apply deriv_lang].
    + intros (m & post & Hs & H). destruct m as [|c' m]; simpl in Hs.
      * now left.
      * injection Hs as <- ->. right. exists m, post.
        split; [reflexivity | now apply deriv_lang].
Qed.

(** [test] holds exactly when a substring is in the language. *)
Lemma test_lang r s :
  test r s = true <-> exists pre m post, s = pre ++ m ++ post /\ lang r m.
Proof.
  induction s as [|c s IH]; cbn [test].
  - rewrite orb_false_r, matches_prefix_lang. split.
    + intros (m & post & Hs & H). exists [], m, post. auto.
    + intros (pre & m & post & Hs & H). exists m, post. split; [|exact H].
      destruct pre; [exact Hs | discriminate].
  - rewrite orb_true_iff, matches_prefix_lang, IH. split.
    + intros [(m & post & Hs & H)|(pre & m & post & -> & H)].
      * exists [], m, post. auto.
      * exists (c :: pre), m, post. auto.
    + intros (pre & m & post & Hs & H). destruct pre as [|c' pre]; simpl in Hs.
      * left. eauto.
      * injection Hs as <- ->. right. eauto.
Qed.

Lemma lang_chr c s : lang (chr c) s <-> s = [c].
Proof.
  unfold chr. split.
  - intros H. apply lang_inv_cls in H as (c' & -> & Hc).
    apply N.eqb_eq in Hc. now subst.
  - intros ->. constructor. apply N.eqb_refl.
Qed.

Lemma lang_word w s : lang (word w) s <-> s = w.
Proof.
  revert s. induction w as [|c w IH]; intros s; simpl.
  - split; [apply lang_inv_eps | intros ->; constructor].
  - split.
    + intros H. apply lang_inv_cat in H as (s1 & s2 & -> & H1 & H2).
      apply lang_chr in H1 as ->. apply IH in H2 as ->. reflexivity.
    + intros ->. apply (lang_cat _ _ [c] w); [now apply lang_chr | now apply IH].
Qed.

Lemma lang_star_cls p s :
  lang (Star (Cls p)) s <-> Forall (fun c => p c = true) s.
Proof.
  split.
  - induction s as [|c s IH]; intros H; [constructor |].
    apply lang_star_cons_inv in H as (s1 & s2 & -> & H1 & H2).
    apply lang_inv_cls in H1 as (c' & Hc & Hp). injection Hc as -> ->.
    constructor; [exact Hp | now apply IH].
  - induction 1 as [|c s Hp _ IH]; [constructor |].
    apply (lang_star_app _ [c] s); [now constructor | exact IH].
Qed.

Lemma lang_plus_cls p s :
  lang (plus (Cls p)) s <-> s <> [] /\ Forall (fun c => p c = true) s.
Proof.
  unfold plus. split.
  - intros H. apply lang_inv_cat in H as (s1 & s2 & -> & H1 & H2).
    apply lang_inv_cls in H1 as (c & -> & Hp). apply lang_star_cls in H2.
    split; [discriminate | now constructor].
  - intros [Hne H]. destruct H as [|c s Hp H]; [congruence |].
    apply (lang_cat _ _ [c] s); [now constructor | now apply lang_star_cls].
Qed.

End RegexFacts.

(** ** Render mode selection *)

Section RenderFacts.
Import Regex Render.

Lemma crlf_class_spec c : crlf_class c = true <-> c = 13%N \/ c = 10%N.
Proof. unfold crlf_class. rewrite orb_true_iff, !N.eqb_eq. tauto. Qed.

Lemma sep_class_spec c :
  sep_class c = true <-> c = 45%N \/ c = 58%N \/ c = 124%N \/ c = 32%N.
Proof. unfold sep_class. rewrite !orb_true_iff, !N.eqb_eq. tauto. Qed.

Lemma dot_class_spec c : dot_class c = true <-> JS.isLineTerminator c = false.
Proof. unfold dot_class. apply negb_true_iff. Qed.

Lemma lang_fence m :
  lang fence_re m <-> exists body, m = backticks ++ body ++ backticks.
Proof.
  unfold fence_re. split.
  - intros H. apply lang_inv_cat in H as (s1 & s2 & -> & H1 & H).
    apply lang_inv_cat in H as (s3 & s4 & -> & _ & H4).
    apply lang_word in H1 as ->. apply lang_word in H4 as ->. eauto.
  - intros (body & ->).
    apply lang_cat; [now apply lang_word |].
    apply lang_cat; [| now apply lang_word].
    apply lang_star_cls. now apply Forall_forall.
Qed.

Lemma lang_table m :
  lang table_re m <->
  exists cells breaks sep,
    m = [pipe] ++ cells ++ [pipe] ++ breaks ++ [pipe] ++ sep ++ [pipe]
    /\ cells <> [] /\ Forall (fun c => JS.isLineTerminator c = false) cells
    /\ breaks <> [] /\ Forall (fun c => c = 13%N \/ c = 10%N) breaks
    /\ sep <> []
    /\ Forall (fun c => c = 45%N \/ c = 58%N \/ c = 124%N \/ c = 32%N) sep.
Proof.
  unfold table_re. split.
  - intros H.
    apply lang_inv_cat in H as (p1 & t1 & -> & Hp1 & H).
    apply lang_inv_cat in H as (cells & t2 & -> & Hc & H).
    apply lang_inv_cat in H as (p2 & t3 & -> & Hp2 & H).
    apply lang_inv_cat in H as (breaks & t4 & -> & Hb & H).
    apply lang_inv_cat in H as (p3 & t5 & -> & Hp3 & H).
    apply lang_inv_cat in H as (sep & p4 & -> & Hs & Hp4).
    apply lang_chr in Hp1 as ->, Hp2 as ->, Hp3 as ->, Hp4 as ->.
    apply lang_plus_cls in Hc as [Hc1 Hc2], Hb as [Hb1 Hb2], Hs as [Hs1 Hs2].
    exists cells, breaks, sep. repeat split; auto.
    + eapply List.Forall_impl; [intros c; apply dot_class_spec | exact Hc2].
    + eapply List.Forall_impl; [intros c; apply crlf_class_spec | exact Hb2].
    + eapply List.Forall_impl; [intros c; apply sep_class_spec | exact Hs2].
  - intros (cells & breaks & sep & -> & Hc1 & Hc2 & Hb1 & Hb2 & Hs1 & Hs2).
    apply lang_cat; [now apply lang_chr |].
    apply lang_cat.
    { apply lang_plus_cls. split; [exact Hc1 |].
      eapply List.Forall_impl; [intros c; apply dot_class_spec | exact Hc2]. }
    apply lang_cat; [now apply lang_chr |].
    apply lang_cat.
    { apply lang_plus_cls. split; [exact Hb1 |].
      eapply List.Forall_impl; [intros c; apply crlf_class_spec | exact Hb2]. }
    apply lang_cat; [now apply lang_chr |].
    apply lang_cat; [| now apply lang_chr].
    apply lang_plus_cls. split; [exact Hs1 |].
    eapply List.Forall_impl; [intros c; apply sep_class_spec | exact Hs2].
Qed.

Lemma test_fence text :
  test fence_re text = true <-> contains_fenced_block text.
Proof.
  rewrite test_lang. unfold contains_fenced_block. split.
  - intros (pre & m & post & -> & H). apply lang_fence in H as (body & ->).
    exists pre, body, post. now rewrite <- !app_assoc.
  - intros (pre & body & post & ->).
    exists pre, (backticks ++ body ++ backticks), post.
    split; [now rewrite <- !app_assoc | apply lang_fence; eauto].
Qed.

Lemma test_table text :
  test table_re text = true <-> contains_table text.
Proof.
  rewrite test_lang. unfold contains_table. split.
  - intros (pre & m & post & -> & H).
    apply lang_table in H as (cells & breaks & sep & -> & H).
    exists pre, cells, breaks, sep, post.
    split; [now rewrite <- !app_assoc | exact H].
  - intros (pre & cells & breaks & sep & post & -> & H).
    exists pre,
      ([pipe] ++ cells ++ [pipe] ++ breaks ++ [pipe] ++ sep ++ [pipe]), post.
    split; [now rewrite <- !app_assoc |].
    apply lang_table. exists cells, breaks, sep. auto.
Qed.

Lemma shouldUseCard_spec text :
  shouldUseCard text = true <->
  contains_fenced_block text \/ contains_table text.
Proof.
  unfold shouldUseCard. rewrite <- test_fence, <- test_table.
  destruct (test fence_re text), (test table_re text); intuition congruence.
Qed.

Lemma selectRender_rich configured text :
  selectRender configured text = Rich <->
  useCard (resolveRenderMode configured) text = true.
Proof.
  unfold selectRender.
  destruct (useCard _ _); split; congruence.
Qed.

Example render_plain_hello :
  selectRender (Some auto) (JS.lit "plain hello") = Plain.
Proof. reflexivity. Qed.

Example render_fenced :
  selectRender (Some auto)
    (JS.lit "see ```" ++ [10%N] ++ JS.lit "x = 1" ++ [10%N] ++ JS.lit "``` done")
  = Rich.
Proof. vm_compute. reflexivity. Qed.

Example render_table :
  selectRender None (JS.lit "|a|b|" ++ [10%N] ++ JS.lit "|---|:-:|") = Rich.
Proof. vm_compute. reflexivity. Qed.

Example render_unclosed_fence :
  selectRender (Some auto) (JS.lit "``` never closed") = Plain.
Proof. vm_compute. reflexivity. Qed.

Example render_raw_ignores_fence :
  selectRender (Some raw) (JS.lit "```a```") = Plain.
Proof. reflexivity. Qed.

(** C7. The render decision is the function [selectRender] of the
    configured mode and the text alone: mode [card] (rich) always selects
    rich rendering, mode [raw] (plain) always selects plain rendering, and
    mode [auto] (also the default of an unset mode) selects rich rendering
    exactly when the text contains a paired fenced code block or a
    markdown table, and plain rendering otherwise. *)
Theorem render_mode_decision (text : JS.str) :
  selectRender (Some card) text = Rich
  /\ selectRender (Some raw) text = Plain
  /\ (selectRender (Some auto) text = Rich <->
      contains_fenced_block text \/ contains_table text)
  /\ (selectRender (Some auto) text = Plain <->
      ~ (contains_fenced_block text \/ contains_table text))
  /\ selectRender None text = selectRender (Some auto) text.
Proof.
  split; [reflexivity |]. split; [reflexivity |].
  assert (Hauto : selectRender (Some auto) text = Rich <->
                  contains_fenced_block text \/ contains_table text).
  { rewrite selectRender_rich. simpl. apply shouldUseCard_spec. }
  split; [exact Hauto |]. split; [| reflexivity].
  rewrite <- Hauto.
  destruct (selectRender (Some auto) text); split; congruence.
Qed.

End RenderFacts.

(** ** The streaming card controller *)

Section StreamFacts.
Import Stream StreamSpec.

Lemma liveId_set_pendingUpdate p m : liveId (set_pendingUpdate p m) = liveId m.
Proof. reflexivity. Qed.

Lemma run_app m es1 es2 :
  run m (es1 ++ es2) =
  let '(m1, c1) := run m es1 in
  let '(m2, c2) := run m1 es2 in (m2, c1 ++ c2).
Proof.
  revert m. induction es1 as [|e es1 IH]; intros m; simpl.
  - now destruct (run m es2).
  - destruct (step m e) as [m1 c1]. rewrite IH.
    destruct (run m1 es1) as [m2 c2]. destruct (run m2 es2) as [m3 c3].
    now rewrite app_assoc.
Qed.

Lemma countSendCard_app c1 c2 :
  countSendCard (c1 ++ c2) = (countSendCard c1 + countSendCard c2)%nat.
Proof. unfold countSendCard. now rewrite List.filter_app, List.length_app. Qed.

(** *** Finalization *)

Example finalize_live_failure :
  let '(m1, calls) := finalize (JS.lit "Hello") live_example in
  calls = [UpdateCard (JS.lit "om_1")
             {| streaming_mode := false; markdown := JS.lit "Hello" |}]
  /\ isFinalized (finalizeSettles false m1) = false
  /\ isFinalized (finalizeSettles true m1) = true.
Proof. vm_compute. auto. Qed.

Example finalize_while_initializing :
  let '(m0, c0) := update (JS.lit "Hel") false 0 new in
  phase m0 = Initializing
  /\ finalize (JS.lit "Hello") m0 = (m0, []).
Proof. vm_compute. auto. Qed.

(** C1, as the spec states it, fails: when the last update fails the
    controller is not [Finalized]. *)
Lemma finalize_always_finalizes_fails :
  ~ finalize_always_finalizes live_example (JS.lit "Hello") false.
Proof.
  unfold finalize_always_finalizes. vm_compute.
  intros (_ & _ & H). discriminate H.
Qed.

(** C1, as the code has it. On a controller that is not yet finalized,
    [finalize(content)] drops the pending timer. When a live message
    exists it issues exactly one update of that message whose card is
    marked done ([streaming_mode] false) and carries the content, and the
    controller is finalized exactly when that call succeeds. When no live
    message exists ([Empty] or [Initializing]) no network call is issued
    and nothing else changes. *)
Theorem finalize_behaviour (m : FeishuStream) (content : JS.str) :
  isFinalized m = false ->
  let '(m1, calls) := finalize content m in
  pendingUpdate m1 = None
  /\ match liveId m with
     | Some mid =>
         calls = [UpdateCard mid
                    {| streaming_mode := false;
                       markdown := JS.or_else content (JS.lit "...") |}]
         /\ forall ok, isFinalized (finalizeSettles ok m1) = ok
     | None =>
         calls = [] /\ m1 = set_pendingUpdate None m /\ phase m1 = phase m
     end.
Proof.
  intros Hfin. unfold finalize. rewrite Hfin, liveId_set_pendingUpdate.
  destruct (liveId m) as [mid|] eqn:Hlive.
  - split; [reflexivity |]. split; [reflexivity |].
    intros ok. unfold finalizeSettles. simpl.
    destruct ok; simpl; [reflexivity | exact Hfin].
  - split; [reflexivity |]. split; [reflexivity |]. split; [reflexivity |].
    unfold phase. simpl. now rewrite liveId_set_pendingUpdate.
Qed.

Lemma finalize_behaviour_witness :
  isFinalized live_example = false
  /\ let '(m1, calls) := finalize (JS.lit "Hello") live_example in
     pendingUpdate m1 = None
     /\ match liveId live_example with
        | Some mid =>
            calls = [UpdateCard mid
                       {| streaming_mode := false;
                          markdown := JS.or_else (JS.lit "Hello") (JS.lit "...") |}]
            /\ forall ok, isFinalized (finalizeSettles ok m1) = ok
        | None =>
            calls = [] /\ m1 = set_pendingUpdate None live_example
            /\ phase m1 = phase live_example
        end.
Proof.
  split; [reflexivity |].
  apply (finalize_behaviour live_example (JS.lit "Hello")). reflexivity.
Defined.

End StreamFacts.

Section StreamCoalescing.
Import Stream StreamSpec.

Example two_updates_in_window :
  run live_example
    [CallUpdate (JS.lit "Hello") false 1100;
     CallUpdate (JS.lit "Hello, world") false 1200;
     TimerFires 1400]
  = (set_updatesInFlight [JS.lit "Hello"] live_example,
     [UpdateCard (JS.lit "om_1")
        {| streaming_mode := true; markdown := JS.lit "Hello" |}]).
Proof. vm_compute. reflexivity. Qed.

(** C2, as the spec states it, fails: the update sent for the window
    carries the content of the earlier call. *)
Lemma later_content_wins_fails :
  ~ later_content_wins live_example
      (JS.lit "Hello") (JS.lit "Hello, world") 1100 1200 1400.
Proof.
  unfold later_content_wins. rewrite two_updates_in_window. simpl.
  intros [_ H]. destruct (H _ (or_introl eq_refl)) as [mid Hmid].
  discriminate Hmid.
Qed.

Lemma update_schedules m mid c t :
  liveId m = Some mid -> isFinalized m = false -> pendingUpdate m = None ->
  c <> lastContent m ->
  (t - lastUpdateTime m < STREAM_UPDATE_INTERVAL_MS)%Z ->
  update c false t m =
  (set_pendingUpdate
     (Some {| t_content := c;
              t_due := (lastUpdateTime m + STREAM_UPDATE_INTERVAL_MS)%Z |}) m,
   []).
Proof.
  intros Hlive Hfin Hpend Hc Ht. unfold update, scheduleOrExecute.
  rewrite Hfin, Hlive, Hpend. unfold JS.str_eqb.
  rewrite bool_decide_eq_false_2 by exact Hc. simpl.
  destruct (Z.leb_spec STREAM_UPDATE_INTERVAL_MS (t - lastUpdateTime m));
    [lia |].
  do 3 f_equal. f_equal. lia.
Qed.

Lemma update_dropped_while_pending m mid c t tm :
  liveId m = Some mid -> pendingUpdate m = Some tm ->
  (t - lastUpdateTime m < STREAM_UPDATE_INTERVAL_MS)%Z ->
  update c false t m = (m, []).
Proof.
  intros Hlive Hpend Ht. unfold update, scheduleOrExecute.
  destruct (isFinalized m); [reflexivity |].
  destruct (JS.str_eqb c (lastContent m)); [reflexivity |].
  rewrite Hlive, Hpend. simpl.
  destruct (Z.leb_spec STREAM_UPDATE_INTERVAL_MS (t - lastUpdateTime m));
    [lia | reflexivity].
Qed.

(** C2, as the code has it. On a live controller with no update pending,
    two updates arriving within the debounce interval of the last sent
    update issue no network call themselves: the first (whose content
    differs from the last sent one) schedules the single pending update,
    due when the interval ends, and the second is dropped. When the timer
    fires, exactly one network update is issued, and it carries the
    content of the earlier call. *)
Theorem coalesced_update_carries_first_content
    (m : FeishuStream) (mid c1 c2 : JS.str) (t1 t2 t3 : Z) :
  liveId m = Some mid -> isFinalized m = false -> pendingUpdate m = None ->
  c1 <> lastContent m ->
  (t1 - lastUpdateTime m < STREAM_UPDATE_INTERVAL_MS)%Z ->
  (t2 - lastUpdateTime m < STREAM_UPDATE_INTERVAL_MS)%Z ->
  (lastUpdateTime m + STREAM_UPDATE_INTERVAL_MS <= t3)%Z ->
  run m [CallUpdate c1 false t1; CallUpdate c2 false t2]
  = (set_pendingUpdate
       (Some {| t_content := c1;
                t_due := (lastUpdateTime m + STREAM_UPDATE_INTERVAL_MS)%Z |}) m,
     [])
  /\ snd (run m [CallUpdate c1 false t1; CallUpdate c2 false t2;
                 TimerFires t3])
     = [UpdateCard mid {| streaming_mode := true;
                          markdown := JS.or_else c1 (JS.lit "...") |}].
Proof.
  intros Hlive Hfin Hpend Hc Ht1 Ht2 Ht3.
  cbn [run step].
  rewrite (update_schedules m mid c1 t1) by assumption.
  rewrite (update_dropped_while_pending _ mid c2 t2 _) by
    (try reflexivity; assumption).
  split; [reflexivity |].
  unfold timerFires. cbn [pendingUpdate set_pendingUpdate t_due t_content].
  destruct (Z.leb_spec (lastUpdateTime m + STREAM_UPDATE_INTERVAL_MS) t3);
    [| lia].
  unfold performUpdate. rewrite !liveId_set_pendingUpdate, Hlive.
  cbn [isFinalized set_pendingUpdate]. rewrite Hfin. reflexivity.
Qed.

Lemma coalesced_update_carries_first_content_witness :
  run live_example
    [CallUpdate (JS.lit "Hello") false 1100;
     CallUpdate (JS.lit "Hello, world") false 1200]
  = (set_pendingUpdate
       (Some {| t_content := JS.lit "Hello"; t_due := 1400 |}) live_example,
     [])
  /\ snd (run live_example
            [CallUpdate (JS.lit "Hello") false 1100;
             CallUpdate (JS.lit "Hello, world") false 1200;
             TimerFires 1400])
     = [UpdateCard (JS.lit "om_1")
          {| streaming_mode := true;
             markdown := JS.or_else (JS.lit "Hello") (JS.lit "...") |}].
Proof.
  apply (coalesced_update_carries_first_content live_example
           (JS.lit "om_1") (JS.lit "Hello") (JS.lit "Hello, world")
           1100 1200 1400);
    first [reflexivity | discriminate | (vm_compute; congruence)].
Defined.

End StreamCoalescing.

Section StreamCreation.
Import Stream StreamSpec.

Lemma keeps_creation_refl m : keeps_creation m (m, []).
Proof. now repeat split. Qed.

Lemma keeps_creation_liveId m r : keeps_creation m r -> liveId (fst r) = liveId m.
Proof. intros (H & _ & _). unfold liveId. now rewrite H. Qed.

Lemma keeps_creation_canCreate m r :
  keeps_creation m r -> canCreate (fst r) = canCreate m.
Proof.
  intros H. unfold canCreate. rewrite (keeps_creation_liveId _ _ H).
  destruct H as (_ & -> & _). reflexivity.
Qed.

Lemma performUpdate_keeps c m : keeps_creation m (performUpdate c m).
Proof.
  unfold performUpdate. destruct (liveId m); [| apply keeps_creation_refl].
  destruct (isFinalized m); [apply keeps_creation_refl |]. now repeat split.
Qed.

Lemma scheduleOrExecute_keeps c f t m :
  keeps_creation m (scheduleOrExecute c f t m).
Proof.
  unfold scheduleOrExecute.
  destruct (f || _); [apply performUpdate_keeps |].
  destruct (pendingUpdate m); [apply keeps_creation_refl |]. now repeat split.
Qed.

Lemma resume_keeps t w m : keeps_creation m (resume t w m).
Proof.
  unfold resume. destruct (liveId m);
    [apply scheduleOrExecute_keeps | apply keeps_creation_refl].
Qed.

Lemma resumeAll_keeps t ws m : keeps_creation m (resumeAll t ws m).
Proof.
  revert m. induction ws as [|w ws IH]; intros m; simpl.
  - apply keeps_creation_refl.
  - pose proof (resume_keeps t w m) as H1.
    destruct (resume t w m) as [m1 c1]. pose proof (IH m1) as H2.
    destruct (resumeAll t ws m1) as [m2 c2].
    destruct H1 as (A1 & B1 & C1), H2 as (A2 & B2 & C2). simpl in *.
    unfold keeps_creation. cbn [fst snd].
    split; [congruence |]. split; [congruence |].
    rewrite countSendCard_app. lia.
Qed.

Lemma timerFires_keeps t m : keeps_creation m (timerFires t m).
Proof.
  unfold timerFires. destruct (pendingUpdate m) as [tm|];
    [| apply keeps_creation_refl].
  destruct (t_due tm <=? t)%Z; [| apply keeps_creation_refl].
  pose proof (performUpdate_keeps (t_content tm) (set_pendingUpdate None m))
    as (A & B & C).
  now repeat split.
Qed.

Lemma finalize_keeps c m : keeps_creation m (finalize c m).
Proof.
  unfold finalize. destruct (isFinalized m); [apply keeps_creation_refl |].
  destruct (liveId _); now repeat split.
Qed.

Lemma updateSettles_keeps k ok t m :
  keeps_creation m (updateSettles k ok t m, []).
Proof.
  unfold updateSettles. destruct (updatesInFlight m !! k);
    [| apply keeps_creation_refl].
  destruct ok; now repeat split.
Qed.

Lemma finalizeSettles_keeps ok m : keeps_creation m (finalizeSettles ok m, []).
Proof.
  unfold finalizeSettles. destruct (finalizesInFlight m);
    [apply keeps_creation_refl |].
  destruct ok; now repeat split.
Qed.

Lemma canCreate_le_1 m : (canCreate m <= 1)%nat.
Proof. unfold canCreate. destruct (liveId m), (initializationPromise m); lia. Qed.

(** Each step pays for the creation it issues with the permission to
    create, which only a failed creation gives back. *)
Lemma step_creation_budget m e :
  (countSendCard (snd (step m e)) + canCreate (fst (step m e))
   <= canCreate m + failedCreations m [e])%nat.
Proof.
  assert (Hkeep : forall r, keeps_creation m r ->
            (countSendCard (snd r) + canCreate (fst r)
             <= canCreate m + failedCreations m [e])%nat).
  { intros r H. rewrite (keeps_creation_canCreate _ _ H).
    destruct H as (_ & _ & ->). lia. }
  destruct e as [c f t|c|t|res t|k ok t|ok]; cbn [step].
  - unfold update.
    destruct (isFinalized m); [apply Hkeep, keeps_creation_refl |].
    destruct (JS.str_eqb c (lastContent m));
      [apply Hkeep, keeps_creation_refl |].
    destruct (liveId m) eqn:Hlive; [apply Hkeep, scheduleOrExecute_keeps |].
    destruct (initializationPromise m) eqn:Hinit.
    + apply Hkeep. repeat split. simpl. symmetry. exact Hinit.
    + unfold canCreate at 2. rewrite Hlive, Hinit. simpl.
      unfold canCreate, liveId. simpl.
      destruct (messageId m) as [mid|]; [destruct (JS.truthy mid) |]; simpl; lia.
  - apply Hkeep, finalize_keeps.
  - apply Hkeep, timerFires_keeps.
  - unfold createSettles.
    destruct (initializationPromise m) as [content|] eqn:Hinit;
      [| apply Hkeep, keeps_creation_refl].
    cbn [failedCreations isFailedCreation]. rewrite Hinit.
    match goal with |- context [resumeAll t (waiters m) ?m0] =>
      pose proof (resumeAll_keeps t (waiters m) m0) as Hr;
      pose proof (keeps_creation_canCreate _ _ Hr) as Hc;
      destruct Hr as (_ & _ & Hn);
      destruct (resumeAll t (waiters m) m0) as [m2 c2] end.
    cbn [fst snd] in *. rewrite Hn, Hc.
    destruct res as [mid|msg].
    + unfold canCreate, liveId. simpl.
      destruct (JS.truthy mid); simpl; lia.
    + pose proof (canCreate_le_1 (set_initialization None [] m)). simpl. lia.
  - apply Hkeep, updateSettles_keeps.
  - apply Hkeep, finalizeSettles_keeps.
Qed.

Lemma run_creation_budget m es :
  (countSendCard (snd (run m es)) + canCreate (fst (run m es))
   <= canCreate m + failedCreations m es)%nat.
Proof.
  revert m. induction es as [|e es IH]; intros m.
  - simpl. unfold countSendCard. simpl. lia.
  - pose proof (step_creation_budget m e) as Hs. specialize (IH (fst (step m e))).
    cbn [run failedCreations] in *.
    destruct (step m e) as [m1 c1]. cbn [fst snd] in *.
    destruct (run m1 es) as [m2 c2]. cbn [fst snd] in *.
    rewrite countSendCard_app. lia.
Qed.

(** While a creation is in flight no step starts another one, and an
    [update] whose content is new is parked behind it. *)
Lemma no_creation_while_in_flight m e content :
  initializationPromise m = Some content ->
  countSendCard (snd (step m e)) = 0%nat.
Proof.
  intros Hinit. pose proof (step_creation_budget m e) as H.
  assert (Hc : canCreate m = 0%nat).
  { unfold canCreate. rewrite Hinit. now destruct (liveId m). }
  rewrite Hc in H.
  destruct e as [c f t|c|t|res t|k ok t|ok];
    try (cbn [failedCreations isFailedCreation] in H; lia).
  cbn [step]. unfold createSettles. rewrite Hinit.
  match goal with |- context [resumeAll t (waiters m) ?m0] =>
    now destruct (resumeAll_keeps t (waiters m) m0) as (_ & _ & Hn) end.
Qed.

(** An [update] with new content that arrives while a creation is in
    flight is parked on the creation promise. *)
Lemma update_parks_while_creating m c f t content :
  isFinalized m = false -> c <> lastContent m -> liveId m = None ->
  initializationPromise m = Some content ->
  update c f t m
  = (set_initialization (Some content)
       (waiters m ++ [{| w_content := c; w_isFinal := f |}]) m, []).
Proof.
  intros Hfin Hc Hlive Hinit. unfold update, JS.str_eqb.
  rewrite Hfin, bool_decide_eq_false_2, Hlive, Hinit by exact Hc.
  reflexivity.
Qed.

(** Once a live message exists and no creation is in flight, no run
    issues a creation any more. *)
Lemma no_creation_once_live m es mid :
  liveId m = Some mid -> initializationPromise m = None ->
  countSendCard (snd (run m es)) = 0%nat.
Proof.
  revert m. induction es as [|e es IH]; intros m Hlive Hinit; [reflexivity |].
  cbn [run].
  assert (Hk : keeps_creation m (step m e)).
  { destruct e as [c f t|c|t|res t|k ok t|ok]; cbn [step].
    - unfold update. destruct (isFinalized m); [apply keeps_creation_refl |].
      destruct (JS.str_eqb _ _); [apply keeps_creation_refl |].
      rewrite Hlive. apply scheduleOrExecute_keeps.
    - apply finalize_keeps.
    - apply timerFires_keeps.
    - unfold createSettles. rewrite Hinit. apply keeps_creation_refl.
    - apply updateSettles_keeps.
    - apply finalizeSettles_keeps. }
  pose proof (keeps_creation_liveId _ _ Hk) as Hl.
  destruct Hk as (_ & Hi & Hn).
  destruct (step m e) as [m1 c1]. cbn [fst snd] in *.
  specialize (IH m1 ltac:(congruence) ltac:(congruence)).
  destruct (run m1 es) as [m2 c2]. cbn [fst snd] in *.
  rewrite countSendCard_app. lia.
Qed.

Example creation_retried_after_failure :
  snd (run new [CallUpdate (JS.lit "Hel") false 0;
                CreateSettles (JS.Throw (JS.lit "Feishu card send failed")) 10;
                CallUpdate (JS.lit "Hello") false 20])
  = [SendCard {| streaming_mode := true; markdown := JS.lit "Hel" |};
     SendCard {| streaming_mode := true; markdown := JS.lit "Hello" |}].
Proof. vm_compute. reflexivity. Qed.

Example updates_during_creation_wait :
  run new [CallUpdate (JS.lit "Hel") false 0;
           CallUpdate (JS.lit "Hello") false 5;
           CallUpdate (JS.lit "Hello, w") false 7]
  = ({| messageId := None; lastContent := []; lastUpdateTime := 0;
        pendingUpdate := None; isFinalized := false;
        initializationPromise := Some (JS.lit "Hel");
        waiters := [{| w_content := JS.lit "Hello"; w_isFinal := false |};
                    {| w_content := JS.lit "Hello, w"; w_isFinal := false |}];
        updatesInFlight := []; finalizesInFlight := 0 |},
     [SendCard {| streaming_mode := true; markdown := JS.lit "Hel" |}]).
Proof. vm_compute. reflexivity. Qed.

(** C3, as the spec states it, fails: after a failed creation the next
    update starts a second creation. *)
Lemma at_most_one_creation_fails :
  ~ at_most_one_creation
      [CallUpdate (JS.lit "Hel") false 0;
       CreateSettles (JS.Throw (JS.lit "Feishu card send failed")) 10;
       CallUpdate (JS.lit "Hello") false 20].
Proof.
  unfold at_most_one_creation. rewrite creation_retried_after_failure.
  vm_compute. lia.
Qed.

(** C3, as the code has it. From a new controller, every run issues at
    most one creation more than the number of creations that failed in
    it. While a creation is in flight no step issues a creation, whatever
    the event, and an [update] with new content is parked on the creation
    promise. Once a creation has left a live message, no later run issues
    a creation. *)
Theorem creation_guard :
  (forall es,
      (countSendCard (snd (run new es)) <= 1 + failedCreations new es)%nat)
  /\ (forall m e,
        is_Some (initializationPromise m) ->
        countSendCard (snd (step m e)) = 0%nat)
  /\ (forall m c f t content,
        isFinalized m = false -> c <> lastContent m -> liveId m = None ->
        initializationPromise m = Some content ->
        update c f t m
        = (set_initialization (Some content)
             (waiters m ++ [{| w_content := c; w_isFinal := f |}]) m, []))
  /\ (forall m es,
        is_Some (liveId m) -> initializationPromise m = None ->
        countSendCard (snd (run m es)) = 0%nat).
Proof.
  split; [| split; [| split]].
  - intros es. pose proof (run_creation_budget new es) as H.
    change (canCreate new) with 1%nat in H. lia.
  - intros m e [content H]. exact (no_creation_while_in_flight m e content H).
  - exact update_parks_while_creating.
  - intros m es [mid H] Hi. exact (no_creation_once_live m es mid H Hi).
Qed.

Lemma creation_guard_witness :
  (countSendCard
     (snd (run new [CallUpdate (JS.lit "Hel") false 0;
                    CallUpdate (JS.lit "Hello") false 5;
                    CreateSettles (JS.Normal (JS.lit "om_1")) 10;
                    CallUpdate (JS.lit "Hello, w") false 500]))
   <= 1 + failedCreations new
            [CallUpdate (JS.lit "Hel") false 0;
             CallUpdate (JS.lit "Hello") false 5;
             CreateSettles (JS.Normal (JS.lit "om_1")) 10;
             CallUpdate (JS.lit "Hello, w") false 500])%nat
  /\ countSendCard
       (snd (step (fst (update (JS.lit "Hel") false 0 new))
               (CallUpdate (JS.lit "Hello") false 5))) = 0%nat
  /\ countSendCard
       (snd (run live_example
               [CallUpdate (JS.lit "Hello") false 2000;
                UpdateSettles 0 false 2100;
                CallUpdate (JS.lit "Hello!") false 2600])) = 0%nat.
Proof.
  destruct creation_guard as (H1 & H2 & _ & H3).
  split; [apply H1 |]. split.
  - apply H2. vm_compute. eauto.
  - apply H3; [vm_compute; eauto | reflexivity].
Defined.

End StreamCreation.

(** ** The reply dispatcher *)

Section TrimFacts.

Lemma trimStart_head c s u :
  JS.trimStart s = c :: u -> JS.isTrimmable c = false.
Proof.
  induction s as [|d s IH]; simpl; [discriminate |].
  destruct (JS.isTrimmable d) eqn:Hd; [exact IH |].
  intros Heq. injection Heq as -> _. exact Hd.
Qed.

Lemma trimStart_nil s :
  JS.trimStart s = [] <-> Forall (fun c => JS.isTrimmable c = true) s.
Proof.
  induction s as [|d s IH]; simpl.
  - split; [constructor | reflexivity].
  - destruct (JS.isTrimmable d) eqn:Hd.
    + rewrite IH. split; [now constructor | now inversion 1].
    + split; [discriminate |]. inversion 1; congruence.
Qed.

(** [s.trim()] is empty exactly when [s] is made of white space and line
    terminators only. *)
Lemma trim_nil s :
  JS.trim s = [] <-> Forall (fun c => JS.isTrimmable c = true) s.
Proof.
  unfold JS.trim, JS.trimEnd. split.
  - intros H. apply (f_equal (@rev _)) in H. rewrite rev_involutive in H.
    simpl in H. apply trimStart_nil in H.
    destruct (JS.trimStart s) as [|c u] eqn:Hs; [now apply trimStart_nil |].
    apply trimStart_head in Hs.
    assert (Hin : In c (rev (c :: u))) by (apply -> in_rev; now left).
    rewrite List.Forall_forall in H. specialize (H c Hin). congruence.
  - intros H. apply trimStart_nil in H. now rewrite H.
Qed.

End TrimFacts.

Section TypingFacts.
Import Dispatcher.
Variable oracle : Oracle.

Example stop_when_removal_fails :
  stop failing
    {| typingState := Some {| ti_target := JS.lit "om_0";
                              ti_marker := JS.lit "r_1" |};
       currentStream := None; trace := [] |}
  = ({| typingState := None; currentStream := None;
        trace :=
          [Started (RemoveIndicator {| ti_target := JS.lit "om_0";
                                       ti_marker := JS.lit "r_1" |});
           Settled (RemoveIndicator {| ti_target := JS.lit "om_0";
                                       ti_marker := JS.lit "r_1" |}) false] |},
     JS.Normal tt).
Proof. reflexivity. Qed.

(** The reset of [typingState] follows the awaited removal: were the
    imported [removeTypingIndicator] to throw, [stop] would throw with
    the indicator still recorded. *)
Lemma stopWith_throwing_removal w st msg :
  typingState w = Some st ->
  stopWith (fun _ => throw msg) w = (w, JS.Throw msg).
Proof. intros Hst. unfold stopWith. now rewrite Hst. Qed.

(** C6. [stop()] changes nothing and calls nothing when no indicator is
    recorded. Otherwise it asks once for the removal of the recorded
    indicator and, whether that removal succeeds or fails, returns
    normally with the state reset to idle. *)
Theorem typing_stop_resets (w : World) :
  let '(w', r) := stop oracle w in
  r = JS.Normal tt
  /\ typingState w' = None
  /\ currentStream w' = currentStream w
  /\ match typingState w with
     | None => w' = w
     | Some st =>
         exists ok,
           trace w' = trace w ++ [Started (RemoveIndicator st);
                                  Settled (RemoveIndicator st) ok]
     end.
Proof.
  unfold stop, stopWith. destruct (typingState w) as [st|] eqn:Hst.
  - cbn. repeat split. eauto.
  - cbn. repeat split. exact Hst.
Qed.

End TypingFacts.

Section DeliverFacts.
Import Dispatcher.
Context `{TextRuntime}.
Variable oracle : Oracle.
Variable params : Params.

Lemma startedCount_app t1 t2 :
  startedCount (t1 ++ t2) = (startedCount t1 + startedCount t2)%nat.
Proof. unfold startedCount. now rewrite List.filter_app, List.length_app. Qed.

Lemma startedOps_app t1 t2 :
  startedOps (t1 ++ t2) = startedOps t1 ++ startedOps t2.
Proof.
  induction t1 as [|[op|op ok] t1 IH]; simpl; [reflexivity | | exact IH].
  now rewrite IH.
Qed.

(** The loop of [deliver]: the sends are started one at a time, each
    settled before the next, and the loop ends with the first failure,
    which it throws. *)
Lemma forEach_send r chunks w :
  forEach chunks (fun chunk => await oracle (sendOp params r chunk)) w
  = afterSends w
      (sequentialTrace oracle params r (startedCount (trace w)) chunks).
Proof.
  revert w. induction chunks as [|chunk rest IH]; intros w.
  - destruct w. unfold afterSends. cbn. now rewrite app_nil_r.
  - cbn [forEach sequentialTrace]. unfold bind at 1. unfold await at 1.
    unfold bind at 1, settle. cbn [typingState currentStream trace].
    destruct (oracle (startedCount (trace w)) (sendOp params r chunk)) eqn:Hok.
    + cbn beta iota. unfold ret at 1. rewrite IH. unfold afterSends.
      cbn [typingState currentStream trace failedIn existsb negb orb].
      rewrite startedCount_app, <- app_assoc. cbn [startedCount List.filter
        isStarted length app]. now rewrite Nat.add_1_r.
    + reflexivity.
Qed.

Lemma sequentialTrace_all_ok r n chunks :
  (forall k op, oracle k op = true) ->
  sequentialTrace oracle params r n chunks = completeTrace params r chunks.
Proof.
  intros Hok. revert n. induction chunks as [|chunk rest IH]; intros n;
    [reflexivity |].
  cbn [sequentialTrace]. rewrite Hok, IH. reflexivity.
Qed.

Lemma sequentialTrace_started r n chunks :
  startedOps (sequentialTrace oracle params r n chunks)
  `prefix_of` map (sendOp params r) chunks.
Proof.
  revert n. induction chunks as [|chunk rest IH]; intros n; cbn.
  - reflexivity.
  - apply prefix_cons. destruct (oracle n _); [apply IH | apply prefix_nil].
Qed.

Lemma completeTrace_started r chunks :
  startedOps (completeTrace params r chunks) = map (sendOp params r) chunks.
Proof.
  induction chunks as [|chunk rest IH]; cbn; [reflexivity |].
  f_equal. exact IH.
Qed.

Lemma completeTrace_no_failure r chunks :
  failedIn (completeTrace params r chunks) = false.
Proof. induction chunks as [|chunk rest IH]; cbn; [reflexivity | exact IH]. Qed.

Lemma deliver_unstreamed text w :
  currentStream w = None -> JS.trim text <> [] ->
  deliver oracle params (Some text) w
  = afterSends w
      (sequentialTrace oracle params
         (Render.selectRender (renderMode params) text)
         (startedCount (trace w)) (segments params text)).
Proof.
  intros Hs Ht. unfold deliver, segments, Render.selectRender.
  cbn [JS.nullish]. destruct (JS.trim text) eqn:Htrim; [congruence |].
  cbn [JS.truthy negb]. rewrite Hs.
  destruct (Render.useCard _ text).
  - apply (forEach_send Render.Rich).
  - apply (forEach_send Render.Plain).
Qed.

Lemma deliver_plain_sends text w :
  JS.trim text <> [] ->
  deliver_plain oracle params (Some text) w
  = afterSends w
      (sequentialTrace oracle params Render.Plain (startedCount (trace w))
         (chunkTextWithMode (convertMarkdownTables text (tableMode params))
            (textChunkLimit params) (chunkMode params))).
Proof.
  intros Ht. unfold deliver_plain.
  cbn [JS.nullish]. destruct (JS.trim text) eqn:Htrim; [congruence |].
  cbn [JS.truthy negb]. apply (forEach_send Render.Plain).
Qed.

(** C5, as the code has it. A final delivery that is not streamed starts
    its sends one at a time, in the order of the segments, each send
    settled before the next one is started. The loop stops at the first
    send that fails and throws: the sends started are a prefix of the
    segments, and all of them when every send succeeds. This holds for
    both revisions of [deliver]. *)
Theorem deliver_sends_sequentially (text : JS.str) (w : World) :
  currentStream w = None -> JS.trim text <> [] ->
  let r := Render.selectRender (renderMode params) text in
  let n := startedCount (trace w) in
  let plainChunks :=
    chunkTextWithMode (convertMarkdownTables text (tableMode params))
      (textChunkLimit params) (chunkMode params) in
  deliver oracle params (Some text) w
    = afterSends w (sequentialTrace oracle params r n (segments params text))
  /\ deliver_plain oracle params (Some text) w
     = afterSends w (sequentialTrace oracle params Render.Plain n plainChunks)
  /\ startedOps (sequentialTrace oracle params r n (segments params text))
     `prefix_of` map (sendOp params r) (segments params text)
  /\ ((forall k op, oracle k op = true) ->
      deliver oracle params (Some text) w
        = afterSends w (completeTrace params r (segments params text))
      /\ failedIn (completeTrace params r (segments params text)) = false
      /\ startedOps (completeTrace params r (segments params text))
         = map (sendOp params r) (segments params text)).
Proof.
  intros Hs Ht r n plainChunks.
  split; [now apply deliver_unstreamed |].
  split; [now apply deliver_plain_sends |].
  split; [apply sequentialTrace_started |].
  intros Hok. split.
  - rewrite deliver_unstreamed by assumption.
    now rewrite sequentialTrace_all_ok.
  - split; [apply completeTrace_no_failure | apply completeTrace_started].
Qed.

(** C8. A final delivery whose text is absent, empty or made of white
    space only returns normally without starting any transport operation
    and without changing the dispatcher, in both revisions of
    [deliver]. *)
Theorem deliver_blank_sends_nothing (payload_text : option JS.str) (w : World) :
  Forall (fun c => JS.isTrimmable c = true) (JS.nullish payload_text []) ->
  deliver oracle params payload_text w = (w, JS.Normal tt)
  /\ deliver_plain oracle params payload_text w = (w, JS.Normal tt).
Proof.
  intros Hblank. apply trim_nil in Hblank.
  unfold deliver, deliver_plain. rewrite Hblank. split; reflexivity.
Qed.

End DeliverFacts.

Section DeliverExamples.
Import Dispatcher.

Example deliver_two_chunks :
  deliver succeeding exampleParams (Some (JS.lit "plain hello")) idle
  = ({| typingState := None; currentStream := None;
        trace :=
          [Started (SendMessage (JS.lit "oc_1") (JS.lit "plain") (Some (JS.lit "om_0")));
           Settled (SendMessage (JS.lit "oc_1") (JS.lit "plain") (Some (JS.lit "om_0"))) true;
           Started (SendMessage (JS.lit "oc_1") (JS.lit " hell") (Some (JS.lit "om_0")));
           Settled (SendMessage (JS.lit "oc_1") (JS.lit " hell") (Some (JS.lit "om_0"))) true;
           Started (SendMessage (JS.lit "oc_1") (JS.lit "o") (Some (JS.lit "om_0")));
           Settled (SendMessage (JS.lit "oc_1") (JS.lit "o") (Some (JS.lit "om_0"))) true] |},
     JS.Normal tt).
Proof. vm_compute. reflexivity. Qed.

Example deliver_first_send_fails :
  deliver failing exampleParams (Some (JS.lit "plain hello")) idle
  = ({| typingState := None; currentStream := None;
        trace :=
          [Started (SendMessage (JS.lit "oc_1") (JS.lit "plain") (Some (JS.lit "om_0")));
           Settled (SendMessage (JS.lit "oc_1") (JS.lit "plain") (Some (JS.lit "om_0"))) false] |},
     JS.Throw (JS.lit "Feishu request failed")).
Proof. vm_compute. reflexivity. Qed.

(** C5, as the spec states it, fails: when the first send fails the
    other segments are never sent. *)
Lemma sends_every_segment_fails :
  ~ sends_every_segment failing exampleParams (JS.lit "plain hello") idle.
Proof.
  unfold sends_every_segment. rewrite deliver_first_send_fails.
  vm_compute. discriminate.
Qed.

Lemma deliver_sends_sequentially_witness :
  deliver succeeding exampleParams (Some (JS.lit "plain hello")) idle
  = afterSends idle
      (completeTrace exampleParams Render.Plain
         [JS.lit "plain"; JS.lit " hell"; JS.lit "o"]).
Proof.
  destruct (deliver_sends_sequentially succeeding exampleParams
              (JS.lit "plain hello") idle) as (_ & _ & _ & Hall).
  - reflexivity.
  - vm_compute. discriminate.
  - destruct Hall as (Hd & _ & _); [reflexivity | exact Hd].
Defined.

Lemma deliver_blank_sends_nothing_witness :
  deliver failing exampleParams (Some [32; 10; 9; 12288]%N) idle
    = (idle, JS.Normal tt)
  /\ deliver_plain failing exampleParams (Some [32; 10; 9; 12288]%N) idle
     = (idle, JS.Normal tt).
Proof.
  apply (deliver_blank_sends_nothing failing exampleParams).
  repeat constructor.
Defined.

End DeliverExamples.

(** ** Message queries *)

Section SendFacts.
Import Send.
Context `{Host}.

(** The query answers [null]: no record can be the result. *)
Ltac answers_null :=
  exists None; split; [reflexivity |];
  repeat split; try discriminate;
  let r := fresh "r" in
  let Hr := fresh "Hr" in
  intros (r & ? & ? & Hr & ?); try discriminate Hr;
  injection Hr as <-; intuition congruence.

(** C9. With the Feishu channel configured, [getMessageFeishu] never
    throws. It returns [null] when the transport call throws, when the
    response code is not zero, or when the response holds no item; in
    every other case, and only then, it returns the record built from the
    first item. *)
Theorem getMessageFeishu_never_throws
    (cfg : ClawdbotConfig) (feishuCfg : FeishuConfig) (messageId0 : JS.str) :
  channels_feishu cfg = Some feishuCfg ->
  let answer := im_message_get (createFeishuClient feishuCfg) messageId0 in
  exists result,
    getMessageFeishu cfg messageId0 = JS.Normal result
    /\ ((exists msg, answer = JS.Throw msg) -> result = None)
    /\ (forall response,
          answer = JS.Normal response ->
          get_code response <> Some 0%Z -> result = None)
    /\ (forall response,
          answer = JS.Normal response ->
          JS.nullish (get_items response) [] = [] -> result = None)
    /\ (forall info,
          result = Some info <->
          exists response item rest,
            answer = JS.Normal response
            /\ get_code response = Some 0%Z
            /\ get_items response = Some (item :: rest)
            /\ info = toMessageInfo messageId0 item).
Proof.
  intros Hcfg answer. unfold getMessageFeishu. rewrite Hcfg. fold answer.
  destruct answer as [response|msg] eqn:Hans; cbn [JS.andThen JS.tryCatch].
  - destruct (get_code response) as [code|] eqn:Hcode; cbn [codeIsZero negb].
    + destruct (Z.eqb_spec code 0) as [->|Hne]; cbn [negb].
      * destruct (get_items response) as [[|item rest]|] eqn:Hitems;
          cbn [JS.nullish head].
        -- answers_null.
        -- exists (Some (toMessageInfo messageId0 item)).
           split; [reflexivity |]. split; [intros [msg Hm]; discriminate |].
           split; [intros r Hr Hc; injection Hr as <-; congruence |].
           split; [intros r Hr Hi; injection Hr as <-;
                   rewrite Hitems in Hi; discriminate |].
           intros info. split.
           ++ intros Hi. injection Hi as <-. exists response, item, rest. auto.
           ++ intros (r & i & rs & Hr & _ & Hi & ->). injection Hr as <-.
              rewrite Hitems in Hi. now injection Hi as <- _.
        -- answers_null.
      * answers_null.
    + answers_null.
  - answers_null.
Qed.

Lemma pushItems_bounds count acc items :
  (Z.of_nat (length acc) <= count)%Z ->
  (length acc <= length (pushItems count acc items))%nat
  /\ (Z.of_nat (length (pushItems count acc items)) <= count)%Z.
Proof.
  revert acc. induction items as [|item rest IH]; intros acc Hacc; cbn.
  - split; [lia | exact Hacc].
  - destruct (Z.leb_spec count (Z.of_nat (length acc))); [split; lia |].
    destruct (IH (acc ++ [toHistoryMessage item])) as [H1 H2].
    + rewrite List.length_app. cbn. lia.
    + rewrite List.length_app in H1. cbn in H1. split; [lia | exact H2].
Qed.

Lemma pushItems_grows count acc items :
  items <> [] -> (Z.of_nat (length acc) < count)%Z ->
  (length acc < length (pushItems count acc items))%nat.
Proof.
  intros Hne Hlt. destruct items as [|item rest]; [congruence |]. cbn.
  destruct (Z.leb_spec count (Z.of_nat (length acc))); [lia |].
  destruct (pushItems_bounds count (acc ++ [toHistoryMessage item]) rest)
    as [H1 _].
  - rewrite List.length_app. cbn. lia.
  - rewrite List.length_app in H1. cbn in H1. lia.
Qed.

Section ListingFacts.
Variable client : Client.
Variable chatId0 : JS.str.
Variable count : Z.
Variables startTime endTime : option JS.str.
Variable sortType : JS.str.

Local Abbreviation loop :=
  (listLoop client chatId0 count startTime endTime sortType).

Lemma listLoop_returned fuel k acc token more r :
  (Z.of_nat (length acc) <= count)%Z ->
  loop fuel k acc token more = Returned r ->
  (Z.of_nat (length (messages r)) <= count)%Z
  /\ total r = Z.of_nat (length (messages r)).
Proof.
  revert k acc token more.
  induction fuel as [|fuel IH]; intros k acc token more Hacc; cbn [listLoop].
  - destruct (more && _); [discriminate |].
    intros Hr. injection Hr as <-. cbn. auto.
  - destruct (more && _).
    + destruct (im_message_list _ _ _) as [response|msg]; [| discriminate].
      destruct (negb _); [discriminate |].
      apply IH. apply pushItems_bounds. exact Hacc.
    + intros Hr. injection Hr as <-. cbn. auto.
Qed.

Lemma listLoop_done fuel k acc token :
  exists r, loop fuel k acc token false = Returned r.
Proof. destruct fuel; cbn; eauto. Qed.

Lemma listLoop_terminates fuel k acc token more :
  productive client ->
  (count - Z.of_nat (length acc) <= Z.of_nat fuel)%Z ->
  exists r, loop fuel k acc token more = Returned r.
Proof.
  intros Hprod. revert k acc token more.
  induction fuel as [|fuel IH]; intros k acc token more Hfuel;
    cbn [listLoop].
  - destruct (Z.ltb_spec (Z.of_nat (length acc)) count); [lia |].
    rewrite andb_false_r. eauto.
  - destruct (more && _) eqn:Hcond; [| eauto].
    apply andb_true_iff in Hcond as [_ Hlt]. apply Z.ltb_lt in Hlt.
    match goal with |- context [im_message_list client k ?req] =>
      destruct (Hprod k req) as (response & -> & Hcode & Hpage) end.
    rewrite Hcode. cbn [codeIsZero Z.eqb negb].
    destruct (JS.nullish (list_items response) []) as [|item rest] eqn:Hitems.
    + assert (Hmore : (if JS.truthy_opt (list_page_token response)
                       then JS.nullish (list_has_more response) false
                       else false) = false).
      { destruct Hpage as [Hp|[-> | ->]]; [congruence | reflexivity |].
        now destruct (JS.truthy_opt _). }
      rewrite Hmore. apply listLoop_done.
    + apply IH.
      pose proof (pushItems_grows count acc (item :: rest)
                    ltac:(discriminate) Hlt). lia.
Qed.

End ListingFacts.

(** C10. For a configured channel and a positive [count],
    [listMessagesFeishu] returns at most [count] messages, and the
    [total] of its result is the length of the returned [messages]: the
    number fetched by this call. It does return, within [count] requests,
    when the transport answers every request and never sends an empty
    page that announces more. *)
Theorem listMessagesFeishu_bounds
    (cfg : ClawdbotConfig) (feishuCfg : FeishuConfig) (chatId0 : JS.str)
    (count : Z) (startTime endTime pageToken0 sortType : option JS.str) :
  channels_feishu cfg = Some feishuCfg ->
  (0 < count)%Z ->
  (forall fuel r,
      listMessagesFeishu fuel cfg chatId0 (Some count) startTime endTime
        pageToken0 sortType = Returned r ->
      (Z.of_nat (length (messages r)) <= count)%Z
      /\ total r = Z.of_nat (length (messages r)))
  /\ (productive (createFeishuClient feishuCfg) ->
      exists r,
        listMessagesFeishu (Z.to_nat count) cfg chatId0 (Some count)
          startTime endTime pageToken0 sortType = Returned r
        /\ (Z.of_nat (length (messages r)) <= count)%Z
        /\ total r = Z.of_nat (length (messages r))).
Proof.
  intros Hcfg Hcount. unfold listMessagesFeishu. rewrite Hcfg.
  cbn [JS.nullish]. split.
  - intros fuel r. apply listLoop_returned. cbn. lia.
  - intros Hprod.
    destruct (listLoop_terminates (createFeishuClient feishuCfg) chatId0
                count startTime endTime
                (JS.nullish sortType (JS.lit "ByCreateTimeDesc"))
                (Z.to_nat count) 0 [] pageToken0 true Hprod)
      as [r Hr]; [cbn; lia |].
    exists r. split; [exact Hr |].
    eapply listLoop_returned; [| exact Hr]. cbn. lia.
Qed.

End SendFacts.

Section SendExamples.
Import Send.

Example get_message_found :
  getMessageFeishu
    {| channels_feishu := Some (answeringClient : @FeishuConfig exampleHost) |}
    (JS.lit "om_7")
  = JS.Normal
      (Some {| messageId := JS.lit "om_7"; chatId := JS.lit "oc_1";
               senderId := Some (JS.lit "ou_3");
               senderOpenId := Some (JS.lit "ou_3");
               content := JString (JS.lit "null");
               contentType := JS.lit "image";
               createTime := Some (0%Z : @Number exampleHost) |}).
Proof. reflexivity. Qed.

Example get_message_unconfigured :
  getMessageFeishu ({| channels_feishu := None |} : @ClawdbotConfig exampleHost)
    (JS.lit "om_7")
  = JS.Throw (JS.lit "Feishu channel not configured").
Proof. reflexivity. Qed.

Example list_three_of_paged :
  match listMessagesFeishu 3 exampleConfig (JS.lit "oc_1") (Some 3%Z)
          None None None None with
  | Returned r =>
      length (messages r) = 3%nat /\ total r = 3%Z /\ hasMore r = true
      /\ pageToken r = Some (JS.lit "next")
      /\ map h_content (messages r)
         = [JString [91; 22270; 29255; 93]%N;
            JString [91; 22270; 29255; 93]%N;
            JString [91; 22270; 29255; 93]%N]
  | _ => False
  end.
Proof. vm_compute. auto. Qed.

Lemma getMessageFeishu_never_throws_witness :
  getMessageFeishu exampleConfig (JS.lit "om_7") = JS.Normal None.
Proof.
  destruct (getMessageFeishu_never_throws exampleConfig pagingClient
              (JS.lit "om_7") eq_refl) as (result & Hres & Hthrow & _).
  rewrite Hres. f_equal. apply Hthrow. eexists. reflexivity.
Defined.

Lemma listMessagesFeishu_bounds_witness :
  exists r,
    listMessagesFeishu 3 exampleConfig (JS.lit "oc_1") (Some 3%Z)
      None None None None = Returned r
    /\ (Z.of_nat (length (messages r)) <= 3)%Z
    /\ total r = Z.of_nat (length (messages r)).
Proof.
  destruct (listMessagesFeishu_bounds exampleConfig pagingClient
              (JS.lit "oc_1") 3 None None None None eq_refl)
    as [_ Hret]; [reflexivity |].
  apply Hret. intros k req. eexists. split; [reflexivity |].
  split; [reflexivity |]. left. discriminate.
Defined.

End SendExamples.

(** ** The pending history around a turn *)

Section BotFacts.
Import Bot.

Example suppressed_message_is_recorded :
  handleFeishuMessage quietEnv openVerdict 3 100
    {| chatId := JS.lit "g1"; ctx_messageId := JS.lit "om_8";
       senderOpenId := JS.lit "ou_2"; isGroup := true; mentionedBot := false;
       parentId := None; content := JS.lit "psst";
       contentType := JS.lit "text" |}
    (Some ∅)
  = (Some {[ JS.lit "g1" :=
               [{| sender := JS.lit "ou_2"; body := JS.lit "psst";
                   timestamp := 100; messageId := Some (JS.lit "om_8") |}] ]},
     [RecordHistory (JS.lit "g1")]).
Proof. reflexivity. Qed.

Example turn_replays_and_clears :
  handleFeishuMessage quietEnv openVerdict 3 100 mention (Some oneSuppressed)
  = (Some (<[JS.lit "g1" := []]> oneSuppressed),
     [ComposeReplay (JS.lit "g1");
      Dispatch (JS.lit "[g1] ou_2: psst" ++ JS.lit "[g1] hi");
      ClearHistory (JS.lit "g1")]).
Proof. reflexivity. Qed.

Example failed_turn_keeps_history :
  handleFeishuMessage failingEnv openVerdict 3 100 mention (Some oneSuppressed)
  = (Some oneSuppressed,
     [ComposeReplay (JS.lit "g1");
      Dispatch (JS.lit "[g1] ou_2: psst" ++ JS.lit "[g1] hi")]).
Proof. reflexivity. Qed.

Example reply_is_fetched_first :
  snd (handleFeishuMessage quietEnv openVerdict 3 100 mentionInReply
         (Some oneSuppressed))
  = [FetchQuoted (JS.lit "om_5")] ++ [ComposeReplay (JS.lit "g1")]
    ++ [Dispatch (JS.lit "[g1] ou_2: psst"
                  ++ JS.lit "[g1] [Replying to: "
                  ++ [34%N] ++ JS.lit "earlier" ++ [34%N]
                  ++ JS.lit "]" ++ [10; 10]%N ++ JS.lit "hi");
        ClearHistory (JS.lit "g1")].
Proof. reflexivity. Qed.

(** C4, as the spec states it, fails: the quoted message of a reply is
    fetched over the network before the replay is composed. *)
Lemma replay_precedes_network_fails :
  ~ replay_precedes_network quietEnv openVerdict 3 100 mentionInReply
      (Some oneSuppressed).
Proof.
  intros Hclaim. specialize (Hclaim _ _ reply_is_fetched_first).
  inversion Hclaim as [|e l He _]. discriminate He.
Qed.

Lemma fetchQuoted_inbound env ctx :
  Forall (fun e => isInboundFetch e = true) (snd (fetchQuoted env ctx)).
Proof.
  unfold fetchQuoted. destruct (parentId ctx) as [parent|]; [| constructor].
  destruct (JS.truthy parent); repeat constructor.
Qed.

Lemma transcribe_inbound env ctx :
  Forall (fun e => isInboundFetch e = true) (snd (transcribe env ctx)).
Proof.
  unfold transcribe. destruct (JS.str_eqb _ _); [| constructor].
  destruct (audioFileKey env) as [[fileKey|]|]; try constructor.
  destruct (JS.truthy fileKey); repeat constructor.
Qed.

Lemma fetchHistoryContext_inbound env ctx :
  Forall (fun e => isInboundFetch e = true) (snd (fetchHistoryContext env ctx)).
Proof.
  unfold fetchHistoryContext. destruct (_ && _); repeat constructor.
Qed.

(** C4, as the code has it. In a group turn that is admitted, with a
    history map, a non-empty buffer for the conversation and a positive
    limit: when route resolution fails nothing is dispatched and the map
    is unchanged. Otherwise the turn makes its inbound fetches (quoted
    message, voice transcription, requested history), then composes the
    replay, then dispatches a body that starts with the rendered buffer,
    oldest entry first. When the dispatch returns, the buffer of the
    conversation is emptied and every other buffer is kept; when it
    throws, the map is unchanged. So the buffer is emptied exactly when
    the dispatch returns. *)
Theorem replay_composed_and_cleared_on_success
    (env : Collaborators) (verdict : PolicyVerdict) (historyLimit now : Z)
    (ctx : FeishuMessageContext) (historyMap : HistoryMap) :
  isGroup ctx = true -> JS.truthy (chatId ctx) = true ->
  groupAllowed verdict = true -> senderAllowed verdict = true ->
  requireMention verdict && negb (mentionedBot ctx) = false ->
  (0 < historyLimit)%Z ->
  entriesOf historyMap (chatId ctx) <> [] ->
  let '(after, t) :=
    handleFeishuMessage env verdict historyLimit now ctx (Some historyMap) in
  match resolveAgentRoute env with
  | JS.Throw _ => t = [] /\ after = Some historyMap
  | JS.Normal _ =>
      exists fetches body,
        Forall (fun e => isInboundFetch e = true) fetches
        /\ let combined :=
             concat (map (formatEntry env ctx)
                       (entriesOf historyMap (chatId ctx))) ++ body in
           match dispatchReplyFromConfig env combined with
           | JS.Normal _ =>
               t = fetches ++ [ComposeReplay (chatId ctx); Dispatch combined;
                               ClearHistory (chatId ctx)]
               /\ after = Some (<[chatId ctx := []]> historyMap)
           | JS.Throw _ =>
               t = fetches ++ [ComposeReplay (chatId ctx); Dispatch combined]
               /\ after = Some historyMap
           end
  end
  /\ (exists finalMap,
        after = Some finalMap
        /\ (entriesOf finalMap (chatId ctx) = [] <->
            exists body, In (Dispatch body) t
              /\ dispatchReplyFromConfig env body = JS.Normal tt)).
Proof.
  intros Hgroup Hkey Hga Hsa Hmention Hlimit Hentries.
  unfold handleFeishuMessage. rewrite Hgroup, Hga, Hsa, Hmention.
  cbn [negb]. unfold dispatchTurn, replayMap. rewrite Hgroup, Hkey.
  cbn [andb]. unfold clearHistoryEntriesIfEnabled.
  destruct (Z.ltb_spec 0 historyLimit) as [_|]; [| lia].
  destruct (resolveAgentRoute env) as [[]|msg].
  2:{ split; [auto |]. exists historyMap. split; [reflexivity |].
      split; [intros; congruence | intros (b & [] & _)]. }
  pose proof (fetchQuoted_inbound env ctx) as Hq.
  pose proof (transcribe_inbound env ctx) as Hv.
  pose proof (fetchHistoryContext_inbound env ctx) as Hh.
  destruct (fetchQuoted env ctx) as [quoted t1].
  destruct (transcribe env ctx) as [voice t2].
  destruct (fetchHistoryContext env ctx) as [history t3].
  cbn [snd] in Hq, Hv, Hh.
  unfold buildPendingHistoryContextFromMap.
  set (body := formatAgentEnvelope env _ now _).
  set (combined := concat _ ++ body).
  assert (Hf : Forall (fun e => isInboundFetch e = true) (t1 ++ t2 ++ t3)).
  { apply Forall_app. split; [exact Hq |]. apply Forall_app. now split. }
  assert (Hin : forall b tl,
            In (Dispatch b) ((t1 ++ t2 ++ t3) ++ ComposeReplay (chatId ctx)
                             :: Dispatch combined :: tl) ->
            (forall b', ~ In (Dispatch b') tl) -> b = combined).
  { intros b tl Hb Htl. apply in_app_or in Hb as [Hb|Hb].
    - rewrite List.Forall_forall in Hf. specialize (Hf _ Hb). discriminate.
    - destruct Hb as [Hb|[Hb|Hb]]; [discriminate | congruence |].
      destruct (Htl _ Hb). }
  destruct (dispatchReplyFromConfig env combined) as [[]|msg] eqn:Hd.
  - split.
    + exists (t1 ++ t2 ++ t3), body. split; [exact Hf |].
      fold combined. cbv zeta. rewrite Hd.
      split; [| reflexivity]. rewrite <- !app_assoc. reflexivity.
    + eexists. split; [reflexivity |]. split.
      * intros _. exists combined. split; [| exact Hd].
        rewrite !in_app_iff. cbn. tauto.
      * intros _. unfold entriesOf. now rewrite lookup_insert_eq.
  - split.
    + exists (t1 ++ t2 ++ t3), body. split; [exact Hf |].
      fold combined. cbv zeta. rewrite Hd.
      split; [| reflexivity]. rewrite <- !app_assoc. reflexivity.
    + eexists. split; [reflexivity |]. split; [intros; congruence |].
      intros (b & Hb & Hok).
      assert (b = combined) as ->; [| congruence].
      apply (Hin b []); [| intros b' []].
      revert Hb. rewrite <- !app_assoc. cbn [app]. auto.
Qed.

Lemma replay_composed_and_cleared_on_success_witness :
  exists finalMap,
    fst (handleFeishuMessage quietEnv openVerdict 3 100 mention
           (Some oneSuppressed)) = Some finalMap
    /\ entriesOf finalMap (JS.lit "g1") = [].
Proof.
  pose proof (replay_composed_and_cleared_on_success quietEnv openVerdict
                3 100 mention oneSuppressed eq_refl eq_refl eq_refl eq_refl
                eq_refl eq_refl ltac:(discriminate)) as Hturn.
  rewrite turn_replays_and_clears in Hturn.
  destruct Hturn as [_ (finalMap & Hafter & Hcleared)].
  exists finalMap. split; [exact Hafter |].
  apply Hcleared. eexists. split; [right; left; reflexivity | reflexivity].
Defined.

End BotFacts.

(** ** More on the streaming card controller *)

Section StreamSilence.
Import Stream StreamSpec StreamInvariants.

Lemma performUpdate_silent c m :
  isFinalized m = true -> stays_silent (performUpdate c m).
Proof.
  intros Hfin. unfold performUpdate. destruct (liveId m); [| now split].
  rewrite Hfin. now split.
Qed.

Lemma scheduleOrExecute_silent c f t m :
  isFinalized m = true -> stays_silent (scheduleOrExecute c f t m).
Proof.
  intros Hfin. unfold scheduleOrExecute.
  destruct (f || _); [now apply performUpdate_silent |].
  destruct (pendingUpdate m); now split.
Qed.

Lemma resumeAll_silent t ws m :
  isFinalized m = true -> stays_silent (resumeAll t ws m).
Proof.
  revert m. induction ws as [|w ws IH]; intros m Hfin; cbn [resumeAll].
  - now split.
  - assert (H1 : stays_silent (resume t w m)).
    { unfold resume. destruct (liveId m);
        [now apply scheduleOrExecute_silent | now split]. }
    destruct (resume t w m) as [m1 c1]. destruct H1 as [F1 C1].
    cbn [fst snd] in F1, C1. specialize (IH m1 F1).
    destruct (resumeAll t ws m1) as [m2 c2]. destruct IH as [F2 C2].
    cbn [fst snd] in *. subst. now split.
Qed.

Lemma step_silent m e : isFinalized m = true -> stays_silent (step m e).
Proof.
  intros Hfin. destruct e as [c f t|c|t|res t|k ok t|ok]; cbn [step].
  - unfold update. rewrite Hfin. now split.
  - unfold finalize. rewrite Hfin. now split.
  - unfold timerFires. destruct (pendingUpdate m) as [tm|]; [| now split].
    destruct (t_due tm <=? t)%Z; [| now split].
    now apply performUpdate_silent.
  - unfold createSettles.
    destruct (initializationPromise m); [| now split].
    apply resumeAll_silent. now destruct res.
  - unfold updateSettles. destruct (updatesInFlight m !! k); [| now split].
    now destruct ok.
  - unfold finalizeSettles. destruct (finalizesInFlight m); [now split |].
    now destruct ok.
Qed.

(** X1. Once the controller is finalized it stays finalized and no event
    makes it call the network again: later updates, timers that fire and
    calls that settle are all silent. *)
Theorem finalized_is_silent (m : FeishuStream) (es : list Event) :
  isFinalized m = true ->
  snd (run m es) = [] /\ isFinalized (fst (run m es)) = true.
Proof.
  revert m. induction es as [|e es IH]; intros m Hfin; cbn [run].
  - now split.
  - destruct (step_silent m e Hfin) as [F1 C1].
    destruct (step m e) as [m1 c1]. cbn [fst snd] in F1, C1.
    destruct (IH m1 F1) as [C2 F2].
    destruct (run m1 es) as [m2 c2]. cbn [fst snd] in *. subst. now split.
Qed.

Lemma finalized_is_silent_witness :
  snd (run (set_isFinalized true live_example)
         [CallUpdate (JS.lit "Hello") false 5000; TimerFires 6000;
          CallFinalize (JS.lit "Hello")]) = []
  /\ isFinalized
       (fst (run (set_isFinalized true live_example)
               [CallUpdate (JS.lit "Hello") false 5000; TimerFires 6000;
                CallFinalize (JS.lit "Hello")])) = true.
Proof.
  apply (finalized_is_silent (set_isFinalized true live_example)). reflexivity.
Defined.

End StreamSilence.

Section StreamTargets.
Import Stream StreamSpec StreamInvariants.

Lemma updates_live_nil m : updates_live m [].
Proof. intros call []. Qed.

Lemma updates_live_app m c1 c2 :
  updates_live m c1 -> updates_live m c2 -> updates_live m (c1 ++ c2).
Proof.
  intros H1 H2 call Hin. apply in_app_or in Hin as [Hin|Hin]; auto.
Qed.

Lemma performUpdate_live c m : updates_live m (snd (performUpdate c m)).
Proof.
  unfold performUpdate. destruct (liveId m) as [mid|] eqn:Hlive;
    [| apply updates_live_nil].
  destruct (isFinalized m); [apply updates_live_nil |].
  intros call [<-|[]]. rewrite Hlive. eauto.
Qed.

Lemma scheduleOrExecute_live c f t m :
  updates_live m (snd (scheduleOrExecute c f t m)).
Proof.
  unfold scheduleOrExecute.
  destruct (f || _); [apply performUpdate_live |].
  destruct (pendingUpdate m); apply updates_live_nil.
Qed.

Lemma resumeAll_live t ws m : updates_live m (snd (resumeAll t ws m)).
Proof.
  revert m. induction ws as [|w ws IH]; intros m; cbn [resumeAll].
  - apply updates_live_nil.
  - pose proof (resume_keeps t w m) as Hk.
    assert (H1 : updates_live m (snd (resume t w m))).
    { unfold resume. destruct (liveId m);
        [apply scheduleOrExecute_live | apply updates_live_nil]. }
    apply keeps_creation_liveId in Hk.
    destruct (resume t w m) as [m1 c1]. cbn [fst snd] in *.
    specialize (IH m1). destruct (resumeAll t ws m1) as [m2 c2].
    cbn [fst snd] in *. apply updates_live_app; [exact H1 |].
    intros call Hin. destruct (IH call Hin) as (mid & c & Hl & ->).
    exists mid, c. split; [congruence | reflexivity].
Qed.

(** One step: every update it issues goes to the live message the step
    started with or to the one a creation settling in this step recorded,
    and the live message afterwards is one of those two. *)
Lemma step_targets m e :
  (forall mid card, In (UpdateCard mid card) (snd (step m e)) ->
     liveId m = Some mid \/ createdId e = Some mid)
  /\ (forall mid, liveId (fst (step m e)) = Some mid ->
        liveId m = Some mid \/ createdId e = Some mid).
Proof.
  assert (Hlive : forall r,
            keeps_creation m r -> updates_live m (snd r) ->
            (forall mid card, In (UpdateCard mid card) (snd r) ->
               liveId m = Some mid \/ createdId e = Some mid)
            /\ (forall mid, liveId (fst r) = Some mid ->
                  liveId m = Some mid \/ createdId e = Some mid)).
  { intros r Hk Hu. split.
    - intros mid card Hin. destruct (Hu _ Hin) as (mid' & c & Hl & Heq).
      injection Heq as -> _. now left.
    - intros mid Hl. left. now rewrite <- (keeps_creation_liveId _ _ Hk). }
  destruct e as [c f t|c|t|res t|k ok t|ok]; cbn [step].
  - unfold update. destruct (isFinalized m);
      [apply Hlive; [apply keeps_creation_refl | apply updates_live_nil] |].
    destruct (JS.str_eqb _ _);
      [apply Hlive; [apply keeps_creation_refl | apply updates_live_nil] |].
    destruct (liveId m) as [mid0|] eqn:Hl.
    + apply Hlive; [apply scheduleOrExecute_keeps | apply scheduleOrExecute_live].
    + destruct (initializationPromise m); cbn [fst snd]; split.
      * intros mid card [].
      * intros mid H. change (liveId m = Some mid) in H. congruence.
      * intros mid card [H|[]]. discriminate H.
      * intros mid H. change (liveId m = Some mid) in H. congruence.
  - unfold finalize. destruct (isFinalized m);
      [apply Hlive; [apply keeps_creation_refl | apply updates_live_nil] |].
    rewrite liveId_set_pendingUpdate.
    destruct (liveId m) as [mid0|] eqn:Hl; cbn [fst snd]; split.
    + intros mid card [H|[]]. injection H as -> _. now left.
    + intros mid H. change (liveId m = Some mid) in H. left. congruence.
    + intros mid card [].
    + intros mid H. change (liveId m = Some mid) in H. congruence.
  - pose proof (timerFires_keeps t m) as Hk. apply Hlive; [exact Hk |].
    unfold timerFires. destruct (pendingUpdate m) as [tm|];
      [| apply updates_live_nil].
    destruct (t_due tm <=? t)%Z; [| apply updates_live_nil].
    pose proof (performUpdate_live (t_content tm) (set_pendingUpdate None m))
      as Hu.
    intros call Hin. destruct (Hu call Hin) as (mid & c & Hl' & ->). eauto.
  - unfold createSettles.
    destruct (initializationPromise m) as [content|];
      [| apply Hlive; [apply keeps_creation_refl | apply updates_live_nil]].
    match goal with |- context [resumeAll t (waiters m) ?m0] =>
      pose proof (resumeAll_keeps t (waiters m) m0) as Hk;
      pose proof (resumeAll_live t (waiters m) m0) as Hu;
      apply keeps_creation_liveId in Hk;
      destruct (resumeAll t (waiters m) m0) as [m2 c2];
      assert (H0 : forall mid, liveId m0 = Some mid ->
                liveId m = Some mid \/ createdId (CreateSettles res t) = Some mid)
    end.
    { intros mid. destruct res as [mid0|msg]; cbn.
      - unfold liveId. cbn. destruct (JS.truthy mid0); [auto | discriminate].
      - auto. }
    cbn [fst snd] in *. split.
    + intros mid card Hin. destruct (Hu _ Hin) as (mid' & c & Hl' & Heq).
      injection Heq as -> _. auto.
    + intros mid Hl'. apply H0. congruence.
  - apply Hlive; [apply updateSettles_keeps | apply updates_live_nil].
  - apply Hlive; [apply finalizeSettles_keeps | apply updates_live_nil].
Qed.

Lemma run_targets m es :
  (forall mid card, In (UpdateCard mid card) (snd (run m es)) ->
     liveId m = Some mid \/ exists e, In e es /\ createdId e = Some mid)
  /\ (forall mid, liveId (fst (run m es)) = Some mid ->
        liveId m = Some mid \/ exists e, In e es /\ createdId e = Some mid).
Proof.
  revert m. induction es as [|e es IH]; intros m; cbn [run].
  - split; [intros mid card [] | auto].
  - destruct (step_targets m e) as [S1 S2].
    destruct (step m e) as [m1 c1]. destruct (IH m1) as [R1 R2].
    destruct (run m1 es) as [m2 c2]. cbn [fst snd] in *.
    assert (Hfrom : forall mid,
              liveId m1 = Some mid \/ (exists e', In e' es /\ createdId e' = Some mid) ->
              liveId m = Some mid \/
              exists e', In e' (e :: es) /\ createdId e' = Some mid).
    { intros mid [H|(e' & Hin & He')].
      - destruct (S2 mid H) as [H'|H']; [now left |].
        right. exists e. split; [now left | exact H'].
      - right. exists e'. split; [now right | exact He']. }
    split.
    + intros mid card Hin. apply in_app_or in Hin as [Hin|Hin].
      * destruct (S1 mid card Hin) as [H'|H']; [now left |].
        right. exists e. split; [now left | exact H'].
      * apply Hfrom. eauto.
    + intros mid H. apply Hfrom. eauto.
Qed.

(** X2. A new controller never updates a message it did not create: every
    update issued in a run goes to a non-empty message id that a creation
    settling earlier in that run returned; without a successful creation
    no update is issued at all, whatever is called. *)
Theorem updates_follow_creation (es : list Event) (mid : JS.str) (card : Card) :
  In (UpdateCard mid card) (snd (run new es)) ->
  JS.truthy mid = true
  /\ exists t, In (CreateSettles (JS.Normal mid) t) es.
Proof.
  intros Hin. destruct (run_targets new es) as [H _].
  destruct (H mid card Hin) as [Hl|(e & He & Hc)]; [discriminate Hl |].
  destruct e as [| | |[mid0|]t| |]; try discriminate Hc. cbn in Hc.
  destruct (JS.truthy mid0) eqn:Ht; [| discriminate].
  injection Hc as <-. split; [exact Ht | eauto].
Qed.

Lemma updates_follow_creation_witness :
  JS.truthy (JS.lit "om_1") = true
  /\ exists t,
       In (CreateSettles (JS.Normal (JS.lit "om_1")) t)
         [CallUpdate (JS.lit "Hel") false 0;
          CreateSettles (JS.Normal (JS.lit "om_1")) 10;
          CallUpdate (JS.lit "Hello") false 500].
Proof.
  apply (updates_follow_creation _ (JS.lit "om_1")
           {| streaming_mode := true; markdown := JS.lit "Hello" |}).
  vm_compute. auto.
Defined.

(** X3. Only [finalize] marks a card as done: every card a step creates or
    updates carries [streaming_mode] true, except the update issued by a
    call of [finalize], which carries [streaming_mode] false. *)
Theorem done_marker_only_from_finalize (m : FeishuStream) (e : Event) :
  (forall card, In (SendCard card) (snd (step m e)) ->
     streaming_mode card = true)
  /\ (forall mid card, In (UpdateCard mid card) (snd (step m e)) ->
        streaming_mode card = match e with
                              | CallFinalize _ => false
                              | _ => true
                              end).
Proof.
  assert (Hlive : forall calls,
            updates_live m calls ->
            (forall card, In (SendCard card) calls -> streaming_mode card = true)
            /\ (forall mid card, In (UpdateCard mid card) calls ->
                  streaming_mode card = true)).
  { intros calls Hu. split.
    - intros card Hin. destruct (Hu _ Hin) as (? & ? & _ & Heq). discriminate.
    - intros mid card Hin. destruct (Hu _ Hin) as (? & ? & _ & Heq).
      now injection Heq as _ ->. }
  destruct e as [c f t|c|t|res t|k ok t|ok]; cbn [step].
  - unfold update. destruct (isFinalized m);
      [apply Hlive, updates_live_nil |].
    destruct (JS.str_eqb _ _); [apply Hlive, updates_live_nil |].
    destruct (liveId m) eqn:Hl; [apply Hlive, scheduleOrExecute_live |].
    destruct (initializationPromise m); cbn [snd]; split.
    + intros card [].
    + intros mid card [].
    + intros card [H|[]]. now injection H as <-.
    + intros mid card [H|[]]. discriminate H.
  - unfold finalize. destruct (isFinalized m); cbn [snd];
      [split; [intros card [] | intros mid card []] |].
    destruct (liveId _); cbn [snd]; split.
    + intros card [H|[]]. discriminate H.
    + intros mid card [H|[]]. now injection H as _ <-.
    + intros card [].
    + intros mid card [].
  - apply Hlive. unfold timerFires.
    destruct (pendingUpdate m) as [tm|]; [| apply updates_live_nil].
    destruct (t_due tm <=? t)%Z; [| apply updates_live_nil].
    pose proof (performUpdate_live (t_content tm) (set_pendingUpdate None m))
      as Hu.
    intros call Hin. destruct (Hu call Hin) as (mid & c & Hl' & ->). eauto.
  - unfold createSettles.
    destruct (initializationPromise m); [| apply Hlive, updates_live_nil].
    match goal with |- context [resumeAll t (waiters m) ?m0] =>
      pose proof (resumeAll_live t (waiters m) m0) as Hu end.
    split.
    + intros card Hin. destruct (Hu _ Hin) as (? & ? & _ & Heq). discriminate.
    + intros mid card Hin. destruct (Hu _ Hin) as (? & ? & _ & Heq).
      now injection Heq as _ ->.
  - apply Hlive, updates_live_nil.
  - apply Hlive, updates_live_nil.
Qed.

End StreamTargets.

Section StreamRepeats.
Import Stream StreamSpec.

(** X4. Identical content is suppressed only once it has been sent: on a
    live controller whose debounce interval has elapsed, [update(c)]
    issues one network update, and after that update has succeeded a
    repeated [update(c)] issues nothing; a repeated [update(c)] that
    arrives before the first one has settled is sent a second time. *)
Theorem repeated_content_suppressed_after_success
    (m : FeishuStream) (mid c : JS.str) (t1 t2 t3 : Z) :
  liveId m = Some mid -> isFinalized m = false -> updatesInFlight m = [] ->
  c <> lastContent m ->
  (STREAM_UPDATE_INTERVAL_MS <= t1 - lastUpdateTime m)%Z ->
  (STREAM_UPDATE_INTERVAL_MS <= t3 - lastUpdateTime m)%Z ->
  snd (run m [CallUpdate c false t1; UpdateSettles 0 true t2;
              CallUpdate c false t3])
  = [UpdateCard mid (createSimpleTextCard c true)]
  /\ snd (run m [CallUpdate c false t1; CallUpdate c false t3])
     = [UpdateCard mid (createSimpleTextCard c true);
        UpdateCard mid (createSimpleTextCard c true)].
Proof.
  intros Hlive Hfin Hflight Hc Ht1 Ht3.
  assert (Hfirst : update c false t1 m
                   = (set_updatesInFlight [c] m,
                      [UpdateCard mid (createSimpleTextCard c true)])).
  { unfold update, scheduleOrExecute, performUpdate, JS.str_eqb.
    rewrite Hfin, bool_decide_eq_false_2, Hlive by exact Hc. cbn [orb].
    destruct (Z.leb_spec STREAM_UPDATE_INTERVAL_MS (t1 - lastUpdateTime m));
      [| lia].
    now rewrite Hflight. }
  split.
  - cbn [run step]. rewrite Hfirst. cbn [updateSettles].
    unfold updateSettles. cbn [updatesInFlight set_updatesInFlight lookup].
    cbn. unfold update. cbn [isFinalized set_sent set_updatesInFlight lastContent].
    rewrite Hfin. unfold JS.str_eqb.
    rewrite bool_decide_eq_true_2 by reflexivity. reflexivity.
  - cbn [run step]. rewrite Hfirst.
    unfold update, scheduleOrExecute, performUpdate, JS.str_eqb, liveId.
    cbn [isFinalized set_updatesInFlight lastContent messageId lastUpdateTime
         updatesInFlight].
    unfold liveId in Hlive.
    rewrite Hfin, bool_decide_eq_false_2, Hlive by exact Hc. cbn [orb].
    destruct (Z.leb_spec STREAM_UPDATE_INTERVAL_MS (t3 - lastUpdateTime m));
      [| lia].
    reflexivity.
Qed.

Lemma repeated_content_suppressed_after_success_witness :
  snd (run live_example
         [CallUpdate (JS.lit "Hello") false 1500; UpdateSettles 0 true 1600;
          CallUpdate (JS.lit "Hello") false 2100])
  = [UpdateCard (JS.lit "om_1") (createSimpleTextCard (JS.lit "Hello") true)]
  /\ snd (run live_example
            [CallUpdate (JS.lit "Hello") false 1500;
             CallUpdate (JS.lit "Hello") false 2100])
     = [UpdateCard (JS.lit "om_1") (createSimpleTextCard (JS.lit "Hello") true);
        UpdateCard (JS.lit "om_1") (createSimpleTextCard (JS.lit "Hello") true)].
Proof.
  apply (repeated_content_suppressed_after_success live_example
           (JS.lit "om_1") (JS.lit "Hello") 1500 1600 2100);
    first [reflexivity | discriminate | (vm_compute; congruence)].
Defined.

Lemma resumeAll_dropped now ws m mid tm :
  liveId m = Some mid -> pendingUpdate m = Some tm ->
  (now - lastUpdateTime m < STREAM_UPDATE_INTERVAL_MS)%Z ->
  Forall (fun w => w_isFinal w = false) ws ->
  resumeAll now ws m = (m, []).
Proof.
  intros Hlive Hpend Ht Hws. induction Hws as [|w ws Hw _ IH]; [reflexivity |].
  cbn [resumeAll]. unfold resume at 1, scheduleOrExecute.
  rewrite Hlive, Hw, Hpend. cbn [orb].
  destruct (Z.leb_spec STREAM_UPDATE_INTERVAL_MS (now - lastUpdateTime m));
    [lia |].
  now rewrite IH.
Qed.

Lemma resumeAll_not_live now ws m :
  liveId m = None -> resumeAll now ws m = (m, []).
Proof.
  intros Hlive. induction ws as [|w ws IH]; [reflexivity |].
  cbn [resumeAll]. unfold resume at 1. now rewrite Hlive, IH.
Qed.

(** X5. The updates parked during a creation: when the creation succeeds
    with a non-empty message id, the controller records the id and the
    created content, issues no network call, and schedules only the first
    parked update, one debounce interval later; the later parked updates
    are dropped. When the creation fails, every parked update returns
    without effect and the controller is back where no message exists. *)
Theorem creation_settles_parked_updates
    (m : FeishuStream) (c0 mid msg : JS.str) (now : Z)
    (w : Waiter) (ws : list Waiter) :
  initializationPromise m = Some c0 -> liveId m = None ->
  pendingUpdate m = None -> waiters m = w :: ws ->
  Forall (fun w => w_isFinal w = false) (w :: ws) ->
  JS.truthy mid = true ->
  createSettles (JS.Normal mid) now m
  = (set_pendingUpdate
       (Some {| t_content := w_content w;
                t_due := (now + STREAM_UPDATE_INTERVAL_MS)%Z |})
       (set_initialization None []
          (set_sent c0 now (set_messageId mid m))), [])
  /\ createSettles (JS.Throw msg) now m = (set_initialization None [] m, []).
Proof.
  intros Hinit Hlive Hpend Hws Hfinal Htruthy.
  inversion Hfinal as [|w' ws' Hw Hrest]; subst.
  unfold createSettles. rewrite Hinit, Hws. split.
  - cbn [resumeAll]. unfold resume at 1, scheduleOrExecute.
    assert (Hl : liveId (set_initialization None []
                           (set_sent c0 now (set_messageId mid m)))
                 = Some mid).
    { unfold liveId. cbn. now rewrite Htruthy. }
    rewrite Hl, Hw. cbn [orb lastUpdateTime set_initialization set_sent
                         pendingUpdate set_messageId].
    rewrite Hpend, Z.sub_diag. cbn [Z.leb Z.compare STREAM_UPDATE_INTERVAL_MS].
    rewrite Z.sub_0_r.
    erewrite resumeAll_dropped; [reflexivity | exact Hl | reflexivity | | exact Hrest].
    cbn. rewrite Z.sub_diag. reflexivity.
  - apply resumeAll_not_live. exact Hlive.
Qed.

Lemma creation_settles_parked_updates_witness :
  createSettles (JS.Normal (JS.lit "om_1")) 10
    (fst (run new [CallUpdate (JS.lit "Hel") false 0;
                   CallUpdate (JS.lit "Hello") false 5;
                   CallUpdate (JS.lit "Hello, w") false 7]))
  = (set_pendingUpdate
       (Some {| t_content := JS.lit "Hello"; t_due := 410 |})
       (set_initialization None []
          (set_sent (JS.lit "Hel") 10
             (set_messageId (JS.lit "om_1")
                (fst (run new [CallUpdate (JS.lit "Hel") false 0;
                               CallUpdate (JS.lit "Hello") false 5;
                               CallUpdate (JS.lit "Hello, w") false 7]))))), [])
  /\ createSettles (JS.Throw (JS.lit "failed")) 10
       (fst (run new [CallUpdate (JS.lit "Hel") false 0;
                      CallUpdate (JS.lit "Hello") false 5;
                      CallUpdate (JS.lit "Hello, w") false 7]))
     = (set_initialization None []
          (fst (run new [CallUpdate (JS.lit "Hel") false 0;
                         CallUpdate (JS.lit "Hello") false 5;
                         CallUpdate (JS.lit "Hello, w") false 7])), []).
Proof.
  apply (creation_settles_parked_updates _ (JS.lit "Hel") (JS.lit "om_1")
           (JS.lit "failed") 10
           {| w_content := JS.lit "Hello"; w_isFinal := false |}
           [{| w_content := JS.lit "Hello, w"; w_isFinal := false |}]);
    try reflexivity.
  repeat constructor.
Defined.

End StreamRepeats.

(** ** More on the reply dispatcher *)

Section TypingIdempotence.
Import Dispatcher Typing.
Context `{TextRuntime}.
Variable params : Params.

Lemma startTail_twice add w w1 :
  startTail params add w = (w1, JS.Normal tt) ->
  startTail params add w1 = (w1, JS.Normal tt).
Proof.
  unfold startTail. destruct (replyToMessageId params) as [target|];
    [| now intros [= <-]].
  destruct (JS.truthy target); [| now intros [= <-]].
  destruct (typingState w) as [st|] eqn:Hst.
  - intros [= <-]. now rewrite Hst.
  - unfold bind. destruct (add target w) as [w' [st|msg]]; [| discriminate].
    unfold set_typingState. intros [= <-]. reflexivity.
Qed.

(** X6. [start] and [stop] are idempotent, whatever the indicator helpers
    do: after a [start] that returned, a second [start] changes nothing and
    calls no helper (in both revisions), so at most one indicator is
    recorded until [stop]; after a [stop] that returned, a second [stop]
    changes nothing and calls no helper. *)
Theorem typing_callbacks_idempotent
    (add : JS.str -> M TypingIndicatorState)
    (remove : TypingIndicatorState -> M unit) (oracle : Oracle)
    (w w1 : World) :
  (start params add w = (w1, JS.Normal tt) ->
   start params add w1 = (w1, JS.Normal tt))
  /\ (start_plain params add w = (w1, JS.Normal tt) ->
      start_plain params add w1 = (w1, JS.Normal tt))
  /\ (stopWith remove w = (w1, JS.Normal tt) ->
      stopWith remove w1 = (w1, JS.Normal tt))
  /\ (stop oracle w = (w1, JS.Normal tt) ->
      stop oracle w1 = (w1, JS.Normal tt)).
Proof.
  assert (Hstop : forall rm, stopWith rm w = (w1, JS.Normal tt) ->
                             stopWith rm w1 = (w1, JS.Normal tt)).
  { intros rm. unfold stopWith. destruct (typingState w) as [st|] eqn:Hst.
    - unfold bind. destruct (rm st w) as [w' [[]|msg]]; [| discriminate].
      unfold set_typingState. intros [= <-]. reflexivity.
    - intros [= <-]. now rewrite Hst. }
  split; [| split; [apply startTail_twice | split; [apply Hstop |]]].
  - unfold start. destruct (streamHasMessage w) eqn:Hs.
    + intros [= <-]. now rewrite Hs.
    + intros Hfirst. rewrite (startTail_twice _ _ _ Hfirst).
      now destruct (streamHasMessage w1).
  - apply Hstop.
Qed.

End TypingIdempotence.

Section TypingExamples.
Import Dispatcher Typing.

Example start_then_start :
  start exampleParams markingIndicator
    (fst (start exampleParams markingIndicator idle))
  = ({| typingState := Some {| ti_target := JS.lit "om_0";
                               ti_marker := JS.lit "r_1" |};
        currentStream := None; trace := [] |}, JS.Normal tt).
Proof. reflexivity. Qed.

End TypingExamples.

Section DeliverStreamed.
Import Dispatcher.
Context `{TextRuntime}.
Variable oracle : Oracle.
Variable params : Params.

(** X7. The final delivery of a turn that streamed: [deliver] finalizes
    the stream and forgets it, and never sends a chunk. It returns
    normally even when the finalizing update fails. Its only transport
    operation is the update that marks the live card as done with the
    final text, issued when the stream has a live message and is not
    finalized yet; otherwise it calls nothing. *)
Theorem deliver_finalizes_stream
    (text : JS.str) (s : Stream.FeishuStream) (w : World) :
  currentStream w = Some s -> JS.trim text <> [] ->
  let '(w', r) := deliver oracle params (Some text) w in
  r = JS.Normal tt
  /\ currentStream w' = None
  /\ typingState w' = typingState w
  /\ trace w' = trace w ++
       match Stream.liveId s with
       | Some mid =>
           if Stream.isFinalized s then []
           else
             let op := UpdateCard mid
                         {| Stream.streaming_mode := false;
                            Stream.markdown := JS.or_else text (JS.lit "...") |} in
             [Started op; Settled op (oracle (startedCount (trace w)) op)]
       | None => []
       end.
Proof.
  intros Hs Ht. unfold deliver. cbn [JS.nullish].
  destruct (JS.trim text) eqn:Htrim; [congruence |].
  cbn [JS.truthy negb]. rewrite Hs.
  unfold bind, finalizeStream, Stream.finalize.
  destruct (Stream.isFinalized s) eqn:Hfin.
  - cbn. destruct (Stream.liveId s); now rewrite app_nil_r.
  - rewrite liveId_set_pendingUpdate.
    destruct (Stream.liveId s) as [mid|]; cbn.
    + repeat split.
    + now rewrite app_nil_r.
Qed.

End DeliverStreamed.

Section DeliverStreamedExamples.
Import Dispatcher.

Lemma deliver_finalizes_stream_witness :
  let '(w', r) :=
    deliver failing exampleParams (Some (JS.lit "Hello"))
      {| typingState := None; currentStream := Some StreamSpec.live_example;
         trace := [] |} in
  r = JS.Normal tt
  /\ currentStream w' = None
  /\ typingState w' = None
  /\ trace w' =
       [Started (UpdateCard (JS.lit "om_1")
                   {| Stream.streaming_mode := false;
                      Stream.markdown := JS.lit "Hello" |});
        Settled (UpdateCard (JS.lit "om_1")
                   {| Stream.streaming_mode := false;
                      Stream.markdown := JS.lit "Hello" |}) false].
Proof.
  apply (deliver_finalizes_stream failing exampleParams (JS.lit "Hello")
           StreamSpec.live_example
           {| typingState := None; currentStream := Some StreamSpec.live_example;
              trace := [] |}); [reflexivity | vm_compute; discriminate].
Defined.

End DeliverStreamedExamples.

(** ** More on the dispatch of an inbound message *)

Section TurnFacts.
Import Bot BotSpec.
Variable env : Collaborators.
Variable verdict : PolicyVerdict.
Variables historyLimit now : Z.
Variable ctx : FeishuMessageContext.

Lemma inbound_not_dispatch t :
  Forall (fun e => isInboundFetch e = true) t ->
  List.filter isDispatch t = [].
Proof.
  induction 1 as [|e t He _ IH]; [reflexivity |].
  cbn. destruct e; try discriminate He; exact IH.
Qed.

Lemma fetches_inbound :
  Forall (fun e => isInboundFetch e = true)
    (snd (fetchQuoted env ctx) ++ snd (transcribe env ctx)
       ++ snd (fetchHistoryContext env ctx)).
Proof.
  apply Forall_app. split; [apply fetchQuoted_inbound |].
  apply Forall_app. split;
    [apply transcribe_inbound | apply fetchHistoryContext_inbound].
Qed.

(** The shape of every admitted turn: inbound fetches, then at most the
    composition of the replay, one dispatch and the clearing. *)
Lemma dispatchTurn_shape chatHistories :
  snd (dispatchTurn env historyLimit now ctx chatHistories) = []
  \/ exists fetches compose body clear,
       snd (dispatchTurn env historyLimit now ctx chatHistories)
       = fetches ++ compose ++ [Dispatch body] ++ clear
       /\ fetches = snd (fetchQuoted env ctx) ++ snd (transcribe env ctx)
                    ++ snd (fetchHistoryContext env ctx)
       /\ (compose = [] \/ compose = [ComposeReplay (chatId ctx)])
       /\ (clear = [] \/ clear = [ClearHistory (chatId ctx)])
       /\ (replayMap ctx chatHistories = None -> compose = [] /\ clear = []).
Proof.
  unfold dispatchTurn.
  destruct (resolveAgentRoute env) as [[]|msg]; [| now left]. right.
  destruct (fetchQuoted env ctx) as [quoted t1].
  destruct (transcribe env ctx) as [voice t2].
  destruct (fetchHistoryContext env ctx) as [history t3]. cbn [snd].
  destruct (replayMap ctx chatHistories) as [historyMap|].
  - match goal with |- context [dispatchReplyFromConfig env ?b] =>
      destruct (dispatchReplyFromConfig env b) as [[]|msg];
      [exists (t1 ++ t2 ++ t3), [ComposeReplay (chatId ctx)], b,
         [ClearHistory (chatId ctx)]
      | exists (t1 ++ t2 ++ t3), [ComposeReplay (chatId ctx)], b, []] end;
      cbn [snd]; rewrite <- ?app_assoc; intuition (auto; discriminate).
  - match goal with |- context [dispatchReplyFromConfig env ?b] =>
      exists (t1 ++ t2 ++ t3), [], b, [];
      destruct (dispatchReplyFromConfig env b) as [[]|msg] end;
      cbn [snd]; rewrite <- ?app_assoc; intuition auto.
Qed.

(** X8. A message that the policy gate does not admit (a group or sender
    that is not allowed, a group message that does not mention the bot
    where a mention is required, a direct message whose sender is not
    allowed) never reaches the network: the turn makes no fetch and no
    dispatch. And no turn dispatches more than once. *)
Theorem only_admitted_messages_reach_network
    (chatHistories : option HistoryMap) :
  let t := snd (handleFeishuMessage env verdict historyLimit now ctx
                  chatHistories) in
  (admitted verdict ctx = false ->
   Forall (fun e => isNetworkCall e = false) t)
  /\ (length (List.filter isDispatch t) <= 1)%nat.
Proof.
  assert (Hquiet : forall t : list TurnEvent,
            t = [] \/ t = [RecordHistory (chatId ctx)] ->
            Forall (fun e => isNetworkCall e = false) t
            /\ (length (List.filter isDispatch t) <= 1)%nat).
  { intros t [->| ->]; split; cbn; repeat constructor. }
  assert (Hturn : (length (List.filter isDispatch
                     (snd (dispatchTurn env historyLimit now ctx chatHistories)))
                   <= 1)%nat).
  { destruct (dispatchTurn_shape chatHistories)
      as [->|(f & c & b & cl & -> & -> & Hc & Hcl & _)]; [cbn; lia |].
    rewrite List.filter_app, (inbound_not_dispatch _ fetches_inbound).
    destruct Hc as [->| ->], Hcl as [->| ->]; cbn; lia. }
  cbv zeta. unfold handleFeishuMessage, admitted.
  destruct (isGroup ctx).
  - destruct (groupAllowed verdict); cbn [negb andb];
      [| split; [intros _ |]; apply Hquiet; auto].
    destruct (senderAllowed verdict); cbn [negb andb];
      [| split; [intros _ |]; apply Hquiet; auto].
    destruct (requireMention verdict && negb (mentionedBot ctx)); cbn [negb].
    + destruct chatHistories; split; try intros _; apply Hquiet; auto.
    + split; [discriminate | exact Hturn].
  - destruct (dmAllowed verdict); cbn [negb];
      [split; [discriminate | exact Hturn] |].
    split; [intros _ |]; apply Hquiet; auto.
Qed.

(** X9. A direct message never touches the pending history: whatever the
    collaborators answer, the history map is returned unchanged and the
    turn neither records, composes, clears nor fetches a group history. *)
Theorem direct_message_leaves_history (chatHistories : option HistoryMap) :
  isGroup ctx = false ->
  fst (handleFeishuMessage env verdict historyLimit now ctx chatHistories)
  = chatHistories
  /\ Forall (fun e => touchesHistory e = false)
       (snd (handleFeishuMessage env verdict historyLimit now ctx
               chatHistories)).
Proof.
  intros Hdm. unfold handleFeishuMessage. rewrite Hdm.
  destruct (dmAllowed verdict); cbn [negb]; [| split; [reflexivity | constructor]].
  unfold dispatchTurn, replayMap, fetchHistoryContext. rewrite Hdm. cbn [andb].
  destruct (resolveAgentRoute env) as [[]|msg];
    [| split; [reflexivity | constructor]].
  pose proof (fetchQuoted_inbound env ctx) as Hq.
  pose proof (transcribe_inbound env ctx) as Hv.
  assert (Hin : forall t, Forall (fun e => isInboundFetch e = true) t ->
                  Forall (fun e => e <> FetchHistory) t ->
                  Forall (fun e => touchesHistory e = false) t).
  { intros t H1. induction H1 as [|e t He _ IH]; [constructor |].
    intros H2. inversion H2; subst. constructor; [| now apply IH].
    destruct e; try discriminate He; [reflexivity | reflexivity | congruence]. }
  assert (Hq' : Forall (fun e => e <> FetchHistory) (snd (fetchQuoted env ctx))).
  { unfold fetchQuoted. destruct (parentId ctx) as [p|]; [| constructor].
    destruct (JS.truthy p); repeat constructor; discriminate. }
  assert (Hv' : Forall (fun e => e <> FetchHistory) (snd (transcribe env ctx))).
  { unfold transcribe. destruct (JS.str_eqb _ _); [| constructor].
    destruct (audioFileKey env) as [[k|]|]; try constructor.
    destruct (JS.truthy k); repeat constructor; discriminate. }
  destruct (fetchQuoted env ctx) as [quoted t1].
  destruct (transcribe env ctx) as [voice t2]. cbn [snd] in *.
  match goal with |- context [dispatchReplyFromConfig env ?b] =>
    destruct (dispatchReplyFromConfig env b) end; cbn [fst snd];
    (split; [reflexivity |]);
    (apply Forall_app; split; [now apply Hin |]);
    (apply Forall_app; split; [now apply Hin |]); repeat constructor.
Qed.

(** X10. The text of the user always ends the message an admitted turn
    hands to the agent: the dispatched body is the replay (empty without
    a history map) followed by the envelope of a message body made of
    context (history, quoted message, transcription) followed by the
    content of the message. *)
Theorem dispatched_body_ends_with_content
    (chatHistories : option HistoryMap) (body : JS.str) :
  In (Dispatch body)
    (snd (handleFeishuMessage env verdict historyLimit now ctx chatHistories)) ->
  exists replay context,
    body = replay
           ++ formatAgentEnvelope env
                (if isGroup ctx then chatId ctx else senderOpenId ctx) now
                (context ++ content ctx)
    /\ (replayMap ctx chatHistories = None -> replay = []).
Proof.
  assert (Hbody : forall v q, exists context,
            messageBodyOf ctx v q = context ++ content ctx).
  { intros v q. unfold messageBodyOf.
    destruct (JS.truthy q), (JS.truthy v).
    - eexists. rewrite !app_assoc. reflexivity.
    - eexists. rewrite !app_assoc. reflexivity.
    - eexists. rewrite !app_assoc. reflexivity.
    - exists []. reflexivity. }
  assert (Hturn : In (Dispatch body)
                    (snd (dispatchTurn env historyLimit now ctx chatHistories)) ->
                  exists replay context,
                    body = replay
                           ++ formatAgentEnvelope env
                                (if isGroup ctx then chatId ctx
                                 else senderOpenId ctx) now
                                (context ++ content ctx)
                    /\ (replayMap ctx chatHistories = None -> replay = [])).
  { unfold dispatchTurn.
    destruct (resolveAgentRoute env) as [[]|msg]; [| intros []].
    pose proof (fetchQuoted_inbound env ctx) as Hq.
    pose proof (transcribe_inbound env ctx) as Hv.
    pose proof (fetchHistoryContext_inbound env ctx) as Hh.
    destruct (fetchQuoted env ctx) as [quoted t1].
    destruct (transcribe env ctx) as [voice t2].
    destruct (fetchHistoryContext env ctx) as [history t3]. cbn [snd] in *.
    destruct (Hbody voice quoted) as [context Hctx]. rewrite Hctx.
    assert (Hno : forall t, Forall (fun e => isInboundFetch e = true) t ->
                    ~ In (Dispatch body) t).
    { intros t Ht Hin. rewrite List.Forall_forall in Ht.
      specialize (Ht _ Hin). discriminate. }
    unfold buildPendingHistoryContextFromMap.
    destruct (replayMap ctx chatHistories) as [historyMap|];
      match goal with |- context [dispatchReplyFromConfig env ?b] =>
        destruct (dispatchReplyFromConfig env b) end; cbn [snd];
      rewrite ?in_app_iff; cbn [In];
      intros Hin;
      repeat match type of Hin with
             | _ \/ _ => destruct Hin as [Hin|Hin]
             | False => destruct Hin
             end;
      try (exfalso; refine (Hno _ _ Hin); assumption);
      try discriminate Hin;
      injection Hin as <-.
    - eexists _, (history ++ context).
      rewrite <- (app_assoc history context (content ctx)).
      split; [reflexivity | discriminate].
    - eexists _, (history ++ context).
      rewrite <- (app_assoc history context (content ctx)).
      split; [reflexivity | discriminate].
    - exists [], (history ++ context).
      rewrite <- (app_assoc history context (content ctx)).
      split; [reflexivity | reflexivity].
    - exists [], (history ++ context).
      rewrite <- (app_assoc history context (content ctx)).
      split; [reflexivity | reflexivity]. }
  unfold handleFeishuMessage.
  destruct (isGroup ctx).
  - destruct (negb (groupAllowed verdict)); [intros [] |].
    destruct (negb (senderAllowed verdict)); [intros [] |].
    destruct (requireMention verdict && negb (mentionedBot ctx)).
    + destruct chatHistories; cbn; intros H; intuition discriminate.
    + exact Hturn.
  - destruct (negb (dmAllowed verdict)); [intros [] | exact Hturn].
Qed.

End TurnFacts.

Section TurnExamples.
Import Bot BotSpec.

Lemma direct_message_leaves_history_witness :
  fst (handleFeishuMessage quietEnv openVerdict 3 100 directReply
         (Some oneSuppressed)) = Some oneSuppressed
  /\ Forall (fun e => touchesHistory e = false)
       (snd (handleFeishuMessage quietEnv openVerdict 3 100 directReply
               (Some oneSuppressed))).
Proof.
  apply (direct_message_leaves_history quietEnv openVerdict 3 100 directReply).
  reflexivity.
Defined.

Lemma dispatched_body_ends_with_content_witness :
  exists replay context,
    JS.lit "[g1] ou_2: psst" ++ JS.lit "[g1] hi"
    = replay
      ++ formatAgentEnvelope quietEnv
           (if isGroup mention then chatId mention else senderOpenId mention)
           100 (context ++ content mention)
    /\ (replayMap mention (Some oneSuppressed) = None -> replay = []).
Proof.
  apply (dispatched_body_ends_with_content quietEnv openVerdict 3 100 mention
           (Some oneSuppressed)).
  rewrite turn_replays_and_clears. right. left. reflexivity.
Defined.

End TurnExamples.

(** ** More on the message queries *)

Section ListingOrder.
Import Send SendSpec.
Context `{Host}.

Lemma pushItems_take count acc items :
  pushItems count acc items
  = acc ++ map toHistoryMessage (take (Z.to_nat count - length acc) items).
Proof.
  revert acc. induction items as [|item rest IH]; intros acc; cbn [pushItems].
  - rewrite take_nil. cbn [map]. now rewrite app_nil_r.
  - destruct (Z.leb_spec count (Z.of_nat (length acc))).
    + replace (Z.to_nat count - length acc)%nat with 0%nat by lia.
      now rewrite app_nil_r.
    + rewrite IH, List.length_app. cbn [length].
      replace (Z.to_nat count - length acc)%nat
        with (S (Z.to_nat count - (length acc + 1)))%nat by lia.
      cbn [take map]. now rewrite <- app_assoc.
Qed.

Section Loop.
Variable client : Client.
Variable chatId0 : JS.str.
Variable count : Z.
Variables startTime endTime : option JS.str.
Variable sortType : JS.str.

Local Abbreviation loop :=
  (listLoop client chatId0 count startTime endTime sortType).
Local Abbreviation pages :=
  (pagesFrom client chatId0 count startTime endTime sortType).

Lemma listLoop_order fuel k acc token more r :
  loop fuel k acc token more = Returned r ->
  exists n, (n <= fuel)%nat
    /\ messages r
       = acc ++ map toHistoryMessage
                  (take (Z.to_nat count - length acc) (pages n k token)).
Proof.
  revert k acc token more.
  induction fuel as [|fuel IH]; intros k acc token more; cbn [listLoop].
  - destruct (more && _); [discriminate |]. intros [= <-]. exists 0%nat.
    cbn [pagesFrom messages]. rewrite take_nil. cbn [map].
    now rewrite app_nil_r.
  - destruct (more && _).
    2:{ intros [= <-]. exists 0%nat. cbn [pagesFrom messages].
        rewrite take_nil. cbn [map]. split; [lia | now rewrite app_nil_r]. }
    destruct (im_message_list _ _ _) as [response|msg] eqn:Hresp;
      [| discriminate].
    destruct (negb _); [discriminate |].
    intros Hr. apply IH in Hr as (n & Hn & Hr). exists (S n).
    split; [lia |]. rewrite Hr. cbn [pagesFrom]. rewrite Hresp.
    rewrite pushItems_take, <- app_assoc. f_equal.
    rewrite <- map_app. f_equal.
    rewrite take_app, List.length_app, length_map, length_take.
    f_equal. f_equal. lia.
Qed.

Lemma listLoop_more fuel k acc token more r :
  loop fuel k acc token more = Returned r ->
  hasMore r = true ->
  (count <= Z.of_nat (length (messages r)))%Z
  /\ (JS.truthy_opt (pageToken r) = true
      \/ (messages r = acc /\ pageToken r = token)).
Proof.
  revert k acc token more.
  assert (Hexit : forall acc token more,
            more && (Z.of_nat (length acc) <? count)%Z = false ->
            Returned {| messages := acc; hasMore := more; pageToken := token;
                        total := Z.of_nat (length acc) |} = Returned r ->
            hasMore r = true ->
            (count <= Z.of_nat (length (messages r)))%Z
            /\ (JS.truthy_opt (pageToken r) = true
                \/ (messages r = acc /\ pageToken r = token))).
  { intros acc token more Hcond [= <-]. cbn. intros ->.
    cbn in Hcond. apply Z.ltb_ge in Hcond. auto. }
  induction fuel as [|fuel IH]; intros k acc token more; cbn [listLoop].
  - destruct (more && _) eqn:Hcond; [discriminate | now apply Hexit].
  - destruct (more && _) eqn:Hcond; [| now apply Hexit].
    destruct (im_message_list _ _ _) as [response|msg]; [| discriminate].
    destruct (negb _); [discriminate |].
    intros Hr Hmore. destruct (IH _ _ _ _ Hr Hmore) as [Hlen Htok].
    split; [exact Hlen |]. left. destruct Htok as [Htok|[_ Htok]]; [exact Htok |].
    (* the loop returned right after this request: [more'] is [hasMore r] *)
    clear IH. destruct fuel; cbn [listLoop] in Hr.
    + destruct (_ && _) eqn:Hc2 in Hr; [discriminate |].
      injection Hr as <-. cbn in Hmore, Htok |- *.
      destruct (JS.truthy_opt (list_page_token response)); [reflexivity |].
      discriminate.
    + rewrite Htok.
      destruct (JS.truthy_opt (list_page_token response)) eqn:Ht;
        [reflexivity |].
      cbn [andb] in Hr. injection Hr as <-. discriminate.
Qed.

End Loop.

(** X11. The messages [listMessagesFeishu] returns are the first [count]
    items of the pages it fetched, converted one by one, in the order the
    transport sent them: no item is skipped, duplicated or reordered, and
    the pages follow each other by their page tokens. *)
Theorem listMessagesFeishu_keeps_page_order
    (fuel : nat) (cfg : ClawdbotConfig) (feishuCfg : FeishuConfig)
    (chatId0 : JS.str) (count : Z)
    (startTime endTime pageToken0 sortType : option JS.str)
    (r : ListMessagesResult) :
  channels_feishu cfg = Some feishuCfg ->
  listMessagesFeishu fuel cfg chatId0 (Some count) startTime endTime
    pageToken0 sortType = Returned r ->
  exists n, (n <= fuel)%nat
    /\ messages r
       = map toHistoryMessage
           (take (Z.to_nat count)
              (pagesFrom (createFeishuClient feishuCfg) chatId0 count
                 startTime endTime
                 (JS.nullish sortType (JS.lit "ByCreateTimeDesc"))
                 n 0 pageToken0)).
Proof.
  intros Hcfg. unfold listMessagesFeishu. rewrite Hcfg. cbn [JS.nullish].
  intros Hr. apply listLoop_order in Hr as (n & Hn & Hr). exists n.
  split; [exact Hn |]. rewrite Hr. cbn. now rewrite Nat.sub_0_r.
Qed.

(** X12. What [hasMore] means in the result of [listMessagesFeishu]: for
    a positive [count], [hasMore] is true only when exactly [count]
    messages were returned and the returned page token is a non-empty
    string to continue from. For a [count] that is not positive, no
    request is made at all and the empty result still says [hasMore]. *)
Theorem listMessagesFeishu_hasMore
    (fuel : nat) (cfg : ClawdbotConfig) (feishuCfg : FeishuConfig)
    (chatId0 : JS.str) (count : Z)
    (startTime endTime pageToken0 sortType : option JS.str) :
  channels_feishu cfg = Some feishuCfg ->
  ((0 < count)%Z ->
   forall r,
     listMessagesFeishu fuel cfg chatId0 (Some count) startTime endTime
       pageToken0 sortType = Returned r ->
     hasMore r = true ->
     Z.of_nat (length (messages r)) = count
     /\ JS.truthy_opt (pageToken r) = true)
  /\ ((count <= 0)%Z ->
      listMessagesFeishu fuel cfg chatId0 (Some count) startTime endTime
        pageToken0 sortType
      = Returned {| messages := []; hasMore := true;
                    pageToken := pageToken0; total := 0 |}).
Proof.
  intros Hcfg. unfold listMessagesFeishu. rewrite Hcfg. cbn [JS.nullish].
  split.
  - intros Hpos r Hr Hmore.
    pose proof Hr as Hle. apply listLoop_returned in Hle as [Hle _];
      [| cbn; lia].
    destruct (listLoop_more _ _ _ _ _ _ _ _ _ _ _ r Hr Hmore) as [Hge Htok].
    split; [lia |]. destruct Htok as [Htok|[Hnil _]]; [exact Htok |].
    rewrite Hnil in Hge. cbn in Hge. lia.
  - intros Hneg. destruct fuel; cbn [listLoop length andb];
      destruct (Z.ltb_spec (Z.of_nat 0) count); try lia; reflexivity.
Qed.

(** X13. How [listMessagesFeishu] renders the content of an item that is
    not a text with a [text] field: an image, file, audio, video, sticker,
    card or share message is shown as its label only when its body is
    valid JSON; when the body does not parse, the raw body is kept. *)
Theorem parseListContent_label
    (item : MessageItem) (ty l : JS.str) :
  msg_type item = Some ty -> label ty = Some l ->
  let raw := JS.nullish (body_content item) [] in
  ((exists parsed, JSON_parse raw = JS.Normal parsed) ->
   parseListContent item = JString l)
  /\ ((exists msg, JSON_parse raw = JS.Throw msg) ->
      parseListContent item = JString raw).
Proof.
  intros Hty Hl raw.
  assert (Hnot : isType item (JS.lit "text") = false).
  { unfold isType. rewrite Hty. unfold JS.str_eqb.
    destruct (bool_decide_reflect (ty = JS.lit "text")) as [->|]; [| reflexivity].
    vm_compute in Hl. discriminate. }
  unfold parseListContent, textOf. fold raw. rewrite Hnot, Hty, Hl. split.
  - intros [parsed ->]. reflexivity.
  - intros [msg ->]. reflexivity.
Qed.

(** X14. How [getMessageFeishu] renders the content of an item: it is the
    [text] field of the body exactly when the item is a text message whose
    body parses to an object with a truthy [text]; in every other case
    (another type, a body that does not parse, [null], no or an empty
    [text]) it is the raw body, and parsing never makes the query fail. *)
Theorem parseContent_text_or_raw (item : MessageItem) :
  let raw := JS.nullish (body_content item) [] in
  (forall fields v,
      isType item (JS.lit "text") = true ->
      JSON_parse raw = JS.Normal (JObject fields) ->
      lookupField (JS.lit "text") fields = Some v -> truthy v = true ->
      parseContent item = v)
  /\ (parseContent item <> JString raw ->
      isType item (JS.lit "text") = true
      /\ exists fields v,
           JSON_parse raw = JS.Normal (JObject fields)
           /\ lookupField (JS.lit "text") fields = Some v
           /\ truthy v = true /\ parseContent item = v).
Proof.
  intros raw. unfold parseContent, textOf. fold raw. split.
  - intros fields v -> -> Hv Ht. cbn [JS.andThen JS.orKeep getText].
    now rewrite Hv, Ht.
  - destruct (isType item (JS.lit "text")).
    2:{ destruct (JSON_parse raw); cbn; congruence. }
    destruct (JSON_parse raw) as [parsed|msg]; cbn; [| congruence].
    destruct parsed as [|b|n|s|l|fields]; cbn [JS.andThen JS.orKeep getText];
      try congruence.
    destruct (lookupField (JS.lit "text") fields) as [v|] eqn:Hv;
      cbn [JS.andThen JS.orKeep]; [| congruence].
    destruct (truthy v) eqn:Ht; cbn [JS.andThen JS.orKeep]; [| congruence].
    intros _. split; [reflexivity |]. exists fields, v. auto.
Qed.

End ListingOrder.

Section ListingExamples.
Import Send SendSpec.
#[local] Existing Instance exampleHost.

Lemma listMessagesFeishu_keeps_page_order_witness :
  exists r n,
    listMessagesFeishu 3 exampleConfig (JS.lit "oc_1") (Some 3%Z)
      None None None None = Returned r
    /\ (n <= 3)%nat
    /\ messages r
       = map toHistoryMessage
           (take (Z.to_nat 3)
              (pagesFrom (@createFeishuClient exampleHost pagingClient)
                 (JS.lit "oc_1") 3 None None
                 (JS.nullish None (JS.lit "ByCreateTimeDesc")) n 0 None)).
Proof.
  pose (r := @Build_ListMessagesResult exampleHost
               [toHistoryMessage exampleItem; toHistoryMessage exampleItem;
                toHistoryMessage exampleItem]
               true (Some (JS.lit "next")) 3).
  assert (Hr : listMessagesFeishu 3 exampleConfig (JS.lit "oc_1") (Some 3%Z)
                 None None None None = Returned r) by reflexivity.
  destruct (listMessagesFeishu_keeps_page_order 3 exampleConfig pagingClient
              (JS.lit "oc_1") 3 None None None None r eq_refl Hr)
    as (n & Hn & Hm).
  exists r, n. auto.
Defined.

Lemma listMessagesFeishu_hasMore_witness :
  exists r,
    listMessagesFeishu 3 exampleConfig (JS.lit "oc_1") (Some 3%Z)
      None None None None = Returned r
    /\ hasMore r = true
    /\ Z.of_nat (length (messages r)) = 3%Z
    /\ JS.truthy_opt (pageToken r) = true.
Proof.
  pose (r := @Build_ListMessagesResult exampleHost
               [toHistoryMessage exampleItem; toHistoryMessage exampleItem;
                toHistoryMessage exampleItem]
               true (Some (JS.lit "next")) 3).
  assert (Hr : listMessagesFeishu 3 exampleConfig (JS.lit "oc_1") (Some 3%Z)
                 None None None None = Returned r) by reflexivity.
  destruct (listMessagesFeishu_hasMore 3 exampleConfig pagingClient
              (JS.lit "oc_1") 3 None None None None eq_refl) as [Hpos _].
  destruct (Hpos eq_refl r Hr eq_refl) as [Hlen Htok].
  exists r. auto.
Defined.

Lemma parseListContent_label_witness :
  ((exists parsed,
      @JSON_parse exampleHost (JS.nullish (body_content exampleItem) [])
      = JS.Normal parsed) ->
   parseListContent exampleItem = JString [91; 22270; 29255; 93]%N)
  /\ ((exists msg,
         @JSON_parse exampleHost (JS.nullish (body_content exampleItem) [])
         = JS.Throw msg) ->
      parseListContent exampleItem
      = JString (JS.nullish (body_content exampleItem) [])).
Proof.
  apply (parseListContent_label exampleItem (JS.lit "image")
           [91; 22270; 29255; 93]%N); reflexivity.
Defined.

End ListingExamples.

(** ** Outbound messages *)

Section OutboundFacts.
Import Outbound.
Context `{Env}.

Lemma notConfigured_disciplined A :
  disciplined None (@notConfigured A).
Proof.
  unfold disciplined, notConfigured. cbn [fst snd length].
  split; [lia |]. split; [reflexivity | discriminate].
Qed.

Lemma request_disciplined A cfg req label (k : Response -> A) :
  disciplined (Some cfg) (request (transport cfg) req label k).
Proof.
  unfold disciplined, request. cbn [fst snd length].
  split; [lia |]. split; [discriminate |].
  intros a. destruct (transport cfg req) as [response|m] eqn:Hresp;
    [| discriminate].
  unfold failed. destruct (code response) as [c|] eqn:Hcode; [| discriminate].
  destruct (Z.eqb_spec c 0) as [->|]; cbn [negb]; [| discriminate].
  intros _. exists cfg, req, response. auto.
Qed.

Lemma invalid_disciplined A (cfg : FeishuConfig) m :
  disciplined (Some cfg) (([], JS.Throw m) : list Request * JS.completion A).
Proof.
  unfold disciplined. cbn [fst snd length].
  split; [lia |]. split; [discriminate | discriminate].
Qed.

(** X15. Every outbound function of [send.ts] makes at most one request to
    the transport, makes none and throws "Feishu channel not configured"
    when the channel is not configured, and returns normally only when its
    request was answered with code 0. *)
Theorem outbound_calls_disciplined
    (feishuCfg : option FeishuConfig)
    (to text messageId0 : JS.str) (card : CardJson)
    (replyToMessageId : option JS.str) :
  disciplined feishuCfg (sendMessageFeishu feishuCfg to text replyToMessageId)
  /\ disciplined feishuCfg (sendCardFeishu feishuCfg to card replyToMessageId)
  /\ disciplined feishuCfg
       (sendMarkdownCardFeishu feishuCfg to text replyToMessageId)
  /\ disciplined feishuCfg (updateCardFeishu feishuCfg messageId0 card)
  /\ disciplined feishuCfg (editMessageFeishu feishuCfg messageId0 text).
Proof.
  unfold sendMarkdownCardFeishu, sendMessageFeishu, sendCardFeishu,
    updateCardFeishu, editMessageFeishu.
  destruct feishuCfg as [cfg|].
  - split; [| split; [| split; [| split]]];
      repeat match goal with
             | |- context [if ?b then _ else _] => destruct b
             end;
      first [apply request_disciplined | apply invalid_disciplined].
  - split; [| split; [| split; [| split]]]; apply notConfigured_disciplined.
Qed.

(** X16. How a text or a card is routed: with a valid target, the one
    request of [sendMessageFeishu] and of [sendCardFeishu] is a reply to
    [replyToMessageId] when that is a non-empty string and a creation
    addressed to the normalized target otherwise; a text is sent as type
    [text] after table conversion, a card as type [interactive]. The
    result names the normalized target as chat and the id of the answer
    as message, or "unknown" when the answer carries none. With a target
    that does not normalize, nothing is requested. *)
Theorem send_routes_reply_or_create
    (feishuCfg : option FeishuConfig)
    (cfg : FeishuConfig) (to text : JS.str) (card : CardJson)
    (replyToMessageId : option JS.str) :
  feishuCfg = Some cfg ->
  let receiveId := JS.nullish (normalizeFeishuTarget to) [] in
  let route content kind :=
    if JS.truthy_opt replyToMessageId
    then Reply (JS.nullish replyToMessageId []) content kind
    else Create (resolveReceiveIdType receiveId) receiveId content kind in
  let textRequest :=
    route (stringifyText (convertMarkdownTables text)) (JS.lit "text") in
  let cardRequest := route (stringifyCard card) (JS.lit "interactive") in
  (JS.truthy receiveId = false ->
   fst (sendMessageFeishu feishuCfg to text replyToMessageId) = []
   /\ fst (sendCardFeishu feishuCfg to card replyToMessageId) = [])
  /\ (JS.truthy receiveId = true ->
      fst (sendMessageFeishu feishuCfg to text replyToMessageId) = [textRequest]
      /\ fst (sendCardFeishu feishuCfg to card replyToMessageId) = [cardRequest])
  /\ (forall r,
        snd (sendMessageFeishu feishuCfg to text replyToMessageId) = JS.Normal r ->
        exists response,
          transport cfg textRequest = JS.Normal response
          /\ r = {| messageId := JS.nullish (data_message_id response)
                                   (JS.lit "unknown");
                    chatId := receiveId |})
  /\ (forall r,
        snd (sendCardFeishu feishuCfg to card replyToMessageId) = JS.Normal r ->
        exists response,
          transport cfg cardRequest = JS.Normal response
          /\ r = {| messageId := JS.nullish (data_message_id response)
                                   (JS.lit "unknown");
                    chatId := receiveId |}).
Proof.
  intros Hcfg receiveId route textRequest cardRequest.
  assert (Hsent : forall req label r,
            snd (request (transport cfg) req label (sent receiveId))
            = JS.Normal r ->
            exists response,
              transport cfg req = JS.Normal response
              /\ r = {| messageId := JS.nullish (data_message_id response)
                                       (JS.lit "unknown");
                        chatId := receiveId |}).
  { intros req label r. unfold request. cbn [snd].
    destruct (transport cfg req) as [response|m]; [| discriminate].
    destruct (failed response); [discriminate |]. intros [= <-]. eauto. }
  unfold sendMessageFeishu, sendCardFeishu.
  rewrite Hcfg. fold receiveId. subst textRequest cardRequest route. cbv beta.
  destruct (JS.truthy receiveId) eqn:Htarget; cbn [negb].
  - split; [discriminate |]. split.
    + intros _. destruct (JS.truthy_opt replyToMessageId); split; reflexivity.
    + destruct (JS.truthy_opt replyToMessageId); split; intros r; apply Hsent.
  - split; [intros _; split; reflexivity |]. split; [discriminate |].
    split; intros r Hr; discriminate Hr.
Qed.

End OutboundFacts.

Section OutboundExamples.
Import Outbound.
#[local] Existing Instance echoEnv.

Local Abbreviation configured := (Some (tt : @FeishuConfig echoEnv)).

Example send_as_reply :
  sendMessageFeishu configured (JS.lit "oc_1") (JS.lit "hello")
    (Some (JS.lit "om_0"))
  = ([Reply (JS.lit "om_0") (JS.lit "hello") (JS.lit "text")],
     JS.Normal {| messageId := JS.lit "om_0"; chatId := JS.lit "oc_1" |}).
Proof. reflexivity. Qed.

Example send_to_invalid_target :
  sendMarkdownCardFeishu configured [] (JS.lit "hello") None
  = ([], JS.Throw (JS.lit "Invalid Feishu target: ")).
Proof. reflexivity. Qed.

Lemma send_routes_reply_or_create_witness :
  fst (sendMessageFeishu configured (JS.lit "oc_1") (JS.lit "hello") None)
  = [Create (JS.lit "chat_id") (JS.lit "oc_1") (JS.lit "hello") (JS.lit "text")]
  /\ fst (sendCardFeishu configured (JS.lit "oc_1")
            (buildMarkdownCard (JS.lit "hello")) None)
     = [Create (JS.lit "chat_id") (JS.lit "oc_1") (JS.lit "hello")
          (JS.lit "interactive")].
Proof.
  destruct (send_routes_reply_or_create configured (tt : @FeishuConfig echoEnv) (JS.lit "oc_1")
              (JS.lit "hello") (buildMarkdownCard (JS.lit "hello")) None
              eq_refl) as (_ & Hroute & _).
  apply Hroute. reflexivity.
Defined.

End OutboundExamples.

(** ** History requests *)

Section CaptureFacts.
Import Capture HistorySpec.

(** Whatever a pattern run returns was returned by its continuation, on
    the rest of the input after a match of the pattern. *)
Lemma run_sound {R} (r : pat) :
  forall (s : JS.str) (c : option JS.str) (k : @Cont R) (res : R),
    run r s c k = Some res ->
    exists m s' c', s = m ++ s' /\ Match r m c c' /\ k s' c' = Some res.
Proof.
  induction r as [|p|a IHa b IHb|a IHa|a IHa]; intros s c k res; cbn [run].
  - intros Hk. exists [], s, c. split; [reflexivity |]. split; [constructor | exact Hk].
  - destruct s as [|x s']; [discriminate |].
    destruct (p x) eqn:Hp; [| discriminate].
    intros Hk. exists [x], s', c. split; [reflexivity |].
    split; [now constructor | exact Hk].
  - intros Hrun. apply IHa in Hrun as (m1 & s1 & c1 & -> & Ha & Hrun).
    apply IHb in Hrun as (m2 & s2 & c2 & -> & Hb & Hk).
    exists (m1 ++ m2), s2, c2. split; [now rewrite app_assoc |].
    split; [econstructor; eassumption | exact Hk].
  - generalize (length s) at 1. intros n. revert s c.
    induction n as [|n IHn]; intros s c.
    + intros Hk. exists [], s, c. split; [reflexivity |].
      split; [constructor | exact Hk].
    + match goal with |- context [run a s c ?k0] =>
        destruct (run a s c k0) as [res'|] eqn:Hiter end.
      * intros [= ->]. apply IHa in Hiter as (m1 & s1 & c1 & -> & Ha & Hk).
        destruct (length s1 <? length (m1 ++ s1))%nat; [| discriminate].
        apply IHn in Hk as (m2 & s2 & c2 & -> & Hs & Hk).
        exists (m1 ++ m2), s2, c2. split; [now rewrite app_assoc |].
        split; [econstructor; eassumption | exact Hk].
      * intros Hk. exists [], s, c. split; [reflexivity |].
        split; [constructor | exact Hk].
  - intros Hrun. apply IHa in Hrun as (m & s' & c1 & -> & Ha & Hk).
    exists m, s', (Some m). split; [reflexivity |].
    split; [econstructor; eassumption |].
    rewrite List.length_app, Nat.add_sub, take_app_length in Hk. exact Hk.
Qed.

(** A match found by [exec] is a match of a part of the input. *)
Lemma exec_sound r s c :
  exec r s = Some c ->
  exists pre m post, s = pre ++ m ++ post /\ Match r m None c.
Proof.
  induction s as [|x s IH]; cbn [exec].
  - destruct (run r [] None _) as [c0|] eqn:Hrun; [| discriminate].
    intros [= ->]. apply run_sound in Hrun as (m & s' & c' & Hs & Hm & [= ->]).
    exists [], m, s'. auto.
  - destruct (run r (x :: s) None _) as [c0|] eqn:Hrun.
    + intros [= ->].
      apply run_sound in Hrun as (m & s' & c' & Hs & Hm & [= ->]).
      exists [], m, s'. auto.
    + intros Hex. apply IH in Hex as (pre & m & post & -> & Hm).
      exists (x :: pre), m, post. auto.
Qed.

Lemma match_star_digits m c c' :
  Match (PStar (PChr isDigit)) m c c' ->
  Forall (fun x => isDigit x = true) m.
Proof.
  intros Hm. remember (PStar (PChr isDigit)) as r eqn:Er.
  induction Hm as [| | | | |a m1 m2 c c1 c2 H1 _ H2 IH2]; try discriminate.
  - constructor.
  - injection Er as ->. inversion H1; subst. constructor; [assumption |].
    now apply IH2.
Qed.

Lemma match_number_digits m c c' :
  Match (plus (PChr isDigit)) m c c' ->
  m <> [] /\ Forall (fun x => isDigit x = true) m.
Proof.
  unfold plus. inversion 1 as [| |a b m1 m2 c0 c1 c2 H1 H2| | |]; subst.
  inversion H1; subst. apply match_star_digits in H2.
  split; [discriminate | now constructor].
Qed.

Lemma digitsIn_app_l g m1 m2 : digitsIn g m1 -> digitsIn g (m1 ++ m2).
Proof.
  intros (Hne & Hd & pre & post & ->). split; [exact Hne |].
  split; [exact Hd |]. exists pre, (post ++ m2). now rewrite <- !app_assoc.
Qed.

Lemma digitsIn_app_r g m1 m2 : digitsIn g m2 -> digitsIn g (m1 ++ m2).
Proof.
  intros (Hne & Hd & pre & post & ->). split; [exact Hne |].
  split; [exact Hd |]. exists (m1 ++ pre), post. now rewrite <- !app_assoc.
Qed.

(** The capture a match leaves is the one it found, or a run of digits of
    the matched text. *)
Lemma match_capture r m c c' :
  Match r m c c' -> digitGroups r ->
  c' = c \/ exists g, c' = Some g /\ digitsIn g m.
Proof.
  induction 1 as [c|p x c Hp|a b m1 m2 c c1 c2 _ IH1 _ IH2
                 |a m c c1 Ha _|a c|a m1 m2 c c1 c2 _ IH1 _ IH2];
    cbn [digitGroups]; intros Hwf.
  - now left.
  - now left.
  - destruct Hwf as [Hwa Hwb].
    destruct (IH2 Hwb) as [->|(g & -> & Hg)].
    + destruct (IH1 Hwa) as [->|(g & -> & Hg)]; [now left |].
      right. exists g. split; [reflexivity | now apply digitsIn_app_l].
    + right. exists g. split; [reflexivity | now apply digitsIn_app_r].
  - subst a. apply match_number_digits in Ha as [Hne Hd]. right. exists m.
    split; [reflexivity |]. split; [exact Hne |]. split; [exact Hd |].
    exists [], []. now rewrite app_nil_r.
  - now left.
  - destruct (IH2 Hwf) as [->|(g & -> & Hg)].
    + destruct (IH1 Hwf) as [->|(g & -> & Hg)]; [now left |].
      right. exists g. split; [reflexivity | now apply digitsIn_app_l].
    + right. exists g. split; [reflexivity | now apply digitsIn_app_r].
Qed.

Lemma exec_capture r s g :
  digitGroups r -> exec r s = Some (Some g) -> digitsIn g s.
Proof.
  intros Hwf Hex. apply exec_sound in Hex as (pre & m & post & -> & Hm).
  destruct (match_capture _ _ _ _ Hm Hwf) as [Hc|(g' & [= <-] & Hg)];
    [discriminate |].
  apply digitsIn_app_r, digitsIn_app_l. exact Hg.
Qed.

End CaptureFacts.

Section HistoryCount.
Import Capture History HistorySpec.

Lemma patterns_digitGroups : Forall digitGroups patterns.
Proof. repeat constructor. Qed.

Lemma firstCount_spec ps content num :
  Forall digitGroups ps ->
  firstCount ps content = Some num ->
  (0 < num <= 1000)%Z
  /\ exists digits, digitsIn digits content /\ num = parseDigits digits.
Proof.
  induction 1 as [|p ps Hp _ IH]; cbn [firstCount]; [discriminate |].
  destruct (exec p content) as [[digits|]|] eqn:Hex; try exact IH.
  destruct (JS.truthy digits); [| exact IH].
  destruct (_ && _) eqn:Hrange; [| exact IH].
  intros [= <-]. apply andb_true_iff in Hrange as [H0 H1].
  apply Z.ltb_lt in H0. apply Z.leb_le in H1. split; [lia |].
  exists digits. split; [| reflexivity]. now apply (exec_capture p).
Qed.

Lemma extractHistoryCount_bounds content :
  (1 <= extractHistoryCount content <= 1000)%Z.
Proof.
  unfold extractHistoryCount.
  destruct (firstCount patterns content) as [num|] eqn:Hfirst; cbn [JS.nullish].
  - destruct (firstCount_spec _ _ _ patterns_digitGroups Hfirst) as [Hrange _].
    lia.
  - lia.
Qed.

Example count_from_chinese_request :
  extractHistoryCount ([26368; 36817]%N ++ JS.lit "100" ++ [26465]%N) = 100%Z.
Proof. vm_compute. reflexivity. Qed.

Example count_case_insensitive :
  extractHistoryCount (JS.lit "show the LAST  50 Messages") = 50%Z.
Proof. vm_compute. reflexivity. Qed.

Example count_out_of_range :
  extractHistoryCount (JS.lit "last 5000 messages") = 200%Z.
Proof. vm_compute. reflexivity. Qed.

Example count_second_pattern_in_range :
  extractHistoryCount (JS.lit "last 0, or 30 messages") = 30%Z.
Proof. vm_compute. reflexivity. Qed.

(** X17. The number of messages a history request asks for: the result of
    [extractHistoryCount] is always between 1 and 1000; it is either the
    default 200 or the value of a run of decimal digits written in the
    message; and a message without any digit asks for 200. *)
Theorem extractHistoryCount_range (content : JS.str) :
  (1 <= extractHistoryCount content <= 1000)%Z
  /\ (extractHistoryCount content = 200%Z
      \/ exists digits,
           digitsIn digits content
           /\ extractHistoryCount content = parseDigits digits)
  /\ (Forall (fun x => isDigit x = false) content ->
      extractHistoryCount content = 200%Z).
Proof.
  split; [apply extractHistoryCount_bounds |].
  unfold extractHistoryCount.
  destruct (firstCount patterns content) as [num|] eqn:Hfirst; cbn [JS.nullish].
  - destruct (firstCount_spec _ _ _ patterns_digitGroups Hfirst)
      as [Hrange (digits & Hd & ->)].
    split; [right; eauto |].
    intros Hnone. exfalso.
    destruct Hd as (Hne & Hdig & pre & post & ->).
    destruct digits as [|x digits]; [congruence |].
    inversion Hdig as [|? ? Hx _]; subst.
    rewrite !Forall_app in Hnone. destruct Hnone as (_ & Hmid & _).
    inversion Hmid; subst. congruence.
  - split; [now left | reflexivity].
Qed.

End HistoryCount.

Section HistoryFetch.
Import Send History HistorySpec.
Context `{Host}.
Variable formatTime : Number -> JS.str.

Lemma kept_visible message :
  kept message = JS.Normal true <-> visible message.
Proof.
  unfold kept, visible.
  destruct (JS.nullish (h_deleted message) false).
  - split; [discriminate | intros [? _]; discriminate].
  - destruct (h_content message) as [| | |s| |]; 
      try (split; [discriminate | intros [_ (s' & [=] & _)]]).
    split.
    + intros [= Ht]. split; [reflexivity |]. exists s. split; [reflexivity |].
      destruct (JS.trim s); [discriminate | discriminate].
    + intros [_ (s' & [= <-] & Hne)]. destruct (JS.trim s); [congruence |].
      reflexivity.
Qed.

Lemma kept_readable message :
  (exists b, kept message = JS.Normal b) <-> readable message.
Proof.
  unfold kept, readable.
  destruct (JS.nullish (h_deleted message) false).
  - split; [now left | eauto].
  - destruct (h_content message);
      try (split; [intros [? ?] | intros [?|[? ?]]]; discriminate).
    split; [right; eauto | eauto].
Qed.

Lemma keep_normal l :
  Forall readable l ->
  exists l', keep l = JS.Normal l'
    /\ (l' = [] <-> Forall (fun message => ~ visible message) l).
Proof.
  induction 1 as [|message rest Hm _ (rest' & Hrest & Hnil)]; cbn [keep].
  - exists []. split; [reflexivity |]. split; [constructor | reflexivity].
  - apply kept_readable in Hm as [b Hb]. rewrite Hb, Hrest. cbn [JS.andThen].
    eexists. split; [reflexivity |]. destruct b.
    + split; [discriminate |]. intros Hall. inversion Hall as [|? ? Hv _]; subst.
      exfalso. apply Hv. now apply kept_visible.
    + rewrite Hnil. split.
      * intros Hall. constructor; [| exact Hall].
        intros Hv. apply kept_visible in Hv. congruence.
      * now inversion 1.
Qed.

Lemma keep_throws l :
  ~ Forall readable l -> exists msg, keep l = JS.Throw msg.
Proof.
  induction l as [|message rest IH]; intros Hnot.
  - exfalso. apply Hnot. constructor.
  - cbn [keep]. destruct (kept message) as [b|msg] eqn:Hk;
      [| cbn [JS.andThen]; eauto].
    cbn [JS.andThen]. destruct IH as [msg Hmsg].
    + intros Hrest. apply Hnot. constructor; [| exact Hrest].
      apply kept_readable. eauto.
    + rewrite Hmsg. cbn [JS.andThen]. eauto.
Qed.

Lemma line_nonempty message : line formatTime message <> [].
Proof. unfold line. discriminate. Qed.

Lemma join_lines_nil l :
  join (map (line formatTime) l) = [] <-> l = [].
Proof.
  destruct l as [|message rest]; [now split |]. split; [| discriminate].
  cbn [map join]. destruct (map _ rest).
  - intros Hl. now apply line_nonempty in Hl.
  - unfold line. discriminate.
Qed.

(** X18. However many messages the request names, a history fetch returns
    at most 1000 messages, never more than [extractHistoryCount] asked
    for, and its [total] is their number. When the transport answers
    every request and never sends an empty page that announces more, 1000
    requests are enough for the fetch to complete. *)
Theorem fetchChatHistoryForAgent_bounds
    (cfg : ClawdbotConfig) (feishuCfg : FeishuConfig)
    (chatId0 requestContent : JS.str) :
  channels_feishu cfg = Some feishuCfg ->
  (forall fuel res,
      fetchChatHistoryForAgent formatTime fuel cfg chatId0 requestContent
      = Returned res ->
      (Z.of_nat (length (h_messages res))
       <= extractHistoryCount requestContent <= 1000)%Z
      /\ h_total res = Z.of_nat (length (h_messages res)))
  /\ (productive (createFeishuClient feishuCfg) ->
      fetchChatHistoryForAgent formatTime 1000 cfg chatId0 requestContent
      <> OutOfFuel).
Proof.
  intros Hcfg.
  pose proof (extractHistoryCount_bounds requestContent) as Hrange.
  unfold fetchChatHistoryForAgent, listMessagesFeishu. rewrite Hcfg.
  cbn [JS.nullish]. split.
  - intros fuel res.
    destruct (listLoop _ _ _ _ _ _ fuel _ _ _ _) as [r| |] eqn:Hr;
      try discriminate.
    apply listLoop_returned in Hr as [Hlen Htotal]; [| cbn; lia].
    destruct (keep _); [| discriminate]. intros [= <-]. cbn. lia.
  - intros Hprod.
    destruct (listLoop_terminates (createFeishuClient feishuCfg) chatId0
                (extractHistoryCount requestContent) None None
                (JS.lit "ByCreateTimeDesc") 1000 0 [] None true Hprod)
      as [r Hr]; [cbn [length]; lia |].
    rewrite Hr. destruct (keep _); discriminate.
Qed.

(** X19. What a history fetch does with the messages it listed. If every
    message is deleted or has a string for content, it returns them with
    a [formatted] text that is empty exactly when no message is visible
    (not deleted, content not blank). If some message is not deleted and
    its content is not a string, such as a text message whose [text]
    field is a number, the fetch throws. *)
Theorem fetchChatHistoryForAgent_formats
    (fuel : nat) (cfg : ClawdbotConfig) (chatId0 requestContent : JS.str)
    (r : ListMessagesResult) :
  listMessagesFeishu fuel cfg chatId0
    (Some (extractHistoryCount requestContent)) None None None
    (Some (JS.lit "ByCreateTimeDesc")) = Returned r ->
  (Forall readable (messages r) ->
   exists res,
     fetchChatHistoryForAgent formatTime fuel cfg chatId0 requestContent
     = Returned res
     /\ h_messages res = messages r
     /\ (formatted res = []
         <-> Forall (fun message => ~ visible message) (messages r)))
  /\ (~ Forall readable (messages r) ->
      exists msg,
        fetchChatHistoryForAgent formatTime fuel cfg chatId0 requestContent
        = Threw msg).
Proof.
  intros Hr. unfold fetchChatHistoryForAgent. rewrite Hr. split.
  - intros Hall.
    destruct (keep_normal (rev (messages r))) as (l' & -> & Hnil).
    { now apply Forall_rev. }
    eexists. split; [reflexivity |]. split; [reflexivity |]. cbn [formatted].
    rewrite join_lines_nil, Hnil. split; intros Hv.
    + apply Forall_rev in Hv. now rewrite rev_involutive in Hv.
    + now apply Forall_rev.
  - intros Hnot. destruct (keep_throws (rev (messages r))) as [msg ->]; [| eauto].
    intros Hall. apply Hnot. apply Forall_rev in Hall.
    now rewrite rev_involutive in Hall.
Qed.

End HistoryFetch.

Section HistoryExamples.
Import Send History HistorySpec.
#[local] Existing Instance exampleHost.

Local Abbreviation clock :=
  (fun _ : @Number exampleHost => JS.lit "11/03 09:00").

Lemma fetchChatHistoryForAgent_bounds_witness :
  exists res,
    fetchChatHistoryForAgent clock 3 exampleConfig (JS.lit "oc_1")
      (JS.lit "last 3") = Returned res
    /\ (Z.of_nat (length (h_messages res))
        <= extractHistoryCount (JS.lit "last 3") <= 1000)%Z
    /\ h_total res = Z.of_nat (length (h_messages res)).
Proof.
  destruct (fetchChatHistoryForAgent_bounds clock exampleConfig pagingClient
              (JS.lit "oc_1") (JS.lit "last 3") eq_refl) as [Hbounds _].
  destruct (fetchChatHistoryForAgent clock 3 exampleConfig (JS.lit "oc_1")
              (JS.lit "last 3")) as [res| |] eqn:Hres.
  - exists res. split; [reflexivity |]. now apply (Hbounds 3).
  - vm_compute in Hres. discriminate.
  - vm_compute in Hres. discriminate.
Defined.

Lemma fetchChatHistoryForAgent_formats_witness :
  exists res,
    fetchChatHistoryForAgent clock 3 exampleConfig (JS.lit "oc_1")
      (JS.lit "last 3") = Returned res
    /\ length (h_messages res) = 3%nat
    /\ formatted res <> [].
Proof.
  pose (r := @Build_ListMessagesResult exampleHost
               [toHistoryMessage exampleItem; toHistoryMessage exampleItem;
                toHistoryMessage exampleItem]
               true (Some (JS.lit "next")) 3).
  assert (Hr : listMessagesFeishu 3 exampleConfig (JS.lit "oc_1")
                 (Some (extractHistoryCount (JS.lit "last 3")))
                 None None None (Some (JS.lit "ByCreateTimeDesc"))
               = Returned r) by (vm_compute; reflexivity).
  destruct (fetchChatHistoryForAgent_formats clock 3 exampleConfig
              (JS.lit "oc_1") (JS.lit "last 3") r Hr) as [Hok _].
  destruct Hok as (res & Hres & Hm & Hfmt).
  { do 3 (apply List.Forall_cons; [right; eexists; reflexivity |]).
    apply List.Forall_nil. }
  exists res. split; [exact Hres |]. split; [now rewrite Hm |].
  intros Hnil. apply Hfmt in Hnil. inversion Hnil as [|? ? Hv _].
  apply Hv. split; [reflexivity |]. eexists. split; [reflexivity |].
  vm_compute. discriminate.
Defined.

End HistoryExamples.

(** ** Incoming events *)

Section EventFacts.
Import Send Event.
Context `{Host}.

(** X20. What [parseMessageContent] makes of an incoming body. A message
    that is not a text message keeps its raw body, and so does any body
    that does not parse or that parses to [null]. A text message whose
    body parses to an object with a truthy [text] yields that field. The
    result differs from the raw body only for a text message with a
    parsed body, and is then the truthy [text] field or, when there is
    none, the empty string. *)
Theorem parseMessageContent_text_or_raw (content messageType : JS.str) :
  let result := parseMessageContent content messageType in
  (messageType <> JS.lit "text" -> result = JString content)
  /\ ((exists msg, JSON_parse content = JS.Throw msg) ->
      result = JString content)
  /\ (JSON_parse content = JS.Normal JNull -> result = JString content)
  /\ (forall fields v,
        messageType = JS.lit "text" ->
        JSON_parse content = JS.Normal (JObject fields) ->
        lookupField (JS.lit "text") fields = Some v -> truthy v = true ->
        result = v)
  /\ (result <> JString content ->
      messageType = JS.lit "text"
      /\ exists parsed,
           JSON_parse content = JS.Normal parsed /\ parsed <> JNull
           /\ (result = JString []
               \/ exists fields v,
                    parsed = JObject fields
                    /\ lookupField (JS.lit "text") fields = Some v
                    /\ truthy v = true /\ result = v)).
Proof.
  intros result. subst result. unfold parseMessageContent, JS.str_eqb.
  split; [| split; [| split; [| split]]].
  - intros Hty. rewrite bool_decide_eq_false_2 by exact Hty.
    now destruct (JSON_parse content).
  - intros [msg ->]. reflexivity.
  - intros ->. cbn [JS.andThen JS.orKeep getText].
    now destruct (bool_decide _).
  - intros fields v -> -> Hv Ht. rewrite bool_decide_eq_true_2 by reflexivity.
    cbn [JS.andThen JS.orKeep getText]. rewrite Hv. cbn [textOrEmpty].
    now rewrite Ht.
  - destruct (JSON_parse content) as [parsed|msg];
      cbn [JS.andThen JS.orKeep]; [| congruence].
    destruct (bool_decide (messageType = JS.lit "text")) eqn:Hty;
      cbn [JS.andThen JS.orKeep]; [| congruence].
    apply bool_decide_eq_true_1 in Hty. intros Hne. split; [exact Hty |].
    exists parsed. split; [reflexivity |].
    destruct parsed as [|b|n|s|l|fields];
      cbn [JS.andThen JS.orKeep getText textOrEmpty] in Hne |- *;
      try congruence; try (split; [discriminate | now left]).
    split; [discriminate |].
    destruct (lookupField (JS.lit "text") fields) as [v|] eqn:Hv;
      cbn [textOrEmpty]; [| now left].
    destruct (truthy v) eqn:Ht; [| now left].
    right. exists fields, v. auto.
Qed.

End EventFacts.

Section MentionFacts.
Import Event.

Lemma mentions_id_spec botOpenId m :
  mentions_id botOpenId m = true <-> id_open_id m = Some botOpenId.
Proof.
  unfold mentions_id, JS.str_eqb. destruct (id_open_id m) as [s|].
  - rewrite bool_decide_eq_true. split; congruence.
  - split; discriminate.
Qed.

(** X21. When an event counts as mentioning the bot. Without mentions it
    never does. When the bot's own id is unknown (absent or empty), any
    mention of anybody counts. When the id is known, the event counts
    exactly when one of its mentions carries that [open_id]; adding
    mentions then never takes a mention of the bot away. *)
Theorem checkBotMentioned_cases
    (event_mentions : option (list Mention)) (botOpenId : option JS.str) :
  let mentions := JS.nullish event_mentions [] in
  (checkBotMentioned event_mentions botOpenId = true -> mentions <> [])
  /\ (JS.truthy_opt botOpenId = false ->
      (checkBotMentioned event_mentions botOpenId = true <-> mentions <> []))
  /\ (forall id,
        botOpenId = Some id -> id <> [] ->
        (checkBotMentioned event_mentions botOpenId = true
         <-> exists m, List.In m mentions /\ id_open_id m = Some id))
  /\ (forall before after,
        checkBotMentioned event_mentions botOpenId = true ->
        checkBotMentioned (Some (before ++ mentions ++ after)) botOpenId
        = true).
Proof.
  intros mentions.
  assert (Hknown : forall id ms,
            id <> [] ->
            (checkBotMentioned (Some ms) (Some id) = true
             <-> exists m, List.In m ms /\ id_open_id m = Some id)).
  { intros id ms Hid. unfold checkBotMentioned. cbn [JS.nullish JS.truthy_opt].
    destruct id as [|x id]; [congruence |]. cbn [JS.truthy negb].
    destruct ms as [|m ms].
    - cbn. split; [discriminate | intros (m & [] & _)].
    - cbn [length Nat.eqb]. rewrite List.existsb_exists.
      split; intros (m' & Hin & Hm); exists m'; (split; [exact Hin |]);
        now apply mentions_id_spec. }
  assert (Hsome : checkBotMentioned event_mentions botOpenId
                  = checkBotMentioned (Some mentions) botOpenId) by reflexivity.
  split; [| split; [| split]].
  - unfold checkBotMentioned. fold mentions.
    destruct mentions; [discriminate | discriminate].
  - intros Hunknown. unfold checkBotMentioned. fold mentions.
    rewrite Hunknown. destruct mentions; cbn; split; congruence.
  - intros id -> Hid. rewrite Hsome. now apply Hknown.
  - intros before after. rewrite Hsome.
    destruct botOpenId as [[|x id]|].
    + unfold checkBotMentioned. cbn [JS.nullish JS.truthy_opt JS.truthy negb].
      destruct mentions; [discriminate |]. intros _.
      rewrite !List.length_app. cbn [length].
      destruct before; cbn; reflexivity.
    + rewrite !Hknown by discriminate. intros (m & Hin & Hm). exists m.
      split; [| exact Hm]. rewrite !List.in_app_iff. auto.
    + unfold checkBotMentioned. cbn [JS.nullish JS.truthy_opt JS.truthy negb].
      destruct mentions; [discriminate |]. intros _.
      rewrite !List.length_app. cbn [length].
      destruct before; cbn; reflexivity.
Qed.

Example mention_of_someone_else :
  let other := {| key := JS.lit "@_user_1"; id_open_id := Some (JS.lit "ou_9");
                  name := JS.lit "Ann" |} in
  checkBotMentioned (Some [other]) (Some (JS.lit "ou_bot")) = false
  /\ checkBotMentioned (Some [other]) None = true
  /\ checkBotMentioned (Some [other]) (Some []) = true.
Proof. cbn. auto. Qed.

End MentionFacts.

Section EventExamples.
Import Send Event.
#[local] Existing Instance exampleHost.

Example text_body_null_stays_raw :
  parseMessageContent (JS.lit "null") (JS.lit "text")
  = JString (JS.lit "null").
Proof. reflexivity. Qed.

End EventExamples.

(** ** More on the render decision *)

Section RenderContext.
Import Regex Render.

Lemma backticks_in text :
  contains_fenced_block text -> List.In 96%N text.
Proof.
  intros (pre & body & post & ->). rewrite List.in_app_iff. right. now left.
Qed.

Lemma pipe_in text : contains_table text -> List.In pipe text.
Proof.
  intros (pre & cells & breaks & sep & post & -> & _).
  rewrite List.in_app_iff. right. now left.
Qed.

(** X22. The automatic render decision looks for a fenced block or a
    table anywhere in the text: text that is rendered as a card stays so
    whatever is put before or after it, and text without any backtick and
    without any pipe is never rendered as a card. *)
Theorem shouldUseCard_context (text : JS.str) :
  (forall before after,
      shouldUseCard text = true ->
      shouldUseCard (before ++ text ++ after) = true)
  /\ (~ List.In 96%N text -> ~ List.In pipe text ->
      shouldUseCard text = false).
Proof.
  split.
  - intros before after. rewrite !shouldUseCard_spec.
    intros [(pre & body & post & ->)
           |(pre & cells & breaks & sep & post & -> & Hrows)].
    + left. exists (before ++ pre), body, (post ++ after).
      now rewrite <- !app_assoc.
    + right. exists (before ++ pre), cells, breaks, sep, (post ++ after).
      split; [now rewrite <- !app_assoc | exact Hrows].
  - intros Htick Hpipe. destruct (shouldUseCard text) eqn:Hcard; [| reflexivity].
    apply shouldUseCard_spec in Hcard as [Hfence|Htable].
    + now apply backticks_in in Hfence.
    + now apply pipe_in in Htable.
Qed.

End RenderContext.

